(** * WSCL distance tracker: a shallow embedding of [calculator.py]

    The development follows the source file top to bottom:
    configuration tables, the string helpers of the location normaliser,
    the [DistanceCalculator] class (two memoised calls to external services
    and three pipeline steps), the aggregation function and [main], which
    chains them.

    Conventions of the embedding.
    - A Python [str] is a [string] (a sequence of bytes).  The library
      calls [str.strip], [str.lower], [in], [str.split], [int] and the
      regular expressions of the source are written out for ASCII
      text; a byte above 127 is neither white space, nor a letter, nor a
      digit.
    - A Python [float] is an exact rational of type [Q]: the arithmetic of
      the source ([/], [*], [+], comparisons) is carried out without
      representation error, so a value of the embedding and the binary
      float of the code differ by the error of the float.  [round(x, n)]
      gives a nearest number with [n] decimals, as a reduced fraction, and
      goes to the even neighbour when [x] lies halfway between two.  The
      code takes that decision on the binary float, which seldom lies
      halfway when the exact value does: round(2 * (3843 / 3600), 2) is
      2.13 in the code and 2.14 here.  Statements about a rounded value
      therefore say that it is a nearest number with [n] decimals
      ([rounds_to]) and never which of two nearest ones it is.  A number
      with [n] decimals stands for the float nearest to it, which is what
      the code's [round] returns.
    - A Python [dict] that the program iterates over is an association
      list in insertion order ([dict_set] replaces in place or appends);
      the two caches, which are only probed, are [gmap]s.
    - The two web services are functions from the number of requests made
      so far and the request to the decoded JSON answer; every request is
      appended to a trace kept beside the caches, so that statements can
      count requests.  Console output and [time.sleep] are left out.
    - The two CSV files are the lists of their rows, a row giving each
      column as an optional string.
    - An exception is a value [Raise e] of type [result].  The only one
      followed is the [ValueError] of a date that does not parse.  The
      services are taken to answer with JSON of the documented shape: an
      exception of [requests.get] or [r.json()], or a missing field, is
      not part of the embedding.  The statements hold of the runs in
      which the services answer; those on the outcome of [process_races]
      and of [main] are about a call that returned, or say that a call
      does not return, and do not tell what else may end it. *)

From Stdlib Require Import Ascii String QArith Qround Qabs Lqa Lia.
From stdpp Require Import gmap strings list fin_maps pretty.

Close Scope Q_scope.

(** ** Python built-ins used by the source *)

Module Py.

Inductive exn := ValueError.

Inductive result (A : Type) :=
| Ok (a : A)
| Raise (e : exn).
Global Arguments Ok {A} a.
Global Arguments Raise {A} e.

(** [str.isspace] on one ASCII character: tab, line feed, vertical tab,
    form feed, carriage return, the four separators 28-31 and space. *)
Definition isspace (c : ascii) : bool :=
  let n := nat_of_ascii c in
  ((9 <=? n) && (n <=? 13)) || ((28 <=? n) && (n <=? 32)).

Definition isupper (c : ascii) : bool :=
  let n := nat_of_ascii c in (65 <=? n) && (n <=? 90).

Definition isdigit (c : ascii) : bool :=
  let n := nat_of_ascii c in (48 <=? n) && (n <=? 57).

(** A word character of [re]: letter, digit or underscore. *)
Definition isword (c : ascii) : bool :=
  let n := nat_of_ascii c in
  isupper c || ((97 <=? n) && (n <=? 122)) || isdigit c || (n =? 95).

Definition lower_char (c : ascii) : ascii :=
  if isupper c then ascii_of_nat (nat_of_ascii c + 32) else c.

(** [s.lower()] *)
Fixpoint lower (s : string) : string :=
  match s with
  | EmptyString => EmptyString
  | String c s' => String (lower_char c) (lower s')
  end.

Fixpoint lstrip (s : string) : string :=
  match s with
  | EmptyString => EmptyString
  | String c s' => if isspace c then lstrip s' else s
  end.

Fixpoint rstrip (s : string) : string :=
  match s with
  | EmptyString => EmptyString
  | String c s' =>
      match rstrip s' with
      | EmptyString => if isspace c then EmptyString else String c EmptyString
      | r => String c r
      end
  end.

(** [s.strip()] *)
Definition strip (s : string) : string := rstrip (lstrip s).

(** [needle in hay] *)
Fixpoint contains (needle hay : string) : bool :=
  String.prefix needle hay ||
  match hay with
  | EmptyString => false
  | String _ hay' => contains needle hay'
  end.

(** [s.split(sep)] for a separator of one character. *)
Fixpoint split (sep : ascii) (s : string) : list string :=
  match s with
  | EmptyString => [EmptyString]
  | String c s' =>
      if Ascii.eqb c sep then EmptyString :: split sep s'
      else match split sep s' with
           | tok :: toks => String c tok :: toks
           | [] => [String c EmptyString]
           end
  end.

(** The digits of an [int] literal: at least one digit, single
    underscores allowed between digits. *)
Fixpoint int_digits (acc : Z) (after_digit : bool) (s : string) : option Z :=
  match s with
  | EmptyString => if after_digit then Some acc else None
  | String c s' =>
      match Ascii.is_nat c with
      | Some d => int_digits (acc * 10 + Z.of_nat d) true s'
      | None =>
          if Ascii.eqb c "_"%char && after_digit then int_digits acc false s'
          else None
      end
  end.

(** The white space [int] skips around a number is that of the C
    library: tab, line feed, vertical tab, form feed, carriage return and
    space, without the separators 28-31 that [str.strip] removes. *)
Definition isspace_c (c : ascii) : bool :=
  let n := nat_of_ascii c in ((9 <=? n) && (n <=? 13)) || (n =? 32).

Fixpoint lskip_c (s : string) : string :=
  match s with
  | EmptyString => EmptyString
  | String c s' => if isspace_c c then lskip_c s' else s
  end.

Fixpoint rskip_c (s : string) : string :=
  match s with
  | EmptyString => EmptyString
  | String c s' =>
      match rskip_c s' with
      | EmptyString => if isspace_c c then EmptyString else String c EmptyString
      | r => String c r
      end
  end.

(** The number of digits of a literal, leading zeros included and
    underscores left out, and the most that [int] converts
    ([sys.get_int_max_str_digits()], 4300 unless it is configured). *)
Fixpoint count_digits (s : string) : N :=
  match s with
  | EmptyString => 0%N
  | String c s' =>
      match Ascii.is_nat c with
      | Some _ => N.succ (count_digits s')
      | None => count_digits s'
      end
  end.

Definition INT_MAX_STR_DIGITS : N := 4300.

(** [int(s)]: surrounding white space, an optional sign, then digits, no
    more of them than the limit. *)
Definition int (s : string) : result Z :=
  let digits :=
    match rskip_c (lskip_c s) with
    | String "-"%char s' => s'
    | String "+"%char s' => s'
    | s' => s'
    end in
  let negative :=
    match rskip_c (lskip_c s) with
    | String "-"%char _ => true
    | _ => false
    end in
  if (INT_MAX_STR_DIGITS <? count_digits digits)%N then Raise ValueError
  else
    match int_digits 0 false digits with
    | Some z => Ok (if negative then Z.opp z else z)
    | None => Raise ValueError
    end.

(** Rounding half to even to the nearest integer. *)
Definition round_half_even (x : Q) : Z :=
  let f := Qfloor x in
  match Qcompare (x - inject_Z f) (1 # 2) with
  | Lt => f
  | Gt => (f + 1)%Z
  | Eq => if Z.even f then f else (f + 1)%Z
  end.

Definition pow10 (n : nat) : Q := inject_Z (10 ^ Z.of_nat n).

(** [round(x, ndigits)] *)
Definition round (x : Q) (ndigits : nat) : Q :=
  Qred (inject_Z (round_half_even (x * pow10 ndigits)) / pow10 ndigits).

(** Left padding with zeros up to a width. *)
Definition zfill (width : nat) (s : string) : string :=
  String.concat "" (replicate (width - String.length s) "0") +:+ s.

(** [f"{x:.6f}"] *)
Definition format_6f (x : Q) : string :=
  let m := round_half_even (Qabs x * pow10 6) in
  (if Qlt_le_dec x 0 then "-" else "")
    +:+ pretty (m / 10 ^ 6)%Z +:+ "." +:+ zfill 6 (pretty (m mod 10 ^ 6)%Z).

(** [f"{n:02d}"] *)
Definition format_02d (n : Z) : string :=
  if (0 <=? n)%Z then zfill 2 (pretty n) else pretty n.

(** An insertion-ordered dictionary: [d.get(k)], [k in d], [d[k] = v]
    (in place when the key exists, at the end otherwise) and the
    read-modify-write [d[k] += ...] of a [defaultdict] or [Counter]. *)
Section dict.
Context {K V : Type} `{EqDecision K}.

Fixpoint dict_get (d : list (K * V)) (k : K) : option V :=
  match d with
  | [] => None
  | (k', v) :: d' => if decide (k = k') then Some v else dict_get d' k
  end.

Definition dict_mem (d : list (K * V)) (k : K) : bool :=
  match dict_get d k with Some _ => true | None => false end.

Fixpoint dict_set (d : list (K * V)) (k : K) (v : V) : list (K * V) :=
  match d with
  | [] => [(k, v)]
  | (k', v') :: d' =>
      if decide (k = k') then (k, v) :: d' else (k', v') :: dict_set d' k v
  end.

Definition dict_get_or (d : list (K * V)) (k : K) (default : V) : V :=
  match dict_get d k with Some v => v | None => default end.

Definition dict_update (d : list (K * V)) (k : K) (default : V) (f : V -> V)
  : list (K * V) :=
  dict_set d k (f (dict_get_or d k default)).
End dict.

End Py.

Import Py.

(** ** Configuration *)

Definition LAT_MIN : Q := 45.0.
Definition LAT_MAX : Q := 49.5.
Definition LNG_MIN : Q := -125.0.
Definition LNG_MAX : Q := -116.0.

Definition LOCATION_STANDARDIZATION : list (string * string) :=
  [ ("360 Trails", "360 Trails");
    ("360 Trails Park", "360 Trails");
    ("360 Trails (State Championship and Relay)", "360 Trails");
    ("Squilchuck (Race + Camping)", "Squilchuck State Park");
    ("Squilchuck (State Park)", "Squilchuck State Park");
    ("(local venue)", "Riverside State Park");
    ("Riverside (State Park)", "Riverside State Park");
    ("Liberty Bell High School", "Liberty Bell High School");
    ("Roslyn High School", "Roslyn High School");
    ("Cle Elum-Roslyn High School", "Roslyn High School") ].

Definition CITY_LOCAL_VENUE_OVERRIDES : list (string * string) :=
  [ ("Spokane", "Riverside State Park");
    ("Winthrop", "Liberty Bell High School");
    ("Ephrata", "Ephrata, WA") ].

(** ** Helpers *)

Inductive Season := Spring | Fall | Other.

Global Instance Season_eq_dec : EqDecision Season.
Proof. solve_decision. Defined.

Definition infer_season (month : Z) : Season :=
  if ((3 <=? month) && (month <=? 6))%Z then Spring
  else if ((9 <=? month) && (month <=? 11))%Z then Fall
  else Other.

(** [m, d = date_str.split("/")] raises [ValueError] unless the split has
    exactly two parts; [int] raises it on a part that is not an integer. *)
Definition parse_mm_dd (date_str : string) : result (Z * Z) :=
  match split "/"%char date_str with
  | [m; d] =>
      match int m with
      | Raise e => Raise e
      | Ok m' =>
          match int d with
          | Raise e => Raise e
          | Ok d' => Ok (m', d')
          end
      end
  | _ => Raise ValueError
  end.

(** The loop over [CITY_LOCAL_VENUE_OVERRIDES.items()]: the value of the
    first key found (case-insensitively) inside the city. *)
Fixpoint first_override (city : string) (overrides : list (string * string))
  : option string :=
  match overrides with
  | [] => None
  | (k, v) :: rest =>
      if contains (lower k) (lower city) then Some v
      else first_override city rest
  end.

Definition standardize_venue_name (city venue : string) : string :=
  let venue := strip venue in
  let override :=
    if String.eqb venue "(local venue)"
    then first_override city CITY_LOCAL_VENUE_OVERRIDES
    else None in
  match override with
  | Some v => v
  | None => dict_get_or LOCATION_STANDARDIZATION venue venue
  end.

(** [s] starts with [pat], letter case ignored. *)
Definition prefix_ignorecase (pat s : string) : bool :=
  String.prefix (lower pat) (lower s).

(** [re.sub(re.escape(pat), "", s, flags=re.IGNORECASE)]: the leftmost
    occurrences, not overlapping, are dropped.  [skip] counts the
    characters of the current occurrence still to drop. *)
Fixpoint remove_ignorecase (pat : string) (skip : nat) (s : string) : string :=
  match s with
  | EmptyString => EmptyString
  | String c s' =>
      match skip with
      | S n => remove_ignorecase pat n s'
      | O =>
          if prefix_ignorecase pat s
          then remove_ignorecase pat (String.length pat - 1) s'
          else String c (remove_ignorecase pat 0 s')
      end
  end.

(** [re.sub(r"\s{2,}", " ", s)]: a run of two or more white-space
    characters becomes one space.  [in_run] holds inside such a run. *)
Fixpoint collapse_spaces (in_run : bool) (s : string) : string :=
  match s with
  | EmptyString => EmptyString
  | String c s' =>
      if isspace c then
        if in_run then collapse_spaces true s'
        else match s' with
             | String c2 _ =>
                 if isspace c2 then String " "%char (collapse_spaces true s')
                 else String c (collapse_spaces false s')
             | EmptyString => String c EmptyString
             end
      else String c (collapse_spaces false s')
  end.

(** [re.sub(r"\s+", "_", s)] *)
Fixpoint underscore_spaces (in_run : bool) (s : string) : string :=
  match s with
  | EmptyString => EmptyString
  | String c s' =>
      if isspace c then
        if in_run then underscore_spaces true s'
        else String "_"%char (underscore_spaces true s')
      else String c (underscore_spaces false s')
  end.

Definition clean_city_field (team_name city : string) : string :=
  if String.eqb city "" then city
  else
    let c :=
      match team_name with
      | EmptyString => city
      | _ => remove_ignorecase team_name 0 city
      end in
    let c := strip c in
    let c := collapse_spaces false c in
    if String.eqb c "" then city else c.

(** ** Data *)

(** The dictionary built by [geocode_location]. *)
Module Geocoded.
Record t := mk
  { query : string; formatted_address : string; lat : Q; lng : Q }.
End Geocoded.

Module Team.
Record t := mk
  { name : string; city : string; state : string; zip : string;
    geocoded : Geocoded.t }.
End Team.

Module Venue.
Record t := mk
  { location_key : string; city : string; venue : string;
    geocoded : Geocoded.t }.
End Venue.

Module Event.
Record t := mk
  { event_id : string; year : string; month : Z; day : Z;
    season : Season; date : string; location_key : string }.
End Event.

(** A row of the teams file and a row of the races file, as
    [csv.DictReader] yields them: a missing column reads as [None]. *)
Module TeamRow.
Record t := mk
  { Team : option string; City : option string;
    State : option string; Zip : option string }.
End TeamRow.

Module RaceRow.
Record t := mk
  { Year : option string; Date : option string;
    City : option string; Venue : option string }.
End RaceRow.

(** [{"miles": x, "hours": y}] *)
Record RoundTrip := { miles : Q; hours : Q }.

Record SeasonTotals :=
  { Spring_totals : RoundTrip; Fall_totals : RoundTrip; Other_totals : RoundTrip }.

(** The value kept for one team in [distances]. *)
Record TeamDistances :=
  { venues : list (string * RoundTrip);
    total_miles_events : Q;
    total_hours_events : Q;
    season_totals : SeasonTotals }.

Record Aggregates :=
  { venue_event_counts : list (string * nat);
    venue_event_counts_by_season : list (Season * list (string * nat));
    venue_total_miles : list (string * Q);
    venue_total_hours : list (string * Q);
    venue_total_miles_by_season : list (Season * list (string * Q));
    venue_total_hours_by_season : list (Season * list (string * Q)) }.

(** ** The external services *)

(** The decoded answer of the geocoding service: a status and the list of
    results, of which the source reads the first. *)
Record GeocodeResult :=
  { result_formatted_address : string; result_lat : Q; result_lng : Q }.

Record GeocodeData :=
  { geocode_status : string; geocode_results : list GeocodeResult }.

(** The decoded answer of the distance-matrix service: the status of the
    answer and [rows[0].elements[0]] with its own status, the distance in
    metres and the duration in seconds. *)
Record MatrixElement :=
  { element_status : string; distance_value : Q; duration_value : Q }.

Record MatrixData :=
  { matrix_status : string; matrix_element : MatrixElement }.

(** One request sent out, with the answer received.  A geocoding request
    also records the arguments of the call that issued it. *)
Inductive Request :=
| GeocodeRequest (query force_state address : string) (data : GeocodeData)
| MatrixRequest (origin destination : Q * Q) (data : MatrixData).

(** ** Core *)

(** The state of a [DistanceCalculator] object, with the trace of the
    requests it has sent. *)
Record Calculator :=
  { geocode_cache : gmap string (option Geocoded.t);
    distance_cache : gmap string (Q * Q);
    requests : list Request }.

(** [DistanceCalculator(api_key)] *)
Definition new_calculator : Calculator :=
  {| geocode_cache := ∅; distance_cache := ∅; requests := [] |}.

Definition cache_geocode (key : string) (v : option Geocoded.t)
    (self : Calculator) : Calculator :=
  {| geocode_cache := <[key := v]> (geocode_cache self);
     distance_cache := distance_cache self;
     requests := requests self |}.

Definition cache_distance (key : string) (v : Q * Q)
    (self : Calculator) : Calculator :=
  {| geocode_cache := geocode_cache self;
     distance_cache := <[key := v]> (distance_cache self);
     requests := requests self |}.

Definition sent (r : Request) (self : Calculator) : Calculator :=
  {| geocode_cache := geocode_cache self;
     distance_cache := distance_cache self;
     requests := requests self ++ [r] |}.

(** [\s*[A-Z]{2}\b] matches at the head of [s]. *)
Fixpoint state_code_here (s : string) : bool :=
  match s with
  | EmptyString => false
  | String c s' =>
      if isspace c then state_code_here s'
      else
        match s' with
        | EmptyString => false
        | String c2 rest =>
            isupper c && isupper c2 &&
            match rest with
            | EmptyString => true
            | String c3 _ => negb (isword c3)
            end
        end
  end.

(** [re.search(r",\s*[A-Z]{2}\b", s)] finds a match. *)
Fixpoint has_state_code (s : string) : bool :=
  match s with
  | EmptyString => false
  | String c s' =>
      (Ascii.eqb c ","%char && state_code_here s') || has_state_code s'
  end.

Definition in_bounds (lat lng : Q) : bool :=
  Qle_bool LAT_MIN lat && Qle_bool lat LAT_MAX &&
  Qle_bool LNG_MIN lng && Qle_bool lng LNG_MAX.

(** [f"{query}|{force_state}"] *)
Definition geocode_cache_key (query force_state : string) : string :=
  query +:+ "|" +:+ force_state.

(** The address sent out: the query itself when it already shows a state
    code, the query with state and country appended otherwise. *)
Definition geocode_full_query (query force_state : string) : string :=
  if has_state_code query then query
  else query +:+ ", " +:+ force_state +:+ ", USA".

(** The key of the distance cache: both points at six decimals. *)
Definition distance_cache_key (origin destination : Geocoded.t) : string :=
  format_6f (Geocoded.lat origin) +:+ "," +:+
  format_6f (Geocoded.lng origin) +:+ "|" +:+
  format_6f (Geocoded.lat destination) +:+ "," +:+
  format_6f (Geocoded.lng destination).

Definition coordinates (g : Geocoded.t) : Q * Q :=
  (Geocoded.lat g, Geocoded.lng g).

Section Core.

(** The answer of each service to a request, given how many requests
    were sent before it. *)
Variable geocode_service : nat -> string -> GeocodeData.
Variable matrix_service : nat -> Q * Q -> Q * Q -> MatrixData.

Definition geocode_location (query force_state : string) (self : Calculator)
  : option Geocoded.t * Calculator :=
  let cache_key := geocode_cache_key query force_state in
  match geocode_cache self !! cache_key with
  | Some cached => (cached, self)
  | None =>
      let full_query := geocode_full_query query force_state in
      let data := geocode_service (length (requests self)) full_query in
      let self := sent (GeocodeRequest query force_state full_query data) self in
      (* a status other than OK and an empty result list fail alike *)
      match geocode_results data with
      | res :: _ =>
          if String.eqb (geocode_status data) "OK" then
            let lat := result_lat res in
            let lng := result_lng res in
            let formatted := result_formatted_address res in
            if in_bounds lat lng then
              let geocoded := Geocoded.mk query formatted lat lng in
              (Some geocoded, cache_geocode cache_key (Some geocoded) self)
            else (None, cache_geocode cache_key None self)
          else (None, cache_geocode cache_key None self)
      | [] => (None, cache_geocode cache_key None self)
      end
  end.

(** One-way (miles, hours) between two geocoded points. *)
Definition distance_and_time (origin destination : Geocoded.t)
    (self : Calculator) : (Q * Q) * Calculator :=
  let cache_key := distance_cache_key origin destination in
  match distance_cache self !! cache_key with
  | Some cached => (cached, self)
  | None =>
      let origins := coordinates origin in
      let destinations := coordinates destination in
      let data :=
        matrix_service (length (requests self)) origins destinations in
      let self := sent (MatrixRequest origins destinations data) self in
      if negb (String.eqb (matrix_status data) "OK") then
        ((0, 0)%Q, cache_distance cache_key (0, 0)%Q self)
      else
        let element := matrix_element data in
        if negb (String.eqb (element_status element) "OK") then
          ((0, 0)%Q, cache_distance cache_key (0, 0)%Q self)
        else
          let miles := (distance_value element / 1609.34)%Q in
          let hours := (duration_value element / 3600)%Q in
          ((miles, hours), cache_distance cache_key (miles, hours) self)
  end.

(** [x or default] on an optional string. *)
Definition str_or (x : option string) (default : string) : string :=
  match x with
  | Some (String c s) => String c s
  | _ => default
  end.

Definition nonempty (s : string) : bool := negb (String.eqb s "").

(** The body of the loop of [process_teams] for one row. *)
Definition process_team_row (row : TeamRow.t) (teams : list Team.t)
    (self : Calculator) : list Team.t * Calculator :=
  let team := strip (str_or (TeamRow.Team row) "") in
  let city := strip (str_or (TeamRow.City row) "") in
  let state := strip (str_or (TeamRow.State row) "WA") in
  let zipc := strip (str_or (TeamRow.Zip row) "") in
  if negb (nonempty team) then (teams, self)
  else
    let city := clean_city_field team city in
    let '(geocoded, self) :=
      if nonempty zipc then geocode_location zipc state self
      else (None, self) in
    let '(geocoded, self) :=
      match geocoded with
      | None =>
          if nonempty city then geocode_location city state self
          else (geocoded, self)
      | Some _ => (geocoded, self)
      end in
    match geocoded with
    | Some g => (teams ++ [Team.mk team city state zipc g], self)
    | None => (teams, self)
    end.

Fixpoint process_teams_from (rows : list TeamRow.t) (teams : list Team.t)
    (self : Calculator) : list Team.t * Calculator :=
  match rows with
  | [] => (teams, self)
  | row :: rows' =>
      let '(teams, self) := process_team_row row teams self in
      process_teams_from rows' teams self
  end.

Definition process_teams (rows : list TeamRow.t) (self : Calculator)
  : list Team.t * Calculator :=
  process_teams_from rows [] self.

(** The block "geocode each unique venue once" of [process_races]:
    whether the location key has a venue afterwards, the dictionary and
    the calculator. *)
Definition resolve_venue (city venue location_key : string)
    (venues : list (string * Venue.t)) (self : Calculator)
  : bool * list (string * Venue.t) * Calculator :=
  if dict_mem venues location_key then (true, venues, self)
  else
    let query := venue +:+ ", " +:+ city in
    let '(geo, self) := geocode_location query "WA" self in
    match geo with
    | None => (false, venues, self)
    | Some g =>
        (true,
         dict_set venues location_key (Venue.mk location_key city venue g),
         self)
    end.

(** The loop of [process_races]: [venues] is the dictionary keyed by
    location key, [events] the list built so far. *)
Fixpoint process_races_from (rows : list RaceRow.t)
    (venues : list (string * Venue.t)) (events : list Event.t)
    (self : Calculator)
  : result (list (string * Venue.t) * list Event.t) * Calculator :=
  match rows with
  | [] => (Ok (venues, events), self)
  | row :: rows' =>
      let city := strip (str_or (RaceRow.City row) "") in
      let venue_in := strip (str_or (RaceRow.Venue row) "") in
      let date := strip (str_or (RaceRow.Date row) "") in
      let year := strip (str_or (RaceRow.Year row) "") in
      if negb (nonempty city && nonempty venue_in && nonempty date && nonempty year)
      then process_races_from rows' venues events self
      else
        let venue := standardize_venue_name city venue_in in
        match parse_mm_dd date with
        | Raise e => (Raise e, self)
        | Ok (month, day) =>
            let season := infer_season month in
            let location_key := city +:+ ", " +:+ venue in
            let '(found, venues, self) :=
              resolve_venue city venue location_key venues self in
            if found then
              let safe_venue := underscore_spaces false venue in
              let event_id :=
                year +:+ "-" +:+ format_02d month +:+ "-" +:+ format_02d day
                  +:+ "_" +:+ city +:+ "_" +:+ safe_venue in
              process_races_from rows' venues
                (events ++
                 [Event.mk event_id year month day season date location_key])
                self
            else process_races_from rows' venues events self
        end
  end.

Definition process_races (rows : list RaceRow.t) (self : Calculator)
  : result (list Venue.t * list Event.t) * Calculator :=
  match process_races_from rows [] [] self with
  | (Ok (venues, events), self) => (Ok (venues.*2, events), self)
  | (Raise e, self) => (Raise e, self)
  end.

(** The value [distances[tname]] starts from. *)
Definition empty_team_distances : TeamDistances :=
  {| venues := [];
     total_miles_events := 0;
     total_hours_events := 0;
     season_totals :=
       {| Spring_totals := {| miles := 0; hours := 0 |};
          Fall_totals := {| miles := 0; hours := 0 |};
          Other_totals := {| miles := 0; hours := 0 |} |} |}.

(** [tdata["venues"][key] = rt] *)
Definition set_venue (key : string) (rt : RoundTrip) (tdata : TeamDistances)
  : TeamDistances :=
  {| venues := dict_set (venues tdata) key rt;
     total_miles_events := total_miles_events tdata;
     total_hours_events := total_hours_events tdata;
     season_totals := season_totals tdata |}.

(** The inner loop of [compute_team_venue_distances] for one team. *)
Fixpoint team_distances_from (t : Team.t) (vs : list Venue.t)
    (distances : list (string * TeamDistances)) (self : Calculator)
  : list (string * TeamDistances) * Calculator :=
  match vs with
  | [] => (distances, self)
  | v :: vs' =>
      let '((one_way_miles, one_way_hours), self) :=
        distance_and_time (Team.geocoded t) (Venue.geocoded v) self in
      let rt_miles := round (one_way_miles * 2)%Q 1 in
      let rt_hours := round (one_way_hours * 2)%Q 2 in
      let distances :=
        dict_update distances (Team.name t) empty_team_distances
          (set_venue (Venue.location_key v)
             {| miles := rt_miles; hours := rt_hours |}) in
      team_distances_from t vs' distances self
  end.

Fixpoint distances_from (teams : list Team.t) (vs : list Venue.t)
    (distances : list (string * TeamDistances)) (self : Calculator)
  : list (string * TeamDistances) * Calculator :=
  match teams with
  | [] => (distances, self)
  | t :: teams' =>
      let distances := dict_set distances (Team.name t) empty_team_distances in
      let '(distances, self) := team_distances_from t vs distances self in
      distances_from teams' vs distances self
  end.

Definition compute_team_venue_distances (teams : list Team.t)
    (vs : list Venue.t) (self : Calculator)
  : list (string * TeamDistances) * Calculator :=
  distances_from teams vs [] self.

End Core.

(** ** Aggregation *)

Definition get_season (st : SeasonTotals) (s : Season) : RoundTrip :=
  match s with
  | Spring => Spring_totals st
  | Fall => Fall_totals st
  | Other => Other_totals st
  end.

Definition set_season (st : SeasonTotals) (s : Season) (rt : RoundTrip)
  : SeasonTotals :=
  match s with
  | Spring =>
      {| Spring_totals := rt; Fall_totals := Fall_totals st;
         Other_totals := Other_totals st |}
  | Fall =>
      {| Spring_totals := Spring_totals st; Fall_totals := rt;
         Other_totals := Other_totals st |}
  | Other =>
      {| Spring_totals := Spring_totals st; Fall_totals := Fall_totals st;
         Other_totals := rt |}
  end.

Definition zero_trip : RoundTrip := {| miles := 0; hours := 0 |}.

Definition zero_season_totals : SeasonTotals :=
  {| Spring_totals := zero_trip; Fall_totals := zero_trip;
     Other_totals := zero_trip |}.

(** [tdata["venues"].get(vkey, {"miles": 0.0, "hours": 0.0})] *)
Definition trip_to (tdata : TeamDistances) (vkey : string) : RoundTrip :=
  dict_get_or (venues tdata) vkey zero_trip.

(** [Counter(e["location_key"] for e in events)] *)
Definition count_venues (events : list Event.t) : list (string * nat) :=
  fold_left
    (fun counts e => dict_update counts (Event.location_key e) 0 S)
    events [].

(** The [defaultdict(Counter)] filled by the first loop over [events]. *)
Definition count_venues_by_season (events : list Event.t)
  : list (Season * list (string * nat)) :=
  fold_left
    (fun by_season e =>
       dict_update by_season (Event.season e) []
         (fun counts => dict_update counts (Event.location_key e) 0 S))
    events [].

(** The loop over [events] for one team: the running [total_miles],
    [total_hours] and season totals. *)
Definition add_event (tdata : TeamDistances)
    (acc : Q * Q * SeasonTotals) (e : Event.t) : Q * Q * SeasonTotals :=
  let '(total_miles, total_hours, st) := acc in
  let rt := trip_to tdata (Event.location_key e) in
  let s := Event.season e in
  let st :=
    set_season st s
      {| miles := (miles (get_season st s) + miles rt)%Q;
         hours := hours (get_season st s) |} in
  let st :=
    set_season st s
      {| miles := miles (get_season st s);
         hours := (hours (get_season st s) + hours rt)%Q |} in
  ((total_miles + miles rt)%Q, (total_hours + hours rt)%Q, st).

Definition round_trip (rt : RoundTrip) : RoundTrip :=
  {| miles := round (miles rt) 1; hours := round (hours rt) 2 |}.

(** The sums a team has after the loop over [events], before rounding. *)
Definition raw_team_totals (events : list Event.t) (tdata : TeamDistances)
  : Q * Q * SeasonTotals :=
  fold_left (add_event tdata) events (0%Q, 0%Q, zero_season_totals).

(** The body of the loop over [distances.items()]: what is written into
    [tdata]. *)
Definition team_totals (events : list Event.t) (tdata : TeamDistances)
  : TeamDistances :=
  let '(total_miles, total_hours, st) := raw_team_totals events tdata in
  {| venues := venues tdata;
     total_miles_events := round total_miles 1;
     total_hours_events := round total_hours 2;
     season_totals :=
       {| Spring_totals := round_trip (Spring_totals st);
          Fall_totals := round_trip (Fall_totals st);
          Other_totals := round_trip (Other_totals st) |} |}.

Definition count_to_Q (count : nat) : Q := inject_Z (Z.of_nat count).

(** The loop over the teams for one venue key and event count; [field]
    selects miles or hours. *)
Definition add_venue_total (field : RoundTrip -> Q)
    (distances : list (string * TeamDistances))
    (totals : list (string * Q)) (vkey : string) (count : nat)
  : list (string * Q) :=
  fold_left
    (fun totals '(team, tdata) =>
       dict_update totals vkey 0%Q
         (fun x => (x + field (trip_to tdata vkey) * count_to_Q count)%Q))
    distances totals.

Definition venue_totals (field : RoundTrip -> Q)
    (distances : list (string * TeamDistances))
    (counts : list (string * nat)) (totals : list (string * Q))
  : list (string * Q) :=
  fold_left
    (fun totals '(vkey, count) =>
       add_venue_total field distances totals vkey count)
    counts totals.

(** The same loops under the loop over the seasons; the inner dictionary
    of a season comes into being with its first [+=]. *)
Definition venue_totals_by_season (field : RoundTrip -> Q)
    (distances : list (string * TeamDistances))
    (by_season : list (Season * list (string * nat)))
  : list (Season * list (string * Q)) :=
  fold_left
    (fun acc '(season, counts) =>
       fold_left
         (fun acc '(vkey, count) =>
            fold_left
              (fun acc '(team, tdata) =>
                 dict_update acc season []
                   (fun totals =>
                      dict_update totals vkey 0%Q
                        (fun x =>
                           (x + field (trip_to tdata vkey) * count_to_Q count)%Q)))
              distances acc)
         counts acc)
    by_season [].

Definition round_values {K : Type} (ndigits : nat) (d : list (K * Q))
  : list (K * Q) :=
  map (fun '(k, v) => (k, round v ndigits)) d.

(** [derive_aggregates(distances, events)]: the aggregates returned and
    the [distances] object as the function leaves it. *)
Definition derive_aggregates (distances : list (string * TeamDistances))
    (events : list Event.t)
  : Aggregates * list (string * TeamDistances) :=
  let venue_event_counts := count_venues events in
  let venue_event_counts_by_season := count_venues_by_season events in
  let distances :=
    map (fun '(team, tdata) => (team, team_totals events tdata)) distances in
  let venue_total_miles := venue_totals miles distances venue_event_counts [] in
  let venue_total_hours := venue_totals hours distances venue_event_counts [] in
  let venue_total_miles_by_season :=
    venue_totals_by_season miles distances venue_event_counts_by_season in
  let venue_total_hours_by_season :=
    venue_totals_by_season hours distances venue_event_counts_by_season in
  ({| venue_event_counts := venue_event_counts;
      venue_event_counts_by_season := venue_event_counts_by_season;
      venue_total_miles := round_values 1 venue_total_miles;
      venue_total_hours := round_values 2 venue_total_hours;
      venue_total_miles_by_season :=
        map (fun '(s, d) => (s, round_values 1 d)) venue_total_miles_by_season;
      venue_total_hours_by_season :=
        map (fun '(s, d) => (s, round_values 2 d)) venue_total_hours_by_season |},
   distances).

(** ** Orchestration *)

Definition GOOGLE_API_KEY : string := "API_KEY_HERE".

(** The document [main] dumps as JSON, without the time stamp of its
    metadata. *)
Record Metadata :=
  { total_teams : nat; total_venues : nat; total_events : nat }.

Module Document.
Record t := mk
  { teams : list Team.t;
    venues : list Venue.t;
    events : list Event.t;
    distances : list (string * TeamDistances);
    aggregates : Aggregates;
    metadata : Metadata }.
End Document.

(** [main()] on the rows of the two files: the document it writes, or
    [None] when it returns early, or the exception of a date; and the
    calculator it used.  The console summary after the dump is output
    only. *)
Definition main
    (geocode_service : nat -> string -> GeocodeData)
    (matrix_service : nat -> Q * Q -> Q * Q -> MatrixData)
    (team_rows : list TeamRow.t) (race_rows : list RaceRow.t)
  : result (option Document.t) * Calculator :=
  let calc := new_calculator in
  if negb (nonempty GOOGLE_API_KEY) then (Ok None, calc)
  else
    let '(teams, calc) := process_teams geocode_service team_rows calc in
    match teams with
    | [] => (Ok None, calc)
    | _ :: _ =>
        match process_races geocode_service race_rows calc with
        | (Raise e, calc) => (Raise e, calc)
        | (Ok (vs, events), calc) =>
            match vs, events with
            | [], _ | _, [] => (Ok None, calc)
            | _ :: _, _ :: _ =>
                let '(distances, calc) :=
                  compute_team_venue_distances matrix_service teams vs calc in
                let '(aggregates, distances) :=
                  derive_aggregates distances events in
                (Ok (Some
                       (Document.mk teams vs events distances aggregates
                          {| total_teams := length teams;
                             total_venues := length vs;
                             total_events := length events |})),
                 calc)
            end
        end
    end.

(** ** Notions used in the statements *)

(** *** Rows *)

(** The test [city and venue_in and date and year] of [process_races]. *)
Definition has_required_fields (row : RaceRow.t) : bool :=
  nonempty (strip (str_or (RaceRow.City row) "")) &&
  nonempty (strip (str_or (RaceRow.Venue row) "")) &&
  nonempty (strip (str_or (RaceRow.Date row) "")) &&
  nonempty (strip (str_or (RaceRow.Year row) "")).

(** The fields of a row as the loops read them. *)
Definition row_date (row : RaceRow.t) : string :=
  strip (str_or (RaceRow.Date row) "").

Definition row_city (row : RaceRow.t) : string :=
  strip (str_or (RaceRow.City row) "").

Definition row_venue (row : RaceRow.t) : string :=
  standardize_venue_name (row_city row) (strip (str_or (RaceRow.Venue row) "")).

Definition row_location_key (row : RaceRow.t) : string :=
  row_city row +:+ ", " +:+ row_venue row.

Definition row_team (row : TeamRow.t) : string :=
  strip (str_or (TeamRow.Team row) "").

(** The row has its four fields and stands for this city and venue. *)
Definition resolves_to (city venue : string) (row : RaceRow.t) : Prop :=
  has_required_fields row = true /\ row_city row = city /\ row_venue row = venue.

(** A row with every column filled. *)
Definition team_row (team city state zip : string) : TeamRow.t :=
  TeamRow.mk (Some team) (Some city) (Some state) (Some zip).

Definition race_row (year date city venue : string) : RaceRow.t :=
  RaceRow.mk (Some year) (Some date) (Some city) (Some venue).

(** *** Answers of the services *)

(** What [geocode_location] makes of an answer: the dictionary returned,
    or [None]. *)
Definition geocode_outcome (query : string) (data : GeocodeData)
  : option Geocoded.t :=
  match geocode_results data with
  | res :: _ =>
      if String.eqb (geocode_status data) "OK" then
        if in_bounds (result_lat res) (result_lng res) then
          Some (Geocoded.mk query (result_formatted_address res)
                  (result_lat res) (result_lng res))
        else None
      else None
  | [] => None
  end.

(** The answer is one [geocode_location] accepts. *)
Definition accepted (data : GeocodeData) : bool :=
  match geocode_results data with
  | res :: _ =>
      String.eqb (geocode_status data) "OK" &&
      in_bounds (result_lat res) (result_lng res)
  | [] => false
  end.

(** Both statuses of a distance-matrix answer are OK. *)
Definition matrix_ok (data : MatrixData) : bool :=
  String.eqb (matrix_status data) "OK" &&
  String.eqb (element_status (matrix_element data)) "OK".

(** The pair [distance_and_time] makes of an answer. *)
Definition one_way (data : MatrixData) : Q * Q :=
  if matrix_ok data then
    ((distance_value (matrix_element data) / 1609.34)%Q,
     (duration_value (matrix_element data) / 3600)%Q)
  else (0%Q, 0%Q).

(** The entry [compute_team_venue_distances] makes of a one-way pair. *)
Definition two_way (ow : Q * Q) : RoundTrip :=
  {| miles := round (ow.1 * 2)%Q 1; hours := round (ow.2 * 2)%Q 2 |}.

(** *** Requests and states *)

(** A geocoding request issued by a call with this query. *)
Definition is_geocode_of (query : string) (r : Request) : bool :=
  match r with
  | GeocodeRequest q _ _ _ => String.eqb q query
  | MatrixRequest _ _ _ => false
  end.

(** The number of geocoding requests issued for a query. *)
Definition geocode_requests_for (query : string) (rs : list Request) : nat :=
  length (filter (fun r => is_geocode_of query r = true) rs).

(** The requests sent between two states. *)
Definition sent_between (self self' : Calculator) : list Request :=
  drop (length (requests self)) (requests self').

(** The cache holds the pair made of the answer to a matrix request. *)
Definition answered (self : Calculator) (r : Request) : Prop :=
  match r with
  | MatrixRequest o d data =>
      forall origin destination,
        coordinates origin = o -> coordinates destination = d ->
        distance_cache self !! distance_cache_key origin destination
        = Some (one_way data)
  | GeocodeRequest _ _ _ _ => True
  end.

(** [self'] comes after [self]: the distance cache has only grown, and
    the cache holds the answer to every request sent in between. *)
Definition later (self self' : Calculator) : Prop :=
  (forall k x, distance_cache self !! k = Some x ->
               distance_cache self' !! k = Some x) /\
  exists new, requests self' = requests self ++ new /\
              Forall (answered self') new.

(** *** Venues *)

(** The venues and the events [process_races] returned, none when it
    raised. *)
Definition venues_of (r : result (list Venue.t * list Event.t)) : list Venue.t :=
  match r with Ok (vs, _) => vs | Raise _ => [] end.

Definition events_of (r : result (list Venue.t * list Event.t)) : list Event.t :=
  match r with Ok (_, evs) => evs | Raise _ => [] end.

(** The venues of a collection that carry a location key. *)
Definition venues_with_key (key : string) (vs : list Venue.t) : list Venue.t :=
  filter (fun v => Venue.location_key v = key) vs.

(** The dictionary of venues is keyed by the location key of each venue. *)
Definition keyed_by_location (venues : list (string * Venue.t)) : Prop :=
  NoDup venues.*1 /\ Forall (fun x => Venue.location_key x.2 = x.1) venues.

(** The invariant of the loop of [process_races] for the venue of one
    city and canonical name, from the state [self0] the loop started in:
    either its query is not in the cache, no request for it was sent, no
    row for it was met ([seen]) and it has no venue; or the cache holds the
    outcome of the one request sent for it, and the venue exists when that
    outcome is a location (and some row for it was met) and only then. *)
Definition venue_once (self0 : Calculator) (city venue : string) (seen : Prop)
    (venues : list (string * Venue.t)) (self : Calculator) : Prop :=
  let query := venue +:+ ", " +:+ city in
  let key := city +:+ ", " +:+ venue in
  exists new,
    requests self = requests self0 ++ new /\
    match geocode_cache self !! geocode_cache_key query "WA" with
    | None =>
        geocode_requests_for query new = 0 /\ ~ seen /\ key ∉ venues.*1
    | Some r =>
        geocode_requests_for query new = 1 /\
        (exists data,
           GeocodeRequest query "WA" (geocode_full_query query "WA") data ∈ new /\
           r = geocode_outcome query data) /\
        (key ∈ venues.*1 -> is_Some r) /\
        (seen -> is_Some r -> key ∈ venues.*1)
    end.

(** *** The matrix *)

(** [distances[tname]["venues"][key]] read without raising. *)
Definition matrix_entry (distances : list (string * TeamDistances))
    (tname key : string) : option RoundTrip :=
  match dict_get distances tname with
  | Some tdata => dict_get (venues tdata) key
  | None => None
  end.

(** The number of (team, venue) entries of the matrix. *)
Definition entry_count (distances : list (string * TeamDistances)) : nat :=
  sum_list (map (fun x => length (venues x.2)) distances).

(** The venues of a team's record are the venues of the list, each once. *)
Definition covers (vs : list Venue.t) (tdata : TeamDistances) : Prop :=
  NoDup (venues tdata).*1 /\
  forall k, k ∈ (venues tdata).*1 <-> k ∈ map Venue.location_key vs.

(** The pairwise part of [distances]: for each team, its round trips. *)
Definition pair_entries (distances : list (string * TeamDistances))
  : list (string * list (string * RoundTrip)) :=
  map (fun '(team, tdata) => (team, venues tdata)) distances.

(** *** Aggregates *)

(** The sum of a field over the three seasons. *)
Definition season_sum (field : RoundTrip -> Q) (st : SeasonTotals) : Q :=
  (field (Spring_totals st) + field (Fall_totals st) + field (Other_totals st))%Q.

(** [d[k1][k2]] read without creating anything. *)
Definition lookup2 {K1 K2 V : Type} `{EqDecision K1} `{EqDecision K2}
    (d : list (K1 * list (K2 * V))) (k : K1 * K2) : option V :=
  match dict_get d k.1 with
  | Some inner => dict_get inner k.2
  | None => None
  end.

(** [d[k1][k2] = f(d[k1][k2])] on a [defaultdict] of dictionaries with a
    default for the inner value. *)
Definition update2 {K1 K2 V : Type} `{EqDecision K1} `{EqDecision K2}
    (default : V) (d : list (K1 * list (K2 * V))) (k : K1 * K2) (f : V -> V)
  : list (K1 * list (K2 * V)) :=
  dict_update d k.1 [] (fun inner => dict_update inner k.2 default f).

(** The keys of a dictionary of dictionaries are distinct, at both
    levels. *)
Definition keys_distinct2 {K1 K2 V : Type} (d : list (K1 * list (K2 * V))) : Prop :=
  NoDup d.*1 /\ Forall (fun x => NoDup x.2.*1) d.

(** The number of events held at a venue, over all seasons and in one. *)
Definition events_at (events : list Event.t) (vkey : string) : nat :=
  length (filter (fun e => Event.location_key e = vkey) events).

(** The same, for the events of one season. *)
Definition season_events_at (events : list Event.t) (s : Season)
    (vkey : string) : nat :=
  length
    (filter (fun e => Event.season e = s /\ Event.location_key e = vkey) events).

(** The sum over the teams of their round trip to a venue. *)
Definition team_sum (field : RoundTrip -> Q)
    (distances : list (string * TeamDistances)) (vkey : string) : Q :=
  foldr (fun '(team, tdata) acc => (field (trip_to tdata vkey) + acc)%Q)
    0%Q distances.

(** What one team adds to the running total [x] of venue [v] with [c]
    events. *)
Definition venue_term (field : RoundTrip -> Q) (v : string) (c : nat)
    (td : string * TeamDistances) (x : Q) : Q :=
  (x + field (trip_to td.2 v) * count_to_Q c)%Q.

(** The total of a venue with [count] events: none for a venue without
    events or a matrix without teams, else the sum over the teams times
    the count, rounded. *)
Definition weighted_total (field : RoundTrip -> Q) (ndigits : nat)
    (distances : list (string * TeamDistances)) (count : nat) (vkey : string)
  : option Q :=
  match count, distances with
  | S _, _ :: _ =>
      Some (round (team_sum field distances vkey * count_to_Q count) ndigits)
  | _, _ => None
  end.

(** A number with at most [n] decimals. *)
Definition has_decimals (n : nat) (x : Q) : Prop :=
  exists k : Z, (x == inject_Z k / pow10 n)%Q.




(** *** Sample data *)

(** A geocoder that places every address at one point, and one that
    finds nothing. *)
Definition found_at (lat lng : Q) : nat -> string -> GeocodeData :=
  fun _ address =>
    {| geocode_status := "OK";
       geocode_results :=
         [ {| result_formatted_address := address;
              result_lat := lat; result_lng := lng |} ] |}.

Definition zero_results : nat -> string -> GeocodeData :=
  fun _ _ => {| geocode_status := "ZERO_RESULTS"; geocode_results := [] |}.

(** Two teams of one name in Seattle and in Spokane, a venue in
    Wenatchee, and a routing service that answers 160934 m in two hours
    from Seattle and 321868 m in four hours from anywhere else. *)
Definition seattle : Geocoded.t :=
  Geocoded.mk "98101" "Seattle, WA 98101, USA" 47.6 (-122.3).

Definition spokane : Geocoded.t :=
  Geocoded.mk "99201" "Spokane, WA 99201, USA" 47.7 (-117.4).

Definition cyclones_seattle : Team.t :=
  Team.mk "Cyclones" "Seattle" "WA" "98101" seattle.

Definition cyclones_spokane : Team.t :=
  Team.mk "Cyclones" "Spokane" "WA" "99201" spokane.

Definition squilchuck : Venue.t :=
  Venue.mk "Wenatchee, Squilchuck State Park" "Wenatchee" "Squilchuck State Park"
    (Geocoded.mk "Squilchuck State Park, Wenatchee"
       "Squilchuck State Park, Wenatchee, WA, USA" 47.3 (-120.4)).

Definition routes : nat -> Q * Q -> Q * Q -> MatrixData :=
  fun _ origin _ =>
    {| matrix_status := "OK";
       matrix_element :=
         if Qeq_bool origin.1 47.6
         then {| element_status := "OK";
                 distance_value := 160934; duration_value := 7200 |}
         else {| element_status := "OK";
                 distance_value := 321868; duration_value := 14400 |} |}.

(** An event of the Spring season at a venue. *)
Definition spring_event (location_key : string) : Event.t :=
  Event.mk "" "2024" 4 13 Spring "4/13" location_key.

(** One team 40 miles and one hour (round trip) from one venue. *)
Definition one_team_one_venue : list (string * TeamDistances) :=
  [ ("Cyclones",
     set_venue "Wenatchee, Squilchuck State Park"
       {| miles := 40; hours := 1 |} empty_team_distances) ].


(** Two rows for one venue, written in two ways. *)
Definition two_races_at_squilchuck : list RaceRow.t :=
  [ race_row "2024" "4/13" "Wenatchee" "Squilchuck (State Park)";
    race_row "2024" "5/4" "Wenatchee" "Squilchuck (Race + Camping)" ].

(** A row in order, then one whose date carries the year. *)
Definition race_dated_with_year : RaceRow.t :=
  race_row "2024" "4/13/2024" "Wenatchee" "Squilchuck (State Park)".

Definition races_with_bad_date : list RaceRow.t :=
  [ race_row "2024" "4/13" "Wenatchee" "Squilchuck (State Park)";
    race_dated_with_year ].

(** ** Further notions *)

(** A two-letter state code in capitals. *)
Definition is_state_code (s : string) : bool :=
  match s with
  | String a (String b EmptyString) => isupper a && isupper b
  | _ => false
  end.

(** The point lies in the box the geocoder's answers are checked against. *)
Definition in_box (g : Geocoded.t) : Prop :=
  (45 <= Geocoded.lat g /\ Geocoded.lat g <= 49.5 /\
   -125 <= Geocoded.lng g /\ Geocoded.lng g <= -116)%Q.

(** Every location the geocode cache holds lies in the box. *)
Definition cache_in_box (self : Calculator) : Prop :=
  forall key g, geocode_cache self !! key = Some (Some g) -> in_box g.

(** *** Requests of a run *)

Definition is_matrix_request (r : Request) : bool :=
  match r with
  | MatrixRequest _ _ _ => true
  | GeocodeRequest _ _ _ _ => false
  end.

(** The distance cache keys of all (team, venue) pairs, in loop order. *)
Definition pair_keys (teams : list Team.t) (vs : list Venue.t) : list string :=
  flat_map
    (fun t =>
       map (fun v => distance_cache_key (Team.geocoded t) (Venue.geocoded v)) vs)
    teams.

(** The keys of a list that a cache does not hold, each counted once. *)
Definition new_keys {V : Type} (keys : list string) (cache : gmap string V)
  : nat :=
  size (list_to_set keys ∖ dom cache : gset string).

(** A geocoding request for one of the (query, state) pairs of a list,
    with the address [geocode_location] makes of the pair. *)
Definition asks_for (queries : list (string * string)) (r : Request) : Prop :=
  match r with
  | GeocodeRequest query force_state address _ =>
      (query, force_state) ∈ queries /\
      address = geocode_full_query query force_state
  | MatrixRequest _ _ _ => False
  end.

Definition query_keys (queries : list (string * string)) : list string :=
  map (fun q => geocode_cache_key q.1 q.2) queries.

(** The (query, state) pairs of the rows of the races file that have
    their four fields. *)
Definition race_queries (rows : list RaceRow.t) : list (string * string) :=
  map (fun row => (row_venue row +:+ ", " +:+ row_city row, "WA"))
    (filter (fun row => has_required_fields row = true) rows).

(** The (query, state) pairs a row of the teams file can be geocoded by:
    its zip code, then its cleaned city. *)
Definition team_row_queries (row : TeamRow.t) : list (string * string) :=
  let team := row_team row in
  let city := clean_city_field team (strip (str_or (TeamRow.City row) "")) in
  let state := strip (str_or (TeamRow.State row) "WA") in
  let zipc := strip (str_or (TeamRow.Zip row) "") in
  if nonempty team then
    (if nonempty zipc then [(zipc, state)] else []) ++
    (if nonempty city then [(city, state)] else [])
  else [].

Definition team_queries (rows : list TeamRow.t) : list (string * string) :=
  flat_map team_row_queries rows.

(** [self'] is reached from [self] by matrix requests alone, one for each
    key the distance cache gained, and the keys gained are those of
    [keys]. *)
Definition matrix_run (keys : list string) (self self' : Calculator) : Prop :=
  geocode_cache self' = geocode_cache self /\
  (dom (distance_cache self') : gset string)
  = dom (distance_cache self) ∪ list_to_set keys /\
  exists new,
    requests self' = requests self ++ new /\
    Forall (fun r => is_matrix_request r = true) new /\
    size (distance_cache self') = size (distance_cache self) + length new.

(** [self'] is reached from [self] by geocoding requests alone, each for
    a pair of [queries], one for each key the geocode cache gained. *)
Definition geocode_run (queries : list (string * string))
    (self self' : Calculator) : Prop :=
  distance_cache self' = distance_cache self /\
  (dom (geocode_cache self') : gset string)
  ⊆ dom (geocode_cache self) ∪ list_to_set (query_keys queries) /\
  exists new,
    requests self' = requests self ++ new /\
    Forall (asks_for queries) new /\
    size (geocode_cache self') = size (geocode_cache self) + length new.

(** *** Rows, venues and events *)

(** The event is the one [process_races] makes of the row. *)
Definition event_from (row : RaceRow.t) (ev : Event.t) : Prop :=
  parse_mm_dd (row_date row) = Ok (Event.month ev, Event.day ev) /\
  Event.season ev = infer_season (Event.month ev) /\
  Event.date ev = row_date row /\
  Event.year ev = strip (str_or (RaceRow.Year row) "") /\
  Event.location_key ev = row_location_key row /\
  Event.event_id ev
  = Event.year ev +:+ "-" +:+ format_02d (Event.month ev) +:+ "-" +:+
    format_02d (Event.day ev) +:+ "_" +:+ row_city row +:+ "_" +:+
    underscore_spaces false (row_venue row).

(** The venue carries the city, the canonical name and the location key
    of the row, which has its four fields. *)
Definition venue_from (row : RaceRow.t) (v : Venue.t) : Prop :=
  has_required_fields row = true /\
  Venue.location_key v = row_location_key row /\
  Venue.city v = row_city row /\
  Venue.venue v = row_venue row.

(** No query is cached as not found. *)
Definition never_failed (self : Calculator) : Prop :=
  forall key, geocode_cache self !! key <> Some None.

(** *** Totals of a team *)



(** *** A sample run *)

Definition one_team_file : list TeamRow.t :=
  [team_row "Cyclones" "Seattle" "WA" "98101"].

(** A run of [main] on one team and two races at one venue, with a
    geocoder that places every address in Seattle. *)
Definition sample_run : result (option Document.t) * Calculator :=
  main (found_at 47.6 (-122.3)) routes one_team_file two_races_at_squilchuck.

Definition sample_document : Document.t :=
  match sample_run.1 with
  | Ok (Some doc) => doc
  | _ =>
      Document.mk [] [] [] []
        {| venue_event_counts := []; venue_event_counts_by_season := [];
           venue_total_miles := []; venue_total_hours := [];
           venue_total_miles_by_season := [];
           venue_total_hours_by_season := [] |}
        {| total_teams := 0; total_venues := 0; total_events := 0 |}
  end.

(** *** Strings *)

(** The string is empty or starts with a character that is not white
    space; the string is empty or ends with one. *)
Definition head_nonspace (s : string) : bool :=
  match s with
  | EmptyString => true
  | String c _ => negb (isspace c)
  end.

Fixpoint ends_nonspace (s : string) : bool :=
  match s with
  | EmptyString => true
  | String c EmptyString => negb (isspace c)
  | String _ s' => ends_nonspace s'
  end.

(** [a] and the first character of [s] are not both white space. *)
Definition no_pair (a : ascii) (s : string) : bool :=
  match s with
  | EmptyString => true
  | String b _ => negb (isspace a && isspace b)
  end.

(** No two adjacent characters of the string are white space. *)
Fixpoint no_space_run (s : string) : bool :=
  match s with
  | EmptyString => true
  | String a s' => no_pair a s' && no_space_run s'
  end.

(** *** Rows and teams *)

(** The team is the one [process_teams] makes of the row; its location
    apart. *)
Definition team_from (row : TeamRow.t) (t : Team.t) : Prop :=
  Team.name t = row_team row /\
  Team.name t <> "" /\
  Team.city t
  = clean_city_field (row_team row) (strip (str_or (TeamRow.City row) "")) /\
  Team.state t = strip (str_or (TeamRow.State row) "WA") /\
  Team.zip t = strip (str_or (TeamRow.Zip row) "") /\
  (Team.zip t <> "" \/ Team.city t <> "").

(** * Properties *)

(** ** The helpers on sample inputs *)

Example clean_city_field_duplicated :
  clean_city_field "Anacortes Composite" "Anacortes Composite  Anacortes"
  = "Anacortes" /\
  clean_city_field "Bellingham" "bellingham" = "bellingham" /\
  clean_city_field "Rowdy Riders" "Port  Angeles" = "Port Angeles".
Proof. repeat split; reflexivity. Qed.

Example geocode_full_query_samples :
  geocode_full_query "98101" "WA" = "98101, WA, USA" /\
  geocode_full_query "Ephrata, WA" "WA" = "Ephrata, WA" /\
  geocode_full_query "Squilchuck State Park, Wenatchee" "WA"
  = "Squilchuck State Park, Wenatchee, WA, USA".
Proof. repeat split; reflexivity. Qed.

Example parse_mm_dd_samples :
  parse_mm_dd "4/13" = Ok (4, 13)%Z /\
  parse_mm_dd " 10 / 05" = Ok (10, 5)%Z /\
  parse_mm_dd "4-13" = Raise ValueError /\
  parse_mm_dd "4/" = Raise ValueError.
Proof. repeat split; reflexivity. Qed.

Example int_samples :
  int " 10 " = Ok 10%Z /\ int "-05" = Ok (-5)%Z /\ int "1_0" = Ok 10%Z /\
  int (String (ascii_of_nat 9) "5") = Ok 5%Z /\
  int (String (ascii_of_nat 28) "5") = Raise ValueError /\
  int "+ 5" = Raise ValueError /\ int "5_" = Raise ValueError /\
  int "" = Raise ValueError /\
  int (String.concat "" (replicate 4300 "0")) = Ok 0%Z /\
  int (String.concat "" (replicate 4301 "0")) = Raise ValueError.
Proof. repeat split; vm_compute; reflexivity. Qed.

Example infer_season_samples :
  map infer_season [1; 3; 6; 7; 9; 11; 12]%Z
  = [Other; Spring; Spring; Other; Fall; Fall; Other].
Proof. reflexivity. Qed.

Example round_samples :
  round 0.25 1 = (1 # 5)%Q /\ round 0.75 1 = (4 # 5)%Q /\
  round (-0.25) 1 = (-1 # 5)%Q /\ round 0.125 2 = (3 # 25)%Q /\
  round 199.96 1 = 200%Q /\ round (0 * 2) 1 = 0%Q.
Proof. repeat split; vm_compute; reflexivity. Qed.

Example format_samples :
  format_6f 47.6062 = "47.606200" /\
  format_6f (-122.3320708) = "-122.332071" /\
  format_6f (-0.0000001) = "-0.000000" /\
  format_02d 4 = "04" /\ format_02d 13 = "13".
Proof. repeat split; vm_compute; reflexivity. Qed.

Example process_races_sample :
  (process_races (found_at 47.3 (-120.4)) two_races_at_squilchuck
     new_calculator).1
  = Ok ([ Venue.mk "Wenatchee, Squilchuck State Park" "Wenatchee"
            "Squilchuck State Park"
            (Geocoded.mk "Squilchuck State Park, Wenatchee"
               "Squilchuck State Park, Wenatchee, WA, USA" 47.3 (-120.4)) ],
        [ Event.mk "2024-04-13_Wenatchee_Squilchuck_State_Park" "2024" 4 13
            Spring "4/13" "Wenatchee, Squilchuck State Park";
          Event.mk "2024-05-04_Wenatchee_Squilchuck_State_Park" "2024" 5 4
            Spring "5/4" "Wenatchee, Squilchuck State Park" ]).
Proof. vm_compute. reflexivity. Qed.

(** ** Dictionaries *)

Section dict_facts.

Context {K V : Type} `{EqDecision K}.
Implicit Types (d : list (K * V)) (k : K) (v : V).

Lemma dict_get_set d k v k' :
  dict_get (dict_set d k v) k' = if decide (k' = k) then Some v else dict_get d k'.
Proof.
  induction d as [|[k0 v0] d IH]; simpl.
  - repeat case_decide; done.
  - destruct (decide (k = k0)) as [->|Hne]; simpl.
    + repeat case_decide; congruence.
    + rewrite IH. repeat case_decide; congruence.
Qed.

Lemma dict_get_update d k default f k' :
  dict_get (dict_update d k default f) k'
  = if decide (k' = k) then Some (f (dict_get_or d k default)) else dict_get d k'.
Proof. unfold dict_update. apply dict_get_set. Qed.

Lemma dict_get_None d k : k ∉ d.*1 -> dict_get d k = None.
Proof.
  induction d as [|[k0 v0] d IH]; simpl; [done|].
  intros Hk. apply not_elem_of_cons in Hk as [Hne Hk].
  rewrite decide_False by done. by apply IH.
Qed.

Lemma dict_get_Some_key d k v : dict_get d k = Some v -> k ∈ d.*1.
Proof.
  induction d as [|[k0 v0] d IH]; simpl; [done|].
  case_decide; [subst; intros _; apply elem_of_cons; by left|].
  intros Hg. apply elem_of_cons. right. by apply IH.
Qed.

Lemma dict_get_Some_elem d k v : dict_get d k = Some v -> (k, v) ∈ d.
Proof.
  induction d as [|[k0 v0] d IH]; simpl; [done|].
  case_decide; [subst; intros [= ->]; apply elem_of_cons; by left|].
  intros Hg. apply elem_of_cons. right. by apply IH.
Qed.

Lemma dict_get_elem d k v : NoDup d.*1 -> (k, v) ∈ d -> dict_get d k = Some v.
Proof.
  induction d as [|[k0 v0] d IH]; simpl; intros Hnd Hin.
  - by apply elem_of_nil in Hin.
  - apply NoDup_cons in Hnd as [Hk0 Hnd].
    apply elem_of_cons in Hin as [[= -> ->]|Hin].
    + by rewrite decide_True.
    + rewrite decide_False; [by apply IH|]. intros ->. apply Hk0.
      apply list_elem_of_fmap. by exists (k0, v).
Qed.

(** Writing a key keeps the keys when it is there and adds it at the end
    when it is not. *)
Lemma dict_set_keys_old d k v : k ∈ d.*1 -> (dict_set d k v).*1 = d.*1.
Proof.
  induction d as [|[k0 v0] d IH]; intros Hin.
  - by apply elem_of_nil in Hin.
  - simpl. destruct (decide (k = k0)) as [->|Hne]; [done|].
    simpl. f_equal. apply IH.
    apply elem_of_cons in Hin as [?|?]; done.
Qed.

Lemma dict_set_keys_new d k v : k ∉ d.*1 -> (dict_set d k v).*1 = d.*1 ++ [k].
Proof.
  induction d as [|[k0 v0] d IH]; intros Hnin; [done|].
  simpl in *. apply not_elem_of_cons in Hnin as [Hne Hnin].
  rewrite decide_False by done. simpl. f_equal. by apply IH.
Qed.

Lemma dict_set_NoDup d k v : NoDup d.*1 -> NoDup (dict_set d k v).*1.
Proof.
  intros Hnd. destruct (decide (k ∈ d.*1)) as [Hin|Hnin].
  - by rewrite dict_set_keys_old.
  - rewrite dict_set_keys_new by done.
    apply NoDup_app. split; [done|]. split; [|apply NoDup_singleton].
    intros x Hx Hx'. apply list_elem_of_singleton in Hx'. by subst.
Qed.

Lemma dict_set_elem_of_keys d k v k' :
  k' ∈ (dict_set d k v).*1 <-> k' ∈ d.*1 \/ k' = k.
Proof.
  destruct (decide (k ∈ d.*1)) as [Hin|Hnin].
  - rewrite dict_set_keys_old by done. split; [by left|].
    intros [?|E]; [done|by subst].
  - rewrite dict_set_keys_new by done. rewrite elem_of_app, list_elem_of_singleton.
    done.
Qed.

(** Writing twice under a key is writing the last value. *)
Lemma dict_set_set d k v v' : dict_set (dict_set d k v) k v' = dict_set d k v'.
Proof.
  induction d as [|[k0 v0] d IH]; simpl.
  - by rewrite decide_True.
  - destruct (decide (k = k0)) as [->|Hne]; simpl.
    + by rewrite decide_True.
    + rewrite decide_False by done. by rewrite IH.
Qed.

(** Writing the value that is there changes nothing. *)
Lemma dict_set_same d k v : dict_get d k = Some v -> dict_set d k v = d.
Proof.
  induction d as [|[k0 v0] d IH]; simpl; [done|].
  destruct (decide (k = k0)) as [->|Hne]; [by intros [= ->]|].
  intros Hg. by rewrite IH.
Qed.

Lemma dict_update_NoDup d k default f :
  NoDup d.*1 -> NoDup (dict_update d k default f).*1.
Proof. apply dict_set_NoDup. Qed.

Lemma dict_get_None_inv d k : dict_get d k = None -> k ∉ d.*1.
Proof.
  induction d as [|[k0 v0] d IH]; simpl; [intros _; apply not_elem_of_nil|].
  case_decide; [discriminate|].
  intros Hg. apply not_elem_of_cons. split; [done|]. by apply IH.
Qed.

Lemma dict_mem_spec d k : dict_mem d k = true <-> k ∈ d.*1.
Proof.
  unfold dict_mem. destruct (dict_get d k) eqn:E.
  - split; [|done]. intros _. by eapply dict_get_Some_key.
  - apply dict_get_None_inv in E. split; [discriminate|done].
Qed.

End dict_facts.

Lemma fold_left_ext {A B : Type} (f g : A -> B -> A) (l : list B) (a : A) :
  (forall a x, f a x = g a x) -> fold_left f l a = fold_left g l a.
Proof.
  intros E. revert a. induction l as [|x l IH]; intros a; simpl; [done|].
  rewrite E. apply IH.
Qed.

Lemma dict_set_Forall {K V : Type} `{EqDecision K} (P : K * V -> Prop)
    (d : list (K * V)) k v :
  Forall P d -> P (k, v) -> Forall P (dict_set d k v).
Proof.
  intros Hd Hkv. induction Hd as [|[k0 v0] d H0 Hd IH]; simpl.
  - by constructor.
  - case_decide; constructor; done.
Qed.

(** A store read by [get] and updated in place by [upd], where a missing
    entry counts as [zero]: a dictionary with [dict_update], or a
    dictionary of dictionaries with [update2]. *)
Section store.

Context {S K V : Type} `{EqDecision K}.
Variable get : S -> K -> option V.
Variable upd : S -> K -> (V -> V) -> S.
Variable zero : V.
Hypothesis get_upd : forall s k g k',
  get (upd s k g) k'
  = if decide (k' = k) then Some (g (default zero (get s k))) else get s k'.

(** A loop that updates one key once per item. *)
Lemma get_fold_one_key {A : Type} (g : A -> V -> V) (k : K) (xs : list A) :
  forall (s : S) (k' : K),
    get (fold_left (fun s x => upd s k (g x)) xs s) k'
    = if decide (k' = k) then
        match xs with
        | [] => get s k
        | _ => Some (fold_left (fun v x => g x v) xs (default zero (get s k)))
        end
      else get s k'.
Proof.
  induction xs as [|x xs IH]; intros s k'; simpl.
  - case_decide; by subst.
  - rewrite IH. destruct (decide (k' = k)) as [->|Hne].
    + rewrite get_upd, decide_True by done. simpl. by destruct xs.
    + by rewrite get_upd, decide_False.
Qed.

(** A loop over a dictionary of counts with, inside, a loop over items
    that updates the key of the count. *)
Lemma get_fold_counts {K0 A C : Type} `{EqDecision K0} (key : K0 -> K)
    `{!Inj (=) (=) key} (g : K0 -> C -> A -> V -> V) (xs : list A)
    (counts : list (K0 * C)) :
  NoDup counts.*1 ->
  forall (s : S),
    let s' :=
      fold_left
        (fun s '(k0, c) =>
           fold_left (fun s x => upd s (key k0) (g k0 c x)) xs s)
        counts s in
    (forall k0,
       get s' (key k0)
       = match dict_get counts k0, xs with
         | Some c, _ :: _ =>
             Some (fold_left (fun v x => g k0 c x v) xs
                     (default zero (get s (key k0))))
         | _, _ => get s (key k0)
         end) /\
    (forall k', (forall k0, key k0 <> k') -> get s' k' = get s k').
Proof.
  induction counts as [|[k1 c1] counts IH]; intros Hnd s; simpl.
  - split; [intros k0; by destruct xs|done].
  - apply NoDup_cons in Hnd as [Hk1 Hnd].
    destruct (IH Hnd (fold_left (fun s x => upd s (key k1) (g k1 c1 x)) xs s))
      as [IH1 IH2].
    split.
    + intros k0. rewrite IH1. rewrite !get_fold_one_key.
      destruct (decide (k0 = k1)) as [->|Hne].
      * rewrite (dict_get_None counts k1 Hk1). rewrite decide_True by done.
        by destruct xs.
      * rewrite decide_False by (intros E; by apply (inj key) in E).
        done.
    + intros k' Hk'. rewrite IH2 by done. rewrite get_fold_one_key.
      rewrite decide_False; [done|]. intros ->. by apply (Hk' k1).
Qed.

(** A loop that updates, for each item, the key of the item. *)
Lemma get_fold_keyed {A : Type} (key : A -> K) (g : V -> V) (xs : list A) :
  forall (s : S) (k : K),
    get (fold_left (fun s x => upd s (key x) g) xs s) k
    = match filter (fun x => key x = k) xs with
      | [] => get s k
      | ys => Some (Nat.iter (length ys) g (default zero (get s k)))
      end.
Proof.
  induction xs as [|x xs IH]; intros s k; simpl; [done|].
  rewrite IH, get_upd, filter_cons.
  destruct (decide (key x = k)) as [<-|Hne].
  - rewrite decide_True by done. simpl.
    destruct (filter _ xs) as [|y ys]; [done|].
    simpl. f_equal. rewrite <- !Nat.iter_succ_r. done.
  - rewrite decide_False by done. done.
Qed.

End store.

Lemma lookup2_update2 {K1 K2 V : Type} `{EqDecision K1} `{EqDecision K2}
    (zero : V) (d : list (K1 * list (K2 * V))) (k : K1 * K2) (g : V -> V)
    (k' : K1 * K2) :
  lookup2 (update2 zero d k g) k'
  = if decide (k' = k) then Some (g (default zero (lookup2 d k)))
    else lookup2 d k'.
Proof.
  destruct k as [k1 k2], k' as [k1' k2'].
  unfold lookup2, update2. simpl. rewrite dict_get_update.
  destruct (decide (k1' = k1)) as [->|Hne1].
  - rewrite dict_get_update. unfold dict_get_or.
    destruct (decide (k2' = k2)) as [->|Hne2].
    + rewrite decide_True by done.
      destruct (dict_get d k1) as [inner|]; simpl; [|done].
      by destruct (dict_get inner k2).
    + rewrite decide_False by congruence.
      by destruct (dict_get d k1).
  - rewrite decide_False by congruence. done.
Qed.

Lemma lookup2_cons_eq {K1 K2 V : Type} `{EqDecision K1} `{EqDecision K2}
    (d : list (K1 * list (K2 * V))) k1 inner k2 :
  lookup2 ((k1, inner) :: d) (k1, k2) = dict_get inner k2.
Proof. unfold lookup2. simpl. by rewrite decide_True. Qed.

Lemma lookup2_cons_ne {K1 K2 V : Type} `{EqDecision K1} `{EqDecision K2}
    (d : list (K1 * list (K2 * V))) k1 inner k :
  k.1 <> k1 -> lookup2 ((k1, inner) :: d) k = lookup2 d k.
Proof. intros Hne. unfold lookup2. simpl. by rewrite decide_False. Qed.

Lemma lookup2_None {K1 K2 V : Type} `{EqDecision K1} `{EqDecision K2}
    (d : list (K1 * list (K2 * V))) k :
  k.1 ∉ d.*1 -> lookup2 d k = None.
Proof. intros Hk. unfold lookup2. by rewrite dict_get_None. Qed.

Lemma dict_get_update_default {K V : Type} `{EqDecision K}
    (zero : V) (d : list (K * V)) (k : K) (g : V -> V) (k' : K) :
  dict_get (dict_update d k zero g) k'
  = if decide (k' = k) then Some (g (default zero (dict_get d k)))
    else dict_get d k'.
Proof.
  rewrite dict_get_update. unfold dict_get_or. by destruct (dict_get d k).
Qed.

(** ** Dates *)

Lemma parse_mm_dd_ok date_str m d :
  parse_mm_dd date_str = Ok (m, d) <->
  exists a b, split "/"%char date_str = [a; b] /\ int a = Ok m /\ int b = Ok d.
Proof.
  unfold parse_mm_dd. split.
  - destruct (split _ _) as [|a [|b [|? ?]]]; try discriminate.
    destruct (int a) eqn:Ha; try discriminate.
    destruct (int b) eqn:Hb; try discriminate.
    intros [= <- <-]. eauto.
  - intros (a & b & -> & -> & ->). reflexivity.
Qed.

Lemma parse_mm_dd_raises date_str e : parse_mm_dd date_str = Raise e -> e = ValueError.
Proof. destruct e. reflexivity. Qed.

Section Races.

Variable geocode_service : nat -> string -> GeocodeData.

Abbreviation races_from := (process_races_from geocode_service).

(** One iteration of the loop on a row that is skipped. *)
Lemma races_from_skip row rows venues events self :
  has_required_fields row = false ->
  races_from (row :: rows) venues events self
  = races_from rows venues events self.
Proof.
  unfold has_required_fields. intros H. simpl. rewrite H. reflexivity.
Qed.

Lemma races_from_raise row rows venues events self e :
  has_required_fields row = true ->
  parse_mm_dd (row_date row) = Raise e ->
  races_from (row :: rows) venues events self = (Raise e, self).
Proof.
  unfold has_required_fields, row_date. intros H Hp. simpl.
  rewrite H, Hp. reflexivity.
Qed.

Lemma races_from_ok_dates rows : forall venues events self res,
  (races_from rows venues events self).1 = Ok res ->
  forall row, row ∈ rows -> has_required_fields row = true ->
    exists m d, parse_mm_dd (row_date row) = Ok (m, d).
Proof.
  induction rows as [|row rows IH]; intros venues events self res Hres r Hin Hr.
  - inversion Hin.
  - destruct (has_required_fields row) eqn:Hreq.
    + destruct (parse_mm_dd (row_date row)) as [[m d]|e] eqn:Hp.
      * assert (exists venues' events' self',
                 races_from (row :: rows) venues events self
                 = races_from rows venues' events' self') as (v' & e' & s' & E).
        { unfold has_required_fields, row_date in *. simpl.
          rewrite Hreq, Hp. simpl.
          repeat (match goal with
                  | |- context [if ?b then _ else _] => destruct b
                  | |- context [match ?x with _ => _ end] => destruct x
                  end; simpl); eauto. }
        rewrite E in Hres.
        apply elem_of_cons in Hin as [->|Hin]; [eauto|].
        by eapply IH.
      * rewrite (races_from_raise _ _ _ _ _ e Hreq Hp) in Hres. discriminate.
    + rewrite races_from_skip in Hres by done.
      apply elem_of_cons in Hin as [->|Hin]; [congruence|].
      by eapply IH.
Qed.

Lemma races_from_abort rows : forall venues events self row,
  row ∈ rows -> has_required_fields row = true ->
  (forall m d, parse_mm_dd (row_date row) <> Ok (m, d)) ->
  (races_from rows venues events self).1 = Raise ValueError.
Proof.
  intros venues events self row Hin Hreq Hbad.
  destruct (races_from rows venues events self).1 as [res|[]] eqn:Hres; [|done].
  exfalso.
  destruct (races_from_ok_dates rows venues events self res Hres row Hin Hreq)
    as (m & d & Hmd).
  by apply (Hbad m d).
Qed.

End Races.

Lemma process_races_ok_iff geocode_service rows self :
  (exists res, (process_races geocode_service rows self).1 = Ok res) <->
  (exists res, (process_races_from geocode_service rows [] [] self).1 = Ok res).
Proof.
  unfold process_races.
  destruct (process_races_from geocode_service rows [] [] self)
    as [[[vs evs]|e] self']; simpl; split; intros [res H]; eauto; discriminate.
Qed.

(** C10.  Date parsing is partial.  When [process_races] returns, every
    row that carries its four fields has a date made of two parts around
    one slash, each an integer for [int].  A row that carries the four
    fields and a date of any other form makes [parse_mm_dd] raise
    [ValueError], and then the call does not return, whatever the other
    rows are: the row is not skipped.  "4/13/2024" and "April 13" are such
    dates, and so is "4/" followed by the separator 28 and "5", which
    [int] does not take for white space. *)
Theorem process_races_date_parsing_partial :
  parse_mm_dd "4/13/2024" = Raise ValueError /\
  parse_mm_dd "April 13" = Raise ValueError /\
  parse_mm_dd ("4/" +:+ String (ascii_of_nat 28) "5") = Raise ValueError /\
  forall (geocode_service : nat -> string -> GeocodeData)
         (rows : list RaceRow.t) (self : Calculator),
    (forall res,
       (process_races geocode_service rows self).1 = Ok res ->
       forall row, row ∈ rows -> has_required_fields row = true ->
         exists a b m d,
           split "/"%char (row_date row) = [a; b] /\
           int a = Ok m /\ int b = Ok d)
    /\
    (forall row, row ∈ rows -> has_required_fields row = true ->
       (forall a b m d,
          split "/"%char (row_date row) = [a; b] ->
          int a = Ok m -> int b = Ok d -> False) ->
       parse_mm_dd (row_date row) = Raise ValueError /\
       forall res, (process_races geocode_service rows self).1 <> Ok res).
Proof.
  split; [reflexivity|]. split; [reflexivity|]. split; [reflexivity|].
  intros gs rows self. split.
  - intros res Hres row Hin Hreq.
    assert (exists res, (process_races gs rows self).1 = Ok res) as Hok by eauto.
    rewrite process_races_ok_iff in Hok. destruct Hok as [res' Hres'].
    destruct (races_from_ok_dates gs rows [] [] self res' Hres' row Hin Hreq)
      as (m & d & Hmd).
    apply parse_mm_dd_ok in Hmd as (a & b & ? & ? & ?). eauto 10.
  - intros row Hin Hreq Hbad.
    assert (forall m d, parse_mm_dd (row_date row) <> Ok (m, d)) as Hno.
    { intros m d Hmd. apply parse_mm_dd_ok in Hmd as (a & b & ? & ? & ?).
      by eapply Hbad. }
    split.
    + destruct (parse_mm_dd (row_date row)) as [[m d]|[]] eqn:Hp; [|done].
      by destruct (Hno m d).
    + intros res Hres.
      pose proof (races_from_abort gs rows [] [] self row Hin Hreq Hno) as Hr.
      unfold process_races in Hres.
      destruct (process_races_from gs rows [] [] self) as [[[vs evs]|e] self'];
        simpl in *; congruence.
Qed.

(** Two rows in order, and a file whose second row has the year in its
    date. *)
Lemma process_races_date_parsing_partial_witness :
  (forall row, row ∈ two_races_at_squilchuck ->
     has_required_fields row = true ->
     exists a b m d,
       split "/"%char (row_date row) = [a; b] /\ int a = Ok m /\ int b = Ok d) /\
  parse_mm_dd (row_date race_dated_with_year) = Raise ValueError /\
  forall res,
    (process_races (found_at 47.3 (-120.4)) races_with_bad_date
       new_calculator).1 <> Ok res.
Proof.
  split.
  - refine (proj1 (proj2 (proj2 (proj2 process_races_date_parsing_partial))
                     (found_at 47.3 (-120.4)) two_races_at_squilchuck
                     new_calculator)
              (venues_of
                 (process_races (found_at 47.3 (-120.4))
                    two_races_at_squilchuck new_calculator).1,
               events_of
                 (process_races (found_at 47.3 (-120.4))
                    two_races_at_squilchuck new_calculator).1) _).
    vm_compute. reflexivity.
  - refine (proj2 (proj2 (proj2 (proj2 process_races_date_parsing_partial))
                     (found_at 47.3 (-120.4)) races_with_bad_date
                     new_calculator)
              race_dated_with_year _ _ _).
    + apply elem_of_cons. right. apply elem_of_cons. by left.
    + reflexivity.
    + intros a b m d H. vm_compute in H. discriminate.
Defined.

(** ** Venue names *)

(** C9.  The placeholder is resolved by the first override whose key
    occurs in the city: Winthrop gives Liberty Bell High School, Ephrata
    gives "Ephrata, WA", and for any city the three overrides are tried in
    the order Spokane, Winthrop, Ephrata before the generic default. *)
Theorem standardize_venue_name_local_override :
  standardize_venue_name "Winthrop" "(local venue)" = "Liberty Bell High School" /\
  standardize_venue_name "Ephrata" "(local venue)" = "Ephrata, WA" /\
  forall city : string,
    standardize_venue_name city "(local venue)" =
    if contains "spokane" (lower city) then "Riverside State Park"
    else if contains "winthrop" (lower city) then "Liberty Bell High School"
    else if contains "ephrata" (lower city) then "Ephrata, WA"
    else "Riverside State Park".
Proof.
  split; [reflexivity|]. split; [reflexivity|].
  intros city. unfold standardize_venue_name. cbn -[contains lower].
  change (lower "Spokane") with "spokane".
  change (lower "Winthrop") with "winthrop".
  change (lower "Ephrata") with "ephrata".
  repeat (destruct (contains _ (lower city)); [reflexivity|]).
  reflexivity.
Qed.

(** ** Geocoding *)

Lemma in_bounds_spec lat lng :
  in_bounds lat lng = true <->
  (45 <= lat /\ lat <= 49.5 /\ -125 <= lng /\ lng <= -116)%Q.
Proof.
  unfold in_bounds, LAT_MIN, LAT_MAX, LNG_MIN, LNG_MAX.
  rewrite !andb_true_iff, !Qle_bool_iff.
  unfold Qle; simpl. lia.
Qed.

Lemma geocode_location_hit geocode_service query force_state self cached :
  geocode_cache self !! geocode_cache_key query force_state = Some cached ->
  geocode_location geocode_service query force_state self = (cached, self).
Proof. unfold geocode_location. intros ->. reflexivity. Qed.

(** C6.  On a cache miss a geocoding answer is accepted only with status
    OK and a first result inside the box 45..49.5 by -125..-116; an answer
    outside the box ends exactly like a failed one: [None] is returned and
    stored under the key of the call, and the same call repeated returns
    [None] from the cache, sending nothing. *)
Theorem geocode_location_validation
    (geocode_service : nat -> string -> GeocodeData)
    (query force_state : string) (self : Calculator) :
  geocode_cache self !! geocode_cache_key query force_state = None ->
  let address := geocode_full_query query force_state in
  let data := geocode_service (length (requests self)) address in
  let rejected :=
    cache_geocode (geocode_cache_key query force_state) None
      (sent (GeocodeRequest query force_state address data) self) in
  (forall g self',
     geocode_location geocode_service query force_state self = (Some g, self') ->
     geocode_status data = "OK" /\
     exists res rest,
       geocode_results data = res :: rest /\
       (45 <= result_lat res /\ result_lat res <= 49.5 /\
        -125 <= result_lng res /\ result_lng res <= -116)%Q /\
       g = Geocoded.mk query (result_formatted_address res)
             (result_lat res) (result_lng res)) /\
  ((geocode_status data <> "OK" \/ geocode_results data = [] \/
    exists res rest,
      geocode_results data = res :: rest /\
      ~ (45 <= result_lat res /\ result_lat res <= 49.5 /\
         -125 <= result_lng res /\ result_lng res <= -116)%Q) ->
   geocode_location geocode_service query force_state self = (None, rejected)) /\
  geocode_cache rejected !! geocode_cache_key query force_state = Some None /\
  requests rejected = requests self ++ [GeocodeRequest query force_state address data] /\
  geocode_location geocode_service query force_state rejected = (None, rejected).
Proof.
  intros Hmiss address data rejected.
  assert (geocode_cache rejected !! geocode_cache_key query force_state = Some None)
    as Hcached by apply lookup_insert_eq.
  split; [|split; [|split; [exact Hcached|split; [reflexivity|]]]].
  - intros g self'. unfold geocode_location. rewrite Hmiss.
    fold address. fold data.
    destruct (geocode_results data) as [|res rest]; [discriminate|].
    destruct (String.eqb (geocode_status data) "OK") eqn:Hst; [|discriminate].
    destruct (in_bounds _ _) eqn:Hb; [|discriminate].
    intros [= <- <-]. apply String.eqb_eq in Hst. apply in_bounds_spec in Hb.
    split; [done|]. exists res, rest. done.
  - intros Hfail. unfold geocode_location. rewrite Hmiss.
    fold address. fold data.
    destruct (geocode_results data) as [|res rest]; [reflexivity|].
    destruct (String.eqb (geocode_status data) "OK") eqn:Hst; [|reflexivity].
    destruct (in_bounds _ _) eqn:Hb; [|reflexivity].
    apply String.eqb_eq in Hst. apply in_bounds_spec in Hb.
    destruct Hfail as [Hne|[Hnil|(res' & rest' & [= <- <-] & Hout)]]; done.
  - by apply geocode_location_hit.
Qed.

(** An answer outside the box: Springfield placed in Illinois. *)
Lemma geocode_location_validation_witness :
  geocode_cache new_calculator !! geocode_cache_key "Springfield" "WA" = None /\
  geocode_location (found_at 39.8 (-89.6)) "Springfield" "WA" new_calculator
  = (None,
     cache_geocode (geocode_cache_key "Springfield" "WA") None
       (sent (GeocodeRequest "Springfield" "WA" "Springfield, WA, USA"
                (found_at 39.8 (-89.6) 0 "Springfield, WA, USA"))
          new_calculator)).
Proof.
  split; [reflexivity|].
  refine (proj1 (proj2 (geocode_location_validation (found_at 39.8 (-89.6))
                          "Springfield" "WA" new_calculator eq_refl)) _).
  right; right. eexists _, _. split; [reflexivity|].
  intros (_ & _ & _ & H). revert H. unfold Qle; simpl. lia.
Defined.

(** ** Teams *)

Section Teams.

Variable geocode_service : nat -> string -> GeocodeData.

(** A row leaves the list as it is or adds one team at its end, named
    after the row. *)
Lemma process_team_row_appends row teams self :
  exists new,
    (process_team_row geocode_service row teams self).1 = teams ++ new /\
    (new = [] \/
     exists t, new = [t] /\ Team.name t = row_team row /\ row_team row <> "").
Proof.
  unfold process_team_row. fold (row_team row).
  destruct (nonempty (row_team row)) eqn:Hne; simpl.
  2: { exists []. rewrite app_nil_r. auto. }
  assert (row_team row <> "") as Hname.
  { intros E. rewrite E in Hne. discriminate. }
  repeat match goal with
         | |- context [let '(_, _) := ?x in _] => destruct x as [[?|] ?]; simpl
         | |- context [if ?b then _ else _] => destruct b; simpl
         end;
    first [ by (exists []; rewrite app_nil_r; auto)
          | eexists [_]; split; [reflexivity|right; eexists; eauto] ].
Qed.

Lemma process_teams_from_names rows : forall teams self,
  exists new,
    (process_teams_from geocode_service rows teams self).1 = teams ++ new /\
    map Team.name new `sublist_of` filter (fun n => n <> "") (map row_team rows).
Proof.
  induction rows as [|row rows IH]; intros teams self; simpl.
  - exists []. rewrite app_nil_r. split; [done|]. constructor.
  - destruct (process_team_row_appends row teams self) as (new & Hrow & Hnew).
    destruct (process_team_row geocode_service row teams self) as [teams1 self1].
    simpl in Hrow. subst teams1.
    destruct (IH (teams ++ new) self1) as (new' & -> & Hsub).
    exists (new ++ new'). rewrite app_assoc. split; [done|].
    rewrite map_app.
    destruct Hnew as [->|(t & -> & Hname & Hne)]; simpl.
    + rewrite filter_cons. case_decide; [by apply sublist_cons|done].
    + rewrite filter_cons, decide_True by done. rewrite Hname.
      by apply sublist_skip.
Qed.

End Teams.

(** C8, as the code has it.  The names of the teams returned are names of
    input rows (trimmed, not empty), in row order, one entry for each row
    kept; they are pairwise distinct whenever the non-empty trimmed names
    of the input rows are.  Nothing in [process_teams] merges or rejects a
    repeated name. *)
Theorem process_teams_names
    (geocode_service : nat -> string -> GeocodeData)
    (rows : list TeamRow.t) (self : Calculator) :
  map Team.name (process_teams geocode_service rows self).1
    `sublist_of` filter (fun n => n <> "") (map row_team rows) /\
  (NoDup (filter (fun n => n <> "") (map row_team rows)) ->
   NoDup (map Team.name (process_teams geocode_service rows self).1)).
Proof.
  unfold process_teams.
  destruct (process_teams_from_names geocode_service rows [] self)
    as (new & -> & Hsub).
  simpl. split; [done|]. intros Hnd. by eapply sublist_NoDup.
Qed.

(** Two rows of the teams file with one team name and two zip codes:
    both are kept, and the name stands twice in the list. *)
Lemma process_teams_keeps_repeated_name :
  map Team.name
    (process_teams (found_at 47.6 (-122.3))
       [team_row "Cyclones" "Seattle" "WA" "98101";
        team_row "Cyclones" "Seattle" "WA" "98102"] new_calculator).1
  = ["Cyclones"; "Cyclones"] /\
  ~ NoDup
      (map Team.name
         (process_teams (found_at 47.6 (-122.3))
            [team_row "Cyclones" "Seattle" "WA" "98101";
             team_row "Cyclones" "Seattle" "WA" "98102"] new_calculator).1).
Proof.
  assert (map Team.name
            (process_teams (found_at 47.6 (-122.3))
               [team_row "Cyclones" "Seattle" "WA" "98101";
                team_row "Cyclones" "Seattle" "WA" "98102"] new_calculator).1
          = ["Cyclones"; "Cyclones"]) as E by (vm_compute; reflexivity).
  split; [exact E|]. rewrite E. intros H.
  apply NoDup_cons in H as [H _]. apply H. apply elem_of_cons. by left.
Qed.

(** ** Rounding *)

Lemma pow10_pos n : (0 < pow10 n)%Q.
Proof.
  unfold pow10. change 0%Q with (inject_Z 0). rewrite <- Zlt_Qlt.
  apply Z.pow_pos_nonneg; lia.
Qed.

Lemma round_half_even_comp x y : (x == y)%Q -> round_half_even x = round_half_even y.
Proof.
  intros E. unfold round_half_even.
  rewrite (Qfloor_comp _ _ E).
  assert (Qcompare (x - inject_Z (Qfloor y)) (1 # 2)
          = Qcompare (y - inject_Z (Qfloor y)) (1 # 2)) as ->; [|done].
  apply Qcompare_comp; [by rewrite E|reflexivity].
Qed.

(** [round] does not see how its argument is written as a fraction. *)
Lemma round_comp x y n : (x == y)%Q -> round x n = round y n.
Proof.
  intros E. unfold round. apply Qred_complete.
  rewrite (round_half_even_comp (x * pow10 n) (y * pow10 n)); [reflexivity|].
  by rewrite E.
Qed.

Lemma round_half_even_error x :
  (Qabs (inject_Z (round_half_even x) - x) <= 1 # 2)%Q.
Proof.
  unfold round_half_even.
  pose proof (Qfloor_le x) as Hlo. pose proof (Qlt_floor x) as Hhi.
  rewrite inject_Z_plus in Hhi. change (inject_Z 1) with 1%Q in Hhi.
  apply Qabs_Qle_condition.
  destruct (Qcompare _ _) eqn:Hc.
  - apply Qeq_alt in Hc.
    destruct (Z.even _); rewrite ?inject_Z_plus; change (inject_Z 1) with 1%Q;
      split; lra.
  - apply Qlt_alt in Hc. split; lra.
  - apply Qgt_alt in Hc. rewrite inject_Z_plus. change (inject_Z 1) with 1%Q.
    split; lra.
Qed.

(** A rounded value is within half a unit of the last decimal kept. *)
Lemma round_error x n : (Qabs (round x n - x) <= (1 # 2) / pow10 n)%Q.
Proof.
  unfold round. rewrite Qred_correct.
  pose proof (pow10_pos n) as Hp.
  pose proof (round_half_even_error (x * pow10 n)) as He.
  set (k := inject_Z (round_half_even (x * pow10 n))) in *.
  apply Qabs_Qle_condition in He as [He1 He2].
  apply Qabs_Qle_condition.
  assert (k / pow10 n - x == (k - x * pow10 n) / pow10 n)%Q as ->
      by (field; lra).
  split.
  - apply Qle_shift_div_l; [done|].
    assert (- ((1 # 2) / pow10 n) * pow10 n == - (1 # 2))%Q as -> by (field; lra).
    done.
  - apply Qle_shift_div_r; [done|].
    assert ((1 # 2) / pow10 n * pow10 n == 1 # 2)%Q as -> by (field; lra).
    done.
Qed.

(** ** Per-team totals *)

Lemma add_event_venues td1 td2 acc e :
  venues td1 = venues td2 -> add_event td1 acc e = add_event td2 acc e.
Proof.
  intros E. unfold add_event, trip_to. rewrite E. reflexivity.
Qed.

Lemma raw_team_totals_venues events td1 td2 :
  venues td1 = venues td2 -> raw_team_totals events td1 = raw_team_totals events td2.
Proof.
  intros E. unfold raw_team_totals.
  generalize (0%Q, 0%Q, zero_season_totals).
  induction events as [|e events IH]; intros acc; simpl; [done|].
  rewrite (add_event_venues td1 td2 acc e E). apply IH.
Qed.

(** What is written into a team's record depends on its round trips
    only, not on the totals found there. *)
Lemma team_totals_venues events td1 td2 :
  venues td1 = venues td2 -> team_totals events td1 = team_totals events td2.
Proof.
  intros E. unfold team_totals.
  rewrite (raw_team_totals_venues events td1 td2 E), E. reflexivity.
Qed.

Lemma team_totals_keeps_venues events tdata :
  venues (team_totals events tdata) = venues tdata.
Proof.
  unfold team_totals. destruct (raw_team_totals events tdata) as [[? ?] ?].
  reflexivity.
Qed.

Lemma map_team_totals_entries events d1 : forall d2,
  pair_entries d1 = pair_entries d2 ->
  map (fun '(team, tdata) => (team, team_totals events tdata)) d1
  = map (fun '(team, tdata) => (team, team_totals events tdata)) d2.
Proof.
  induction d1 as [|[n1 t1] d1 IH]; intros [|[n2 t2] d2] E; simpl in *;
    try discriminate; [done|].
  injection E as -> Ev Erest.
  rewrite (team_totals_venues events t1 t2 Ev), (IH d2 Erest). reflexivity.
Qed.

Lemma pair_entries_team_totals events d :
  pair_entries (map (fun '(team, tdata) => (team, team_totals events tdata)) d)
  = pair_entries d.
Proof.
  induction d as [|[n t] d IH]; simpl; [done|].
  rewrite team_totals_keeps_venues, IH. reflexivity.
Qed.

(** The running sums of [add_event]: the three seasons add up to the
    total, for miles and for hours. *)
Lemma add_event_seasons tdata acc e :
  (season_sum miles acc.2 == acc.1.1)%Q /\ (season_sum hours acc.2 == acc.1.2)%Q ->
  (season_sum miles (add_event tdata acc e).2 == (add_event tdata acc e).1.1)%Q /\
  (season_sum hours (add_event tdata acc e).2 == (add_event tdata acc e).1.2)%Q.
Proof.
  destruct acc as [[tm th] st]. unfold add_event, season_sum. simpl.
  intros [Hm Hh]. destruct (Event.season e); simpl; split; lra.
Qed.

Lemma raw_team_totals_seasons events tdata :
  (season_sum miles (raw_team_totals events tdata).2
   == (raw_team_totals events tdata).1.1)%Q /\
  (season_sum hours (raw_team_totals events tdata).2
   == (raw_team_totals events tdata).1.2)%Q.
Proof.
  unfold raw_team_totals.
  assert ((season_sum miles (0%Q, 0%Q, zero_season_totals).2
           == (0%Q, 0%Q, zero_season_totals).1.1)%Q /\
          (season_sum hours (0%Q, 0%Q, zero_season_totals).2
           == (0%Q, 0%Q, zero_season_totals).1.2)%Q) as H0
      by (split; reflexivity).
  revert H0. generalize (0%Q, 0%Q, zero_season_totals).
  induction events as [|e events IH]; intros acc Hacc; simpl; [done|].
  apply IH. by apply add_event_seasons.
Qed.

(** Four roundings, each off by at most [half], move the identity
    [a + b + c = t] by at most four times [half]. *)
Lemma four_roundings (a b c t a' b' c' t' half : Q) :
  (a + b + c == t)%Q ->
  (Qabs (a' - a) <= half)%Q -> (Qabs (b' - b) <= half)%Q ->
  (Qabs (c' - c) <= half)%Q -> (Qabs (t' - t) <= half)%Q ->
  (Qabs (a' + b' + c' - t') <= 4 * half)%Q.
Proof.
  intros E Ha Hb Hc Ht.
  apply Qabs_Qle_condition in Ha as [? ?]. apply Qabs_Qle_condition in Hb as [? ?].
  apply Qabs_Qle_condition in Hc as [? ?]. apply Qabs_Qle_condition in Ht as [? ?].
  apply Qabs_Qle_condition. split; lra.
Qed.

(** C4.  After aggregation every team's record holds the rounded sums of
    the loop over the events; before rounding the three season sums add up
    to the overall sum exactly (each event adds its round trip to the total
    and to the one season it falls in), so after the four roundings the
    season totals add up to the overall total within 0.2 miles (four times
    half a tenth) and within 0.02 hours. *)
Theorem team_season_totals_add_up
    (distances : list (string * TeamDistances)) (events : list Event.t) :
  (derive_aggregates distances events).2
  = map (fun '(team, tdata) => (team, team_totals events tdata)) distances /\
  forall tdata : TeamDistances,
    let raw := raw_team_totals events tdata in
    let after := team_totals events tdata in
    (season_sum miles raw.2 == raw.1.1)%Q /\
    (season_sum hours raw.2 == raw.1.2)%Q /\
    total_miles_events after = round raw.1.1 1 /\
    total_hours_events after = round raw.1.2 2 /\
    (forall s, get_season (season_totals after) s = round_trip (get_season raw.2 s)) /\
    (Qabs (season_sum miles (season_totals after) - total_miles_events after)
     <= 0.2)%Q /\
    (Qabs (season_sum hours (season_totals after) - total_hours_events after)
     <= 0.02)%Q.
Proof.
  split; [reflexivity|].
  intros tdata raw after.
  destruct (raw_team_totals_seasons events tdata) as [Hm Hh].
  fold raw in Hm, Hh.
  subst after. unfold team_totals. fold raw.
  destruct raw as [[tm th] st]. simpl in *.
  split; [done|]. split; [done|]. split; [done|]. split; [done|].
  split; [by intros []|].
  unfold season_sum in *. simpl. split.
  - assert (0.2 == 4 * ((1 # 2) / pow10 1))%Q as -> by reflexivity.
    eapply four_roundings; [exact Hm|apply round_error..].
  - assert (0.02 == 4 * ((1 # 2) / pow10 2))%Q as -> by reflexivity.
    eapply four_roundings; [exact Hh|apply round_error..].
Qed.

(** ** What [derive_aggregates] reads and writes *)

(** C7, as the code has it.  [derive_aggregates] writes into the object
    it is given: each team's record gets its totals and season totals
    overwritten.  The round trips per team and venue, and the teams with
    their order, are left as they were, and both the aggregates returned
    and the records written are a function of those round trips and of the
    events alone, so that a second call changes nothing more. *)
Theorem derive_aggregates_frame
    (distances : list (string * TeamDistances)) (events : list Event.t) :
  (derive_aggregates distances events).2
  = map (fun '(team, tdata) => (team, team_totals events tdata)) distances /\
  pair_entries (derive_aggregates distances events).2 = pair_entries distances /\
  (forall distances' : list (string * TeamDistances),
     pair_entries distances' = pair_entries distances ->
     derive_aggregates distances' events = derive_aggregates distances events) /\
  derive_aggregates (derive_aggregates distances events).2 events
  = derive_aggregates distances events.
Proof.
  assert (forall d1 d2, pair_entries d1 = pair_entries d2 ->
            derive_aggregates d1 events = derive_aggregates d2 events) as Hdep.
  { intros d1 d2 E. unfold derive_aggregates.
    rewrite (map_team_totals_entries events d1 d2 E). reflexivity. }
  split; [reflexivity|]. split; [apply pair_entries_team_totals|].
  split; [intros d' E; by apply Hdep|].
  apply Hdep. apply pair_entries_team_totals.
Qed.

(** One team 40 miles from a venue with one event: the record comes in
    with a total of 0 and goes out with a total of 40. *)
Lemma derive_aggregates_writes_totals :
  map (fun x => total_miles_events x.2) one_team_one_venue = [0%Q] /\
  map (fun x => total_miles_events x.2)
    (derive_aggregates one_team_one_venue
       [spring_event "Wenatchee, Squilchuck State Park"]).2 = [40%Q] /\
  (derive_aggregates one_team_one_venue
     [spring_event "Wenatchee, Squilchuck State Park"]).2 <> one_team_one_venue.
Proof.
  split; [reflexivity|]. split; [vm_compute; reflexivity|].
  intros E.
  apply (f_equal (map (fun x => Qnum (total_miles_events x.2)))) in E.
  vm_compute in E. discriminate.
Qed.

(** ** Venue totals *)

Lemma iter_S n : Nat.iter n S 0 = n.
Proof. induction n as [|n IH]; simpl; congruence. Qed.

Lemma count_venues_get events v :
  dict_get (count_venues events) v
  = match events_at events v with 0 => None | n => Some n end.
Proof.
  unfold count_venues, events_at.
  rewrite (get_fold_keyed dict_get (fun d k g => dict_update d k 0 g) 0
             (fun d k g k' => dict_get_update_default 0 d k g k')
             Event.location_key S events [] v).
  destruct (filter _ events) as [|e es]; [done|].
  by rewrite iter_S.
Qed.

Lemma count_venues_NoDup events : NoDup (count_venues events).*1.
Proof.
  unfold count_venues.
  assert (NoDup (@nil (string * nat)).*1) as H0 by constructor.
  revert H0. generalize (@nil (string * nat)).
  induction events as [|e events IH]; intros d Hd; simpl; [done|].
  apply IH. by apply dict_update_NoDup.
Qed.

Lemma season_events_at_pair events s v :
  season_events_at events s v
  = length (filter (fun e => (Event.season e, Event.location_key e) = (s, v)) events).
Proof.
  unfold season_events_at.
  induction events as [|e events IH]; [done|].
  rewrite !filter_cons.
  destruct (decide (Event.season e = s /\ Event.location_key e = v)) as [[<- <-]|Hn].
  - rewrite decide_True by done. simpl. by rewrite IH.
  - rewrite decide_False; [done|]. intros [= ? ?]. by apply Hn.
Qed.

Lemma count_venues_by_season_get events s v :
  lookup2 (count_venues_by_season events) (s, v)
  = match season_events_at events s v with 0 => None | n => Some n end.
Proof.
  rewrite season_events_at_pair. unfold count_venues_by_season.
  change (fold_left _ events [])
    with (fold_left
            (fun d e => update2 0 d (Event.season e, Event.location_key e) S)
            events []).
  rewrite (get_fold_keyed lookup2 (update2 0) 0 (lookup2_update2 0)
             (fun e => (Event.season e, Event.location_key e)) S events [] (s, v)).
  destruct (filter _ events) as [|e es]; [done|].
  by rewrite iter_S.
Qed.

Lemma update2_keys_distinct {K1 K2 V : Type} `{EqDecision K1} `{EqDecision K2}
    (zero : V) (d : list (K1 * list (K2 * V))) k g :
  keys_distinct2 d -> keys_distinct2 (update2 zero d k g).
Proof.
  intros [Hout Hin]. split; [by apply dict_update_NoDup|].
  apply dict_set_Forall; [done|]. simpl.
  apply dict_update_NoDup. unfold dict_get_or.
  destruct (dict_get d k.1) as [inner|] eqn:E; [|constructor].
  apply dict_get_Some_elem in E.
  rewrite Forall_forall in Hin. by apply (Hin _ E).
Qed.

Lemma count_venues_by_season_distinct events :
  keys_distinct2 (count_venues_by_season events).
Proof.
  unfold count_venues_by_season.
  assert (keys_distinct2 (@nil (Season * list (string * nat)))) as H0
      by (split; constructor).
  revert H0. generalize (@nil (Season * list (string * nat))).
  induction events as [|e events IH]; intros d Hd; simpl; [done|].
  apply IH.
  by apply (update2_keys_distinct 0 d (Event.season e, Event.location_key e) S).
Qed.

(** The accumulation over the teams, started from [a], is [a] plus the
    sum over the teams times the count. *)
Lemma fold_teams_sum field (ds : list (string * TeamDistances)) v c : forall a,
  (fold_left
     (fun x (td : string * TeamDistances) =>
        x + field (trip_to td.2 v) * count_to_Q c) ds a
   == a + team_sum field ds v * count_to_Q c)%Q.
Proof.
  induction ds as [|[n td] ds IH]; intros a; simpl.
  - lra.
  - rewrite IH. simpl. lra.
Qed.

Section venue_totals.

Variable field : RoundTrip -> Q.
Variable ds : list (string * TeamDistances).

Abbreviation term := (venue_term field).

Lemma venue_totals_get counts v :
  NoDup counts.*1 ->
  dict_get (venue_totals field ds counts []) v
  = match dict_get counts v, ds with
    | Some c, _ :: _ => Some (fold_left (fun x td => term v c td x) ds 0%Q)
    | _, _ => None
    end.
Proof.
  intros Hnd.
  assert (venue_totals field ds counts []
          = fold_left
              (fun s '(k0, c) =>
                 fold_left
                   (fun s x => dict_update s (id k0) 0%Q (term k0 c x)) ds s)
              counts []) as ->.
  { unfold venue_totals. apply fold_left_ext. intros a [k c].
    unfold add_venue_total. apply fold_left_ext. by intros a' [team td]. }
  destruct (get_fold_counts dict_get (fun d k g => dict_update d k 0%Q g) 0%Q
              (fun d k g k' => dict_get_update_default 0%Q d k g k')
              id term ds counts Hnd []) as [H _].
  apply (H v).
Qed.

Lemma venue_totals_by_season_get by_season : forall k,
  keys_distinct2 by_season ->
  lookup2 (venue_totals_by_season field ds by_season) k
  = match lookup2 by_season k, ds with
    | Some c, _ :: _ => Some (fold_left (fun x td => term k.2 c td x) ds 0%Q)
    | _, _ => None
    end.
Proof.
  unfold venue_totals_by_season.
  assert (forall acc k, keys_distinct2 by_season ->
    lookup2
      (fold_left
         (fun acc '(season, counts) =>
            fold_left
              (fun acc '(vkey, count) =>
                 fold_left
                   (fun acc '(team, tdata) =>
                      dict_update acc season []
                        (fun totals =>
                           dict_update totals vkey 0%Q
                             (fun x =>
                                (x + field (trip_to tdata vkey) * count_to_Q count)%Q)))
                   ds acc)
              counts acc)
         by_season acc) k
    = match lookup2 by_season k, ds with
      | Some c, _ :: _ =>
          Some (fold_left (fun x td => term k.2 c td x) ds
                  (default 0%Q (lookup2 acc k)))
      | _, _ => lookup2 acc k
      end) as Hgen.
  2: { intros k Hk. rewrite (Hgen [] k Hk). unfold lookup2 at 3. simpl.
       destruct (lookup2 by_season k); [|done]. by destruct ds. }
  induction by_season as [|[s1 counts1] rest IH]; intros acc [s v] [Hout Hin].
  - simpl. by destruct ds.
  - apply NoDup_cons in Hout as [Hs1 Hout].
    apply Forall_cons in Hin as [Hc1 Hin]. simpl in Hc1.
    cbn [fold_left].
    set (acc1 := fold_left _ counts1 acc).
    rewrite (IH acc1 (s, v) (conj Hout Hin)).
    assert (acc1
            = fold_left
                (fun s '(k0, c) =>
                   fold_left
                     (fun s x => update2 0%Q s (pair s1 k0) (term k0 c x)) ds s)
                counts1 acc) as Hacc1.
    { subst acc1. apply fold_left_ext. intros a [k c].
      apply fold_left_ext. by intros a' [team td]. }
    destruct (get_fold_counts lookup2 (update2 0%Q) 0%Q (lookup2_update2 0%Q)
                (pair s1) term ds counts1 Hc1 acc) as [H1 H2].
    rewrite <- Hacc1 in H1, H2.
    destruct (decide (s = s1)) as [->|Hne].
    + rewrite (lookup2_None rest (s1, v)) by done.
      rewrite lookup2_cons_eq. apply (H1 v).
    + assert (lookup2 acc1 (s, v) = lookup2 acc (s, v)) as ->.
      { apply H2. intros k0 [= ? ?]. by apply Hne. }
      by rewrite lookup2_cons_ne.
Qed.

End venue_totals.

Lemma dict_get_round_values {K : Type} `{EqDecision K} n (d : list (K * Q)) k :
  dict_get (round_values n d) k = (fun x => round x n) <$> dict_get d k.
Proof.
  induction d as [|[k0 v0] d IH]; simpl; [done|]. by case_decide.
Qed.

Lemma lookup2_round_values {K1 K2 : Type} `{EqDecision K1} `{EqDecision K2} n
    (d : list (K1 * list (K2 * Q))) k :
  lookup2 (map (fun '(s, inner) => (s, round_values n inner)) d) k
  = (fun x => round x n) <$> lookup2 d k.
Proof.
  unfold lookup2. induction d as [|[k0 v0] d IH]; simpl; [done|].
  case_decide; [apply dict_get_round_values|apply IH].
Qed.

Lemma team_sum_team_totals field events ds v :
  team_sum field
    (map (fun '(team, tdata) => (team, team_totals events tdata)) ds) v
  = team_sum field ds v.
Proof.
  induction ds as [|[n td] ds IH]; simpl; [done|].
  rewrite IH. unfold trip_to. by rewrite team_totals_keeps_venues.
Qed.

Lemma round_fold_teams field n ds v c :
  round
    (fold_left
       (fun x (td : string * TeamDistances) =>
          (x + field (trip_to td.2 v) * count_to_Q c)%Q) ds 0%Q) n
  = round (team_sum field ds v * count_to_Q c) n.
Proof. apply round_comp. rewrite fold_teams_sum. lra. Qed.

(** The totals of one field, overall and by season, as
    [derive_aggregates] computes them from the records it has written. *)
Lemma venue_totals_weighted field n distances events v :
  let ds := map (fun '(team, tdata) => (team, team_totals events tdata)) distances in
  dict_get (round_values n (venue_totals field ds (count_venues events) [])) v
  = weighted_total field n distances (events_at events v) v /\
  forall s,
    lookup2
      (map (fun '(s, d) => (s, round_values n d))
         (venue_totals_by_season field ds (count_venues_by_season events)))
      (s, v)
    = weighted_total field n distances (season_events_at events s v) v.
Proof.
  intros ds. split.
  - rewrite dict_get_round_values, venue_totals_get by apply count_venues_NoDup.
    rewrite count_venues_get. unfold weighted_total.
    destruct (events_at events v) as [|c]; [done|].
    subst ds. destruct distances as [|[t td] distances]; [done|].
    cbn [map fmap option_fmap option_map]. f_equal. unfold venue_term.
    rewrite round_fold_teams.
    by rewrite <- (team_sum_team_totals field events ((t, td) :: distances) v).
  - intros s.
    rewrite lookup2_round_values, venue_totals_by_season_get
      by apply count_venues_by_season_distinct.
    rewrite count_venues_by_season_get. unfold weighted_total.
    destruct (season_events_at events s v) as [|c]; [done|].
    subst ds. destruct distances as [|[t td] distances]; [done|].
    cbn [map fmap option_fmap option_map snd]. f_equal. unfold venue_term.
    rewrite round_fold_teams.
    by rewrite <- (team_sum_team_totals field events ((t, td) :: distances) v).
Qed.

(** Rounding to [n] decimals leaves a number with [n] decimals as it is. *)
Lemma round_has_decimals n x : has_decimals n x -> (round x n == x)%Q.
Proof.
  intros [k Hk]. pose proof (pow10_pos n) as Hp.
  unfold round. rewrite Qred_correct.
  rewrite (round_half_even_comp (x * pow10 n) (inject_Z k)).
  2: { rewrite Hk. field. lra. }
  assert (round_half_even (inject_Z k) = k) as ->; [|by rewrite Hk].
  unfold round_half_even. rewrite Qfloor_Z.
  assert (Qcompare (inject_Z k - inject_Z k) (1 # 2) = Lt) as ->; [|done].
  rewrite <- Qlt_alt. clear. lra.
Qed.












(** ** The distance matrix *)

Lemma distance_cache_key_coordinates o o' d d' :
  coordinates o = coordinates o' -> coordinates d = coordinates d' ->
  distance_cache_key o d = distance_cache_key o' d'.
Proof.
  unfold coordinates, distance_cache_key. intros [= -> ->] [= -> ->]. done.
Qed.

Lemma answered_mono self self' r :
  (forall k x, distance_cache self !! k = Some x ->
               distance_cache self' !! k = Some x) ->
  answered self r -> answered self' r.
Proof.
  intros Hmono. destruct r as [| o d data]; simpl; [done|].
  intros H origin destination Ho Hd. apply Hmono. by apply H.
Qed.

Lemma later_refl self : later self self.
Proof. split; [done|]. exists []. by rewrite app_nil_r. Qed.

Lemma later_trans s1 s2 s3 : later s1 s2 -> later s2 s3 -> later s1 s3.
Proof.
  intros [M1 (n1 & R1 & A1)] [M2 (n2 & R2 & A2)]. split; [by auto|].
  exists (n1 ++ n2). rewrite R2, R1, app_assoc. split; [done|].
  apply Forall_app. split; [|done].
  eapply Forall_impl; [exact A1|]. intros r. by apply answered_mono.
Qed.

Lemma later_sent_between self self' r :
  later self self' -> r ∈ sent_between self self' -> answered self' r.
Proof.
  intros [_ (new & R & A)] Hin. unfold sent_between in Hin.
  rewrite R, drop_app_length in Hin.
  rewrite Forall_forall in A. by apply A.
Qed.

Section Matrix.

Variable matrix_service : nat -> Q * Q -> Q * Q -> MatrixData.

Abbreviation dat := (distance_and_time matrix_service).

Lemma distance_and_time_hit origin destination self cached :
  distance_cache self !! distance_cache_key origin destination = Some cached ->
  dat origin destination self = (cached, self).
Proof. unfold distance_and_time. intros ->. reflexivity. Qed.

(** On a miss one request is sent, and the pair made of its answer is
    returned and stored. *)
Lemma distance_and_time_miss origin destination self :
  distance_cache self !! distance_cache_key origin destination = None ->
  let data :=
    matrix_service (length (requests self)) (coordinates origin)
      (coordinates destination) in
  dat origin destination self
  = (one_way data,
     cache_distance (distance_cache_key origin destination) (one_way data)
       (sent (MatrixRequest (coordinates origin) (coordinates destination) data)
          self)).
Proof.
  intros Hc data. unfold distance_and_time. rewrite Hc. fold data.
  unfold one_way, matrix_ok.
  destruct (String.eqb (matrix_status data) "OK"); simpl; [|done].
  by destruct (String.eqb (element_status (matrix_element data)) "OK").
Qed.

(** The pair returned is in the cache afterwards. *)
Lemma distance_and_time_spec origin destination self :
  distance_cache (dat origin destination self).2
    !! distance_cache_key origin destination
  = Some (dat origin destination self).1 /\
  later self (dat origin destination self).2.
Proof.
  destruct (distance_cache self !! distance_cache_key origin destination)
    as [cached|] eqn:Hc.
  - rewrite (distance_and_time_hit _ _ _ _ Hc). simpl.
    split; [done|apply later_refl].
  - rewrite (distance_and_time_miss _ _ _ Hc). simpl.
    split; [apply lookup_insert_eq|]. split; simpl.
    + intros k x Hk. rewrite lookup_insert_ne; [done|]. intros <-. congruence.
    + eexists [_]. split; [done|]. constructor; [|constructor]. simpl.
      intros o d Ho Hd.
      rewrite (distance_cache_key_coordinates o origin d destination Ho Hd).
      apply lookup_insert_eq.
Qed.

Abbreviation inner := (team_distances_from matrix_service).
Abbreviation outer := (distances_from matrix_service).

Lemma matrix_entry_set_venue d n k rt n' k' :
  matrix_entry (dict_update d n empty_team_distances (set_venue k rt)) n' k'
  = if decide (n' = n /\ k' = k) then Some rt else matrix_entry d n' k'.
Proof.
  unfold matrix_entry. rewrite dict_get_update.
  destruct (decide (n' = n)) as [->|Hn].
  - unfold set_venue, dict_get_or. simpl. rewrite dict_get_set.
    destruct (decide (k' = k)) as [->|Hk].
    + by rewrite decide_True.
    + rewrite decide_False by (intros [_ ?]; done).
      by destruct (dict_get d n).
  - rewrite decide_False by (intros [? _]; done). done.
Qed.

Lemma matrix_entry_reset d n n' k' :
  matrix_entry (dict_set d n empty_team_distances) n' k'
  = if decide (n' = n) then None else matrix_entry d n' k'.
Proof. unfold matrix_entry. rewrite dict_get_set. by case_decide. Qed.

(** The loop over the venues for one team: what it leaves in the matrix
    and in the cache. *)
Lemma team_distances_from_entries t vs : forall d s,
  later s (inner t vs d s).2 /\
  (forall n k, n <> Team.name t \/ k ∉ map Venue.location_key vs ->
     matrix_entry (inner t vs d s).1 n k = matrix_entry d n k) /\
  (forall v, v ∈ vs ->
     is_Some (matrix_entry (inner t vs d s).1 (Team.name t) (Venue.location_key v))) /\
  (NoDup (map Venue.location_key vs) ->
   forall v, v ∈ vs ->
     exists r,
       distance_cache (inner t vs d s).2
         !! distance_cache_key (Team.geocoded t) (Venue.geocoded v) = Some r /\
       matrix_entry (inner t vs d s).1 (Team.name t) (Venue.location_key v)
       = Some (two_way r)).
Proof.
  induction vs as [|v vs IH]; intros d s.
  - simpl. split; [apply later_refl|]. split; [done|].
    split; [intros v Hv|intros _ v Hv]; by apply elem_of_nil in Hv.
  - cbn [team_distances_from].
    destruct (distance_and_time_spec (Team.geocoded t) (Venue.geocoded v) s)
      as [Hcache Hlater].
    destruct (dat (Team.geocoded t) (Venue.geocoded v) s) as [[m h] s1].
    simpl in Hcache, Hlater.
    set (d1 := dict_update d (Team.name t) empty_team_distances _).
    destruct (IH d1 s1) as (L & Hother & Hpres & Hval).
    assert (forall k, k ∉ map Venue.location_key vs ->
              matrix_entry (inner t vs d1 s1).1 (Team.name t) k
              = if decide (k = Venue.location_key v)
                then Some (two_way (m, h))
                else matrix_entry d (Team.name t) k) as Hnew.
    { intros k Hk. rewrite Hother by (by right). subst d1.
      rewrite matrix_entry_set_venue.
      destruct (decide (k = Venue.location_key v)) as [->|Hne].
      - by rewrite decide_True.
      - rewrite decide_False; [done|]. by intros [_ ?]. }
    split; [by eapply later_trans|]. split; [|split].
    + intros n k Hnk. rewrite Hother.
      * subst d1. rewrite matrix_entry_set_venue.
        rewrite decide_False; [done|]. intros [-> ->].
        destruct Hnk as [?|Hk]; [done|]. apply Hk. simpl. apply elem_of_cons. by left.
      * destruct Hnk as [?|Hk]; [by left|right].
        intros Hin. apply Hk. simpl. apply elem_of_cons. by right.
    + intros v0 Hv0.
      destruct (decide (Venue.location_key v0 ∈ map Venue.location_key vs))
        as [Hin|Hnin].
      * apply list_elem_of_fmap in Hin as (v' & -> & Hv'). by apply Hpres.
      * apply elem_of_cons in Hv0 as [->|Hv0].
        -- rewrite Hnew by done. by rewrite decide_True.
        -- exfalso. apply Hnin. by apply list_elem_of_fmap_2.
    + intros Hnd v0 Hv0. simpl in Hnd. apply NoDup_cons in Hnd as [Hv Hnd].
      apply elem_of_cons in Hv0 as [->|Hv0]; [|by apply Hval].
      exists (m, h). split.
      * destruct L as [Hmono _]. by apply Hmono.
      * rewrite Hnew by done. by rewrite decide_True.
Qed.

(** The loop over the teams. *)
Lemma distances_from_entries teams vs : forall d s,
  later s (outer teams vs d s).2 /\
  (forall n k, n ∉ map Team.name teams ->
     matrix_entry (outer teams vs d s).1 n k = matrix_entry d n k) /\
  (forall t v, t ∈ teams -> v ∈ vs ->
     is_Some (matrix_entry (outer teams vs d s).1 (Team.name t) (Venue.location_key v))) /\
  (NoDup (map Team.name teams) -> NoDup (map Venue.location_key vs) ->
   forall t v, t ∈ teams -> v ∈ vs ->
     exists r,
       distance_cache (outer teams vs d s).2
         !! distance_cache_key (Team.geocoded t) (Venue.geocoded v) = Some r /\
       matrix_entry (outer teams vs d s).1 (Team.name t) (Venue.location_key v)
       = Some (two_way r)).
Proof.
  induction teams as [|t teams IH]; intros d s.
  - simpl. split; [apply later_refl|]. split; [done|].
    split; [intros t v Ht|intros _ _ t v Ht]; by apply elem_of_nil in Ht.
  - cbn [distances_from].
    set (d0 := dict_set d (Team.name t) empty_team_distances).
    destruct (team_distances_from_entries t vs d0 s) as (L1 & O1 & P1 & V1).
    destruct (inner t vs d0 s) as [d1 s1]. simpl in L1, O1, P1, V1.
    destruct (IH d1 s1) as (L & Hother & Hpres & Hval).
    split; [by eapply later_trans|]. split; [|split].
    + intros n k Hn. simpl in Hn. apply not_elem_of_cons in Hn as [Hne Hn].
      rewrite Hother by done. rewrite O1 by (by left). subst d0.
      rewrite matrix_entry_reset. by rewrite decide_False.
    + intros t0 v Ht0 Hv.
      destruct (decide (Team.name t0 ∈ map Team.name teams)) as [Hin|Hnin].
      * apply list_elem_of_fmap in Hin as (t' & -> & Ht'). by apply Hpres.
      * apply elem_of_cons in Ht0 as [->|Ht0].
        -- rewrite Hother by done. by apply P1.
        -- exfalso. apply Hnin. by apply list_elem_of_fmap_2.
    + intros Hnt Hnv t0 v Ht0 Hv. simpl in Hnt.
      apply NoDup_cons in Hnt as [Ht Hnt].
      apply elem_of_cons in Ht0 as [->|Ht0]; [|by apply Hval].
      destruct (V1 Hnv v Hv) as (r & Hr & He). exists r. split.
      * destruct L as [Hmono _]. by apply Hmono.
      * by rewrite Hother.
Qed.

(** The venue keys of the team being filled. *)
Lemma team_distances_from_keys t vs : forall d s tdata,
  dict_get d (Team.name t) = Some tdata ->
  exists tdata',
    (inner t vs d s).1 = dict_set d (Team.name t) tdata' /\
    (NoDup (venues tdata).*1 -> NoDup (venues tdata').*1) /\
    forall k, k ∈ (venues tdata').*1
              <-> k ∈ (venues tdata).*1 \/ k ∈ map Venue.location_key vs.
Proof.
  induction vs as [|v vs IH]; intros d s tdata Hget.
  - exists tdata. simpl. split; [by rewrite dict_set_same|]. split; [done|].
    intros k. split; [by left|]. intros [?|Hk]; [done|by apply elem_of_nil in Hk].
  - cbn [team_distances_from].
    destruct (dat (Team.geocoded t) (Venue.geocoded v) s) as [[m h] s1].
    set (rt := {| miles := _; hours := _ |}).
    assert (dict_update d (Team.name t) empty_team_distances
              (set_venue (Venue.location_key v) rt)
            = dict_set d (Team.name t) (set_venue (Venue.location_key v) rt tdata))
      as ->.
    { unfold dict_update, dict_get_or. by rewrite Hget. }
    destruct (IH (dict_set d (Team.name t)
                    (set_venue (Venue.location_key v) rt tdata)) s1
                 (set_venue (Venue.location_key v) rt tdata))
      as (tdata' & E & Hnd & Hk).
    { rewrite dict_get_set. by rewrite decide_True. }
    exists tdata'. rewrite E, dict_set_set. split; [done|]. split.
    + intros H. apply Hnd. simpl. by apply dict_set_NoDup.
    + intros k. rewrite Hk. simpl. rewrite dict_set_elem_of_keys, elem_of_cons.
      tauto.
Qed.

Lemma distances_from_keys teams vs : forall d s,
  NoDup d.*1 -> Forall (fun x => covers vs x.2) d ->
  NoDup (outer teams vs d s).1.*1 /\
  Forall (fun x => covers vs x.2) (outer teams vs d s).1 /\
  forall n, n ∈ (outer teams vs d s).1.*1 <-> n ∈ d.*1 \/ n ∈ map Team.name teams.
Proof.
  induction teams as [|t teams IH]; intros d s Hnd Hcov.
  - simpl. split; [done|]. split; [done|]. intros n. split; [by left|].
    intros [?|Hn]; [done|by apply elem_of_nil in Hn].
  - cbn [distances_from].
    destruct (team_distances_from_keys t vs
                (dict_set d (Team.name t) empty_team_distances) s
                empty_team_distances) as (tdata' & E & Hnd' & Hk).
    { rewrite dict_get_set. by rewrite decide_True. }
    destruct (inner t vs _ s) as [d1 s1]. simpl in E. subst d1.
    rewrite dict_set_set.
    destruct (IH (dict_set d (Team.name t) tdata') s1) as (N & C & M).
    + by apply dict_set_NoDup.
    + apply dict_set_Forall; [done|]. split; simpl.
      * apply Hnd'. constructor.
      * intros k. rewrite Hk. simpl. split; [|by right].
        intros [Hk'|?]; [by apply elem_of_nil in Hk'|done].
    + split; [done|]. split; [done|]. intros n. rewrite M.
      rewrite dict_set_elem_of_keys. simpl. rewrite elem_of_cons.
      split; [intros [[?|?]|?]|intros [?|[?|?]]]; auto.
Qed.

Lemma entry_count_covers vs d :
  Forall (fun x => covers vs x.2) d ->
  entry_count d = length d * length (remove_dups (map Venue.location_key vs)).
Proof.
  unfold entry_count. induction 1 as [|[n td] d [Hnd Hk] Hd IH]; simpl; [done|].
  rewrite IH. f_equal. simpl in *.
  rewrite <- (length_fmap fst (venues td)).
  apply Permutation_length, NoDup_Permutation; [done|apply NoDup_remove_dups|].
  intros k. by rewrite Hk, elem_of_remove_dups.
Qed.

End Matrix.

Lemma two_way_zero : two_way (0%Q, 0%Q) = {| miles := 0; hours := 0 |}.
Proof. reflexivity. Qed.

Lemma one_way_failed data : matrix_ok data = false -> one_way data = (0%Q, 0%Q).
Proof. unfold one_way. by intros ->. Qed.

Lemma length_remove_dups_NoDup {A : Type} `{EqDecision A} (l : list A) :
  NoDup l -> length (remove_dups l) = length l.
Proof.
  intros Hnd. apply Permutation_length, NoDup_Permutation;
    [apply NoDup_remove_dups|done|].
  intros x. apply elem_of_remove_dups.
Qed.

(** C2, as the code has it.  After [compute_team_venue_distances] every
    (team, venue) pair of the two lists has an entry under the team's name
    and the venue's location key.  The matrix holds one entry for each
    distinct name and distinct key: the number of distinct names times the
    number of distinct keys, which is |teams| x |venues| when no two teams
    share a name and no two venues a key.  In that case a pair whose
    request was answered with a failure has the entry (0.0, 0.0). *)
Theorem matrix_covers_all_pairs
    (matrix_service : nat -> Q * Q -> Q * Q -> MatrixData)
    (teams : list Team.t) (vs : list Venue.t) (self : Calculator) :
  let res := compute_team_venue_distances matrix_service teams vs self in
  (forall t v, t ∈ teams -> v ∈ vs ->
     is_Some (matrix_entry res.1 (Team.name t) (Venue.location_key v))) /\
  entry_count res.1
  = length (remove_dups (map Team.name teams))
    * length (remove_dups (map Venue.location_key vs)) /\
  (NoDup (map Team.name teams) -> NoDup (map Venue.location_key vs) ->
   entry_count res.1 = length teams * length vs /\
   forall t v data,
     t ∈ teams -> v ∈ vs ->
     MatrixRequest (coordinates (Team.geocoded t))
       (coordinates (Venue.geocoded v)) data ∈ sent_between self res.2 ->
     matrix_ok data = false ->
     matrix_entry res.1 (Team.name t) (Venue.location_key v)
     = Some {| miles := 0; hours := 0 |}).
Proof.
  intros res. subst res. unfold compute_team_venue_distances.
  destruct (distances_from_entries matrix_service teams vs [] self)
    as (L & _ & Hpres & Hval).
  destruct (distances_from_keys matrix_service teams vs [] self)
    as (Hnd & Hcov & Hnames); [constructor..|].
  assert (entry_count (distances_from matrix_service teams vs [] self).1
          = length (remove_dups (map Team.name teams))
            * length (remove_dups (map Venue.location_key vs))) as Hcount.
  { rewrite (entry_count_covers vs _ Hcov). f_equal.
    rewrite <- (length_fmap fst).
    apply Permutation_length, NoDup_Permutation; [done|apply NoDup_remove_dups|].
    intros n. rewrite Hnames, elem_of_remove_dups. split; [|by right].
    intros [Hn|?]; [by apply elem_of_nil in Hn|done]. }
  split; [done|]. split; [done|]. intros Hnt Hnv. split.
  - rewrite Hcount, !length_remove_dups_NoDup by done. by rewrite !length_map.
  - intros t v data Ht Hv Hreq Hfail.
    destruct (Hval Hnt Hnv t v Ht Hv) as (r & Hr & ->).
    pose proof (later_sent_between _ _ _ L Hreq) as Hans. simpl in Hans.
    rewrite (Hans (Team.geocoded t) (Venue.geocoded v) eq_refl eq_refl) in Hr.
    injection Hr as <-. by rewrite one_way_failed.
Qed.

(** Two teams named alike and one venue: one entry, not two. *)
Lemma matrix_merges_repeated_name :
  entry_count
    (compute_team_venue_distances routes [cyclones_seattle; cyclones_spokane]
       [squilchuck] new_calculator).1 = 1 /\
  length [cyclones_seattle; cyclones_spokane] * length [squilchuck] = 2.
Proof. split; [vm_compute; reflexivity|reflexivity]. Qed.




(** ** Venues are geocoded once *)

Lemma string_app_length (s t : string) :
  String.length (s +:+ t) = String.length s + String.length t.
Proof. induction s as [|c s IH]; simpl; [done|]. by rewrite IH. Qed.

Lemma string_app_inj_r (s1 s2 t : string) : s1 +:+ t = s2 +:+ t -> s1 = s2.
Proof.
  revert s2. induction s1 as [|c s1 IH]; intros [|c2 s2] E.
  - done.
  - apply (f_equal String.length) in E.
    rewrite !string_app_length in E. simpl in E. lia.
  - apply (f_equal String.length) in E.
    rewrite !string_app_length in E. simpl in E. lia.
  - change (String c (s1 +:+ t) = String c2 (s2 +:+ t)) in E.
    injection E as -> E. f_equal. by apply IH.
Qed.

Lemma geocode_cache_key_inj q1 q2 fs :
  geocode_cache_key q1 fs = geocode_cache_key q2 fs -> q1 = q2.
Proof. unfold geocode_cache_key. apply string_app_inj_r. Qed.

Lemma geocode_requests_for_app q l1 l2 :
  geocode_requests_for q (l1 ++ l2)
  = geocode_requests_for q l1 + geocode_requests_for q l2.
Proof. unfold geocode_requests_for. by rewrite filter_app, length_app. Qed.

Lemma accepted_outcome query data :
  accepted data = true <-> is_Some (geocode_outcome query data).
Proof.
  unfold accepted, geocode_outcome.
  destruct (geocode_results data) as [|res rest].
  - split; [discriminate|]. by intros [? ?].
  - destruct (String.eqb _ _); simpl.
    + destruct (in_bounds _ _); split; try done; by intros [? ?].
    + split; [discriminate|]. by intros [? ?].
Qed.

Section Venues.

Variable geocode_service : nat -> string -> GeocodeData.

Abbreviation geocode := (geocode_location geocode_service).
Abbreviation resolve := (resolve_venue geocode_service).
Abbreviation races := (process_races_from geocode_service).

(** On a miss one request is sent, and its outcome is returned and stored. *)
Lemma geocode_location_miss query force_state self :
  geocode_cache self !! geocode_cache_key query force_state = None ->
  let address := geocode_full_query query force_state in
  let data := geocode_service (length (requests self)) address in
  geocode query force_state self
  = (geocode_outcome query data,
     cache_geocode (geocode_cache_key query force_state)
       (geocode_outcome query data)
       (sent (GeocodeRequest query force_state address data) self)).
Proof.
  intros Hmiss address data. unfold geocode_location. rewrite Hmiss.
  fold address. fold data. unfold geocode_outcome.
  destruct (geocode_results data) as [|res rest]; [done|].
  destruct (String.eqb _ _); [|done]. by destruct (in_bounds _ _).
Qed.

(** A call for a query in state WA: what it returns is in the cache
    afterwards, other queries are untouched, and a request is sent exactly
    on a miss. *)
Lemma geocode_location_WA query self :
  exists new,
    requests (geocode query "WA" self).2 = requests self ++ new /\
    geocode_cache (geocode query "WA" self).2 !! geocode_cache_key query "WA"
    = Some (geocode query "WA" self).1 /\
    (forall q, q <> query ->
       geocode_cache (geocode query "WA" self).2 !! geocode_cache_key q "WA"
       = geocode_cache self !! geocode_cache_key q "WA" /\
       geocode_requests_for q new = 0) /\
    match geocode_cache self !! geocode_cache_key query "WA" with
    | Some r => (geocode query "WA" self).1 = r /\ new = []
    | None =>
        exists data,
          new = [GeocodeRequest query "WA" (geocode_full_query query "WA") data] /\
          (geocode query "WA" self).1 = geocode_outcome query data
    end.
Proof.
  destruct (geocode_cache self !! geocode_cache_key query "WA") as [r|] eqn:Hc.
  - rewrite (geocode_location_hit _ _ _ _ _ Hc). simpl.
    exists []. rewrite app_nil_r. done.
  - rewrite (geocode_location_miss _ _ _ Hc). simpl.
    eexists [_]. split; [done|]. split; [apply lookup_insert_eq|].
    split; [|eauto]. intros q Hq. split.
    + apply lookup_insert_ne. intros E. apply geocode_cache_key_inj in E. done.
    + unfold geocode_requests_for. rewrite filter_cons, decide_False; [done|].
      simpl. intros E. apply String.eqb_eq in E. done.
Qed.

Lemma venue_once_iff self0 city venue (seen seen' : Prop) venues self :
  (seen <-> seen') ->
  venue_once self0 city venue seen venues self ->
  venue_once self0 city venue seen' venues self.
Proof.
  intros Hiff (new & Hreq & H). exists new. split; [done|].
  destruct (geocode_cache self !! _); tauto.
Qed.

(** What [resolve_venue] returns, in terms of the call it makes when the
    key is new. *)
Lemma resolve_venue_new c v lk venues self :
  dict_mem venues lk = false ->
  resolve c v lk venues self
  = match (geocode (v +:+ ", " +:+ c) "WA" self).1 with
    | None => (false, venues, (geocode (v +:+ ", " +:+ c) "WA" self).2)
    | Some g =>
        (true, dict_set venues lk (Venue.mk lk c v g),
         (geocode (v +:+ ", " +:+ c) "WA" self).2)
    end.
Proof.
  intros Hmem. unfold resolve_venue. rewrite Hmem.
  by destruct (geocode (v +:+ ", " +:+ c) "WA" self) as [[g|] self1].
Qed.

Lemma resolve_venue_once self0 city venue (seen : Prop) c v venues self :
  (c +:+ ", " +:+ v = city +:+ ", " +:+ venue -> c = city /\ v = venue) ->
  venue_once self0 city venue seen venues self ->
  venue_once self0 city venue (seen \/ (c = city /\ v = venue))
    (resolve c v (c +:+ ", " +:+ v) venues self).1.2
    (resolve c v (c +:+ ", " +:+ v) venues self).2.
Proof.
  intros Hcol (new & Hreq & Hinv).
  destruct (dict_mem venues (c +:+ ", " +:+ v)) eqn:Hmem.
  - (* the key has a venue already *)
    unfold resolve_venue. rewrite Hmem. simpl.
    apply dict_mem_spec in Hmem. exists new. split; [done|].
    destruct (geocode_cache self !! _) as [r|].
    + destruct Hinv as (Hn & Hd & H1 & H2). repeat split; try done.
      intros [Hs|[-> ->]] Hr; [by apply H2|done].
    + destruct Hinv as (Hn & Hs & Hk). split; [done|]. split; [|done].
      intros [?|[-> ->]]; [done|by apply Hk].
  - (* the key is new: one call *)
    rewrite (resolve_venue_new _ _ _ _ _ Hmem).
    assert (c +:+ ", " +:+ v ∉ venues.*1) as Hnew.
    { intros Hin. apply dict_mem_spec in Hin. congruence. }
    destruct (geocode_location_WA (v +:+ ", " +:+ c) self)
      as (new1 & Hreq1 & Hc1 & Hoth & Hcase).
    destruct (geocode (v +:+ ", " +:+ c) "WA" self) as [geo self1].
    simpl in Hreq1, Hc1, Hoth, Hcase. simpl.
    set (venues' :=
           match geo with
           | Some g =>
               dict_set venues (c +:+ ", " +:+ v)
                 (Venue.mk (c +:+ ", " +:+ v) c v g)
           | None => venues
           end).
    assert (forall k, k ∈ venues'.*1
                      <-> k ∈ venues.*1 \/ (is_Some geo /\ k = c +:+ ", " +:+ v))
      as Hkeys.
    { intros k. subst venues'. destruct geo as [g|].
      - rewrite dict_set_elem_of_keys. split; [intros [?|?]; eauto|tauto].
      - split; [by left|]. intros [?|[[? ?] _]]; done. }
    assert ((match geo with
             | Some g =>
                 (true,
                  dict_set venues (c +:+ ", " +:+ v)
                    (Venue.mk (c +:+ ", " +:+ v) c v g), self1)
             | None => (false, venues, self1)
             end).1.2 = venues') as -> by (by destruct geo).
    assert ((match geo with
             | Some g =>
                 (true,
                  dict_set venues (c +:+ ", " +:+ v)
                    (Venue.mk (c +:+ ", " +:+ v) c v g), self1)
             | None => (false, venues, self1)
             end).2 = self1) as -> by (by destruct geo).
    exists (new ++ new1). split; [by rewrite Hreq1, Hreq, app_assoc|].
    rewrite geocode_requests_for_app.
    destruct (decide (v +:+ ", " +:+ c = venue +:+ ", " +:+ city)) as [E|Ne].
    + (* the call is for the query of the venue *)
      rewrite E in *. rewrite Hc1.
      destruct (geocode_cache self !! _) as [r|].
      * destruct Hinv as (Hn & (data & Hd & Hr) & H1 & H2).
        destruct Hcase as [-> ->]. rewrite app_nil_r. simpl.
        split; [by rewrite Hn|]. split; [eauto|]. split.
        -- intros Hk. apply Hkeys in Hk as [Hk|[? _]]; [by apply H1|done].
        -- intros [Hs|[-> ->]] Hsome; apply Hkeys; [left; by apply H2|by right].
      * destruct Hinv as (Hn & Hs & Hk).
        destruct Hcase as (data & -> & ->).
        split.
        { rewrite Hn. unfold geocode_requests_for.
          rewrite filter_cons, decide_True; [done|]. simpl. apply String.eqb_refl. }
        split.
        { exists data. split; [|done]. apply elem_of_app. right.
          apply elem_of_cons. by left. }
        split.
        -- intros Hk'. apply Hkeys in Hk' as [?|[? _]]; done.
        -- intros [?|[-> ->]] Hsome; [done|]. apply Hkeys. by right.
    + (* the call is for another query *)
      assert (~ (c = city /\ v = venue)) as Hother by (intros [-> ->]; done).
      assert (city +:+ ", " +:+ venue <> c +:+ ", " +:+ v) as Hkey
          by (intros E; by apply Hother, Hcol).
      destruct (Hoth (venue +:+ ", " +:+ city)) as [Hcache Hcount]; [done|].
      rewrite Hcache, Hcount.
      destruct (geocode_cache self !! _) as [r|].
      * destruct Hinv as (Hn & (data & Hd & Hr) & H1 & H2).
        split; [lia|]. split.
        { exists data. split; [|done]. apply elem_of_app. by left. }
        split.
        -- intros Hk. apply Hkeys in Hk as [Hk|[_ ?]]; [by apply H1|done].
        -- intros [Hs|?] Hsome; [|done]. apply Hkeys. left. by apply H2.
      * destruct Hinv as (Hn & Hs & Hk).
        split; [lia|]. split; [tauto|].
        intros Hk'. apply Hkeys in Hk' as [?|[_ ?]]; done.
Qed.

(** One iteration of the loop on a row with its fields and a good date. *)
Lemma races_step row rows venues events self m d :
  has_required_fields row = true ->
  parse_mm_dd (row_date row) = Ok (m, d) ->
  exists ev,
    races (row :: rows) venues events self
    = races rows
        (resolve (row_city row) (row_venue row) (row_location_key row)
           venues self).1.2
        (if (resolve (row_city row) (row_venue row) (row_location_key row)
               venues self).1.1
         then events ++ [ev] else events)
        (resolve (row_city row) (row_venue row) (row_location_key row)
           venues self).2.
Proof.
  unfold has_required_fields, row_date, row_location_key, row_venue, row_city.
  intros Hreq Hp. simpl. rewrite Hreq, Hp. simpl.
  destruct (resolve _ _ _ venues self) as [[[|] venues'] self']; simpl; eauto.
  exists (Event.mk "" "" 0 0 Spring "" ""). done.
Qed.

Lemma races_once self0 city venue rows :
  forall (seen : Prop) venues events self res self',
    (forall row, row ∈ rows -> has_required_fields row = true ->
       row_location_key row = city +:+ ", " +:+ venue ->
       row_city row = city /\ row_venue row = venue) ->
    venue_once self0 city venue seen venues self ->
    races rows venues events self = (Ok res, self') ->
    venue_once self0 city venue
      (seen \/ exists row, row ∈ rows /\ resolves_to city venue row)
      res.1 self'.
Proof.
  induction rows as [|row rows IH]; intros seen venues events self res self' Hcol Hinv Hrun.
  - simpl in Hrun. injection Hrun as <- <-. simpl.
    eapply venue_once_iff; [|exact Hinv]. split; [by left|].
    intros [?|(row & Hin & _)]; [done|by apply elem_of_nil in Hin].
  - assert (forall row0, row0 ∈ rows -> has_required_fields row0 = true ->
              row_location_key row0 = city +:+ ", " +:+ venue ->
              row_city row0 = city /\ row_venue row0 = venue) as Hcol'.
    { intros row0 Hin. apply Hcol. apply elem_of_cons. by right. }
    destruct (has_required_fields row) eqn:Hreq.
    + destruct (parse_mm_dd (row_date row)) as [[m d]|e] eqn:Hp.
      * destruct (races_step row rows venues events self m d Hreq Hp) as [ev Hstep].
        rewrite Hstep in Hrun.
        pose proof (resolve_venue_once self0 city venue seen
                      (row_city row) (row_venue row) venues self
                      (Hcol row ltac:(apply elem_of_cons; by left) Hreq) Hinv)
          as Hinv1.
        fold (row_location_key row) in Hinv1.
        pose proof (IH _ _ _ _ _ _ Hcol' Hinv1 Hrun) as Hend.
        eapply venue_once_iff; [|exact Hend]. unfold resolves_to. split.
        -- intros [[?|[? ?]]|(row0 & Hin & ?)]; [by left|right..].
           ++ exists row. split; [apply elem_of_cons; by left|done].
           ++ exists row0. split; [apply elem_of_cons; by right|done].
        -- intros [?|(row0 & Hin & Hr0)]; [by left; left|].
           apply elem_of_cons in Hin as [->|Hin].
           ++ left; right. tauto.
           ++ right. eauto.
      * rewrite (races_from_raise _ _ _ _ _ _ e Hreq Hp) in Hrun. discriminate.
    + rewrite races_from_skip in Hrun by done.
      pose proof (IH _ _ _ _ _ _ Hcol' Hinv Hrun) as Hend.
      eapply venue_once_iff; [|exact Hend]. unfold resolves_to. split.
      * intros [?|(row0 & Hin & ?)]; [by left|right].
        exists row0. split; [apply elem_of_cons; by right|done].
      * intros [?|(row0 & Hin & Hr0)]; [by left|].
        apply elem_of_cons in Hin as [->|Hin]; [|right; eauto].
        destruct Hr0 as [? _]. congruence.
Qed.

Lemma resolve_venue_keyed c v lk venues self :
  keyed_by_location venues ->
  keyed_by_location (resolve c v lk venues self).1.2.
Proof.
  intros [Hnd Hk]. unfold resolve_venue.
  destruct (dict_mem venues lk); [done|].
  destruct (geocode _ _ self) as [[g|] self1]; simpl; [|done].
  split; [by apply dict_set_NoDup|]. by apply dict_set_Forall.
Qed.

Lemma races_keyed rows : forall venues events self res self',
  keyed_by_location venues ->
  races rows venues events self = (Ok res, self') ->
  keyed_by_location res.1.
Proof.
  induction rows as [|row rows IH]; intros venues events self res self' Hk Hrun.
  - simpl in Hrun. by injection Hrun as <- <-.
  - destruct (has_required_fields row) eqn:Hreq.
    + destruct (parse_mm_dd (row_date row)) as [[m d]|e] eqn:Hp.
      * destruct (races_step row rows venues events self m d Hreq Hp) as [ev Hstep].
        rewrite Hstep in Hrun. eapply IH; [|exact Hrun].
        by apply resolve_venue_keyed.
      * rewrite (races_from_raise _ _ _ _ _ _ e Hreq Hp) in Hrun. discriminate.
    + rewrite races_from_skip in Hrun by done. by eapply IH.
Qed.

End Venues.

(** In a dictionary keyed by location key, a key has one venue or none. *)
Lemma venues_with_key_absent key venues :
  keyed_by_location venues -> key ∉ venues.*1 ->
  venues_with_key key venues.*2 = [].
Proof.
  unfold venues_with_key. intros [_ Hk] Hnin.
  induction venues as [|[k0 v0] venues IH]; [done|].
  apply Forall_cons in Hk as [E Hk]. simpl in E.
  rewrite fmap_cons in Hnin. apply not_elem_of_cons in Hnin as [Hne Hnin].
  simpl in Hne.
  rewrite fmap_cons, filter_cons, decide_False by (simpl; congruence).
  by apply IH.
Qed.

Lemma venues_with_key_present key venues :
  keyed_by_location venues -> key ∈ venues.*1 ->
  length (venues_with_key key venues.*2) = 1.
Proof.
  intros [Hnd Hk] Hin.
  induction venues as [|[k0 v0] venues IH]; [by apply elem_of_nil in Hin|].
  apply NoDup_cons in Hnd as [Hk0 Hnd]. apply Forall_cons in Hk as [E Hk].
  simpl in E. unfold venues_with_key in *.
  rewrite fmap_cons in Hin. rewrite fmap_cons, filter_cons. simpl in Hin |- *.
  apply elem_of_cons in Hin as [->|Hin].
  - rewrite decide_True by done. simpl. f_equal.
    change (length (venues_with_key k0 venues.*2) = 0).
    by rewrite venues_with_key_absent.
  - rewrite decide_False; [by apply IH|]. intros <-. apply Hk0. by rewrite <- E.
Qed.

(** The venues [process_races] returns have pairwise distinct location
    keys. *)
Lemma process_races_keys_distinct
    (geocode_service : nat -> string -> GeocodeData)
    (rows : list RaceRow.t) (self : Calculator)
    (vs : list Venue.t) (evs : list Event.t) :
  (process_races geocode_service rows self).1 = Ok (vs, evs) ->
  NoDup (map Venue.location_key vs).
Proof.
  unfold process_races.
  destruct (process_races_from geocode_service rows [] [] self)
    as [[[venues events]|e] self'] eqn:Hrun; simpl; [|discriminate].
  intros [= <- <-].
  destruct (races_keyed geocode_service rows [] [] self (venues, events) self'
              ltac:(split; constructor) Hrun) as [Hnd Hk].
  simpl in Hnd, Hk.
  assert (map Venue.location_key venues.*2 = venues.*1) as ->; [|done].
  clear Hnd Hrun. induction Hk as [|[k v] venues E Hk IH]; [done|].
  rewrite !fmap_cons. simpl in *. f_equal; [exact E|exact IH].
Qed.

(** C5, as the code has it.  Take a run of [process_races] that returns,
    and a city and canonical venue name that one row or more stand for,
    whose query is not in the geocode cache at the start and whose location
    key no row of another city and venue shares.  Then exactly one
    geocoding request is sent for that venue, however many rows name it,
    and the collection returned holds at most one venue with that location
    key: exactly one when the answer to the request is accepted, none when
    it is not. *)
Theorem venue_geocoded_once
    (geocode_service : nat -> string -> GeocodeData)
    (rows : list RaceRow.t) (self : Calculator)
    (vs : list Venue.t) (evs : list Event.t) (city venue : string) :
  (process_races geocode_service rows self).1 = Ok (vs, evs) ->
  geocode_cache self !! geocode_cache_key (venue +:+ ", " +:+ city) "WA" = None ->
  (exists row, row ∈ rows /\ resolves_to city venue row) ->
  (forall row, row ∈ rows -> has_required_fields row = true ->
     row_location_key row = city +:+ ", " +:+ venue ->
     row_city row = city /\ row_venue row = venue) ->
  let sent := sent_between self (process_races geocode_service rows self).2 in
  geocode_requests_for (venue +:+ ", " +:+ city) sent = 1 /\
  length (venues_with_key (city +:+ ", " +:+ venue) vs) <= 1 /\
  exists data,
    GeocodeRequest (venue +:+ ", " +:+ city) "WA"
      (geocode_full_query (venue +:+ ", " +:+ city) "WA") data ∈ sent /\
    length (venues_with_key (city +:+ ", " +:+ venue) vs)
    = if accepted data then 1 else 0.
Proof.
  intros Hok Hmiss Hrow Hcol sent. subst sent. unfold process_races in *.
  destruct (process_races_from geocode_service rows [] [] self)
    as [[[venues events]|e] self'] eqn:Hrun; simpl in *; [|discriminate].
  injection Hok as <- <-.
  assert (venue_once self city venue False [] self) as Hinit.
  { exists []. rewrite app_nil_r. split; [done|]. simpl. rewrite Hmiss.
    split; [done|]. split; [tauto|apply not_elem_of_nil]. }
  pose proof (races_once geocode_service self city venue rows False [] [] self
                (venues, events) self' Hcol Hinit Hrun) as (new & Hreq & Hinv).
  pose proof (races_keyed geocode_service rows [] [] self (venues, events) self'
                ltac:(split; constructor) Hrun) as Hkeyed.
  simpl in Hinv, Hkeyed.
  unfold sent_between. rewrite Hreq, drop_app_length.
  destruct (geocode_cache self' !! _) as [r|].
  - destruct Hinv as (Hn & (data & Hd & Hr) & H1 & H2).
    split; [done|].
    assert (length (venues_with_key (city +:+ ", " +:+ venue) venues.*2)
            = if accepted data then 1 else 0) as Hlen.
    { destruct (accepted data) eqn:Hacc.
      - apply venues_with_key_present; [done|]. apply H2; [by right|].
        rewrite Hr. by apply accepted_outcome.
      - rewrite venues_with_key_absent; [done..|]. intros Hin.
        apply H1 in Hin. rewrite Hr in Hin. apply accepted_outcome in Hin.
        congruence. }
    split; [|eauto]. rewrite Hlen. destruct (accepted data); lia.
  - destruct Hinv as (_ & Hs & _). exfalso. apply Hs. by right.
Qed.

(** Two rows naming one venue in two spellings, a geocoder that finds it:
    one request, one venue. *)
Lemma venue_geocoded_once_witness :
  let run :=
    process_races (found_at 47.3 (-120.4)) two_races_at_squilchuck new_calculator in
  geocode_requests_for "Squilchuck State Park, Wenatchee"
    (sent_between new_calculator run.2) = 1 /\
  length (venues_with_key "Wenatchee, Squilchuck State Park" (venues_of run.1)) <= 1 /\
  exists data,
    GeocodeRequest "Squilchuck State Park, Wenatchee" "WA"
      (geocode_full_query "Squilchuck State Park, Wenatchee" "WA") data
      ∈ sent_between new_calculator run.2 /\
    length (venues_with_key "Wenatchee, Squilchuck State Park" (venues_of run.1))
    = if accepted data then 1 else 0.
Proof.
  intros run.
  apply (venue_geocoded_once (found_at 47.3 (-120.4)) two_races_at_squilchuck
           new_calculator (venues_of run.1) (events_of run.1)
           "Wenatchee" "Squilchuck State Park").
  - vm_compute. reflexivity.
  - reflexivity.
  - exists (race_row "2024" "4/13" "Wenatchee" "Squilchuck (State Park)").
    split; [apply elem_of_cons; by left|]. vm_compute. auto.
  - intros row Hin _ _.
    apply elem_of_cons in Hin as [->|Hin]; [vm_compute; auto|].
    apply elem_of_cons in Hin as [->|Hin]; [vm_compute; auto|].
    by apply elem_of_nil in Hin.
Defined.

(** One row, a geocoder that finds nothing: one request, no venue. *)
Lemma venue_not_found_has_no_entity :
  let row := race_row "2024" "4/13" "Wenatchee" "Squilchuck (State Park)" in
  let run := process_races zero_results [row] new_calculator in
  resolves_to "Wenatchee" "Squilchuck State Park" row /\
  run.1 = Ok ([], []) /\
  geocode_requests_for "Squilchuck State Park, Wenatchee"
    (sent_between new_calculator run.2) = 1 /\
  length (venues_with_key "Wenatchee, Squilchuck State Park" (venues_of run.1)) = 0.
Proof. vm_compute. auto. Qed.

(** * Further properties *)

(** ** The address sent to the geocoder *)

Lemma has_state_code_app_r (q s : string) :
  has_state_code s = true -> has_state_code (q +:+ s) = true.
Proof.
  intros Hs. induction q as [|c q IH]; [done|].
  change (has_state_code (String c (q +:+ s)) = true).
  cbn [has_state_code]. rewrite IH. apply orb_true_r.
Qed.

Lemma isupper_not_space c : isupper c = true -> isspace c = false.
Proof.
  unfold isupper, isspace. intros H.
  apply andb_true_iff in H as [H1 H2].
  apply Nat.leb_le in H1, H2.
  apply orb_false_iff. split; apply andb_false_iff.
  - right. apply Nat.leb_gt. lia.
  - right. apply Nat.leb_gt. lia.
Qed.

(** X1.  With a two-letter state code in capitals, the address sent to
    the geocoder always shows a state code: either the query did, or state
    and country were appended.  An address is not augmented twice. *)
Theorem geocode_full_query_has_state (query force_state : string) :
  is_state_code force_state = true ->
  has_state_code (geocode_full_query query force_state) = true /\
  geocode_full_query (geocode_full_query query force_state) force_state
  = geocode_full_query query force_state.
Proof.
  intros Hfs.
  assert (has_state_code (geocode_full_query query force_state) = true) as H.
  { unfold geocode_full_query.
    destruct (has_state_code query) eqn:Hq; [done|].
    apply has_state_code_app_r.
    destruct force_state as [|a [|b [|? ?]]]; try discriminate.
    simpl in Hfs. apply andb_true_iff in Hfs as [Ha Hb].
    change (has_state_code (String "," (String " " (String a (String b ", USA")))) = true).
    cbn [has_state_code state_code_here Ascii.eqb Bool.eqb andb].
    change (isspace " ") with true. cbn iota.
    rewrite (isupper_not_space a Ha), Ha, Hb. reflexivity. }
  split; [done|].
  unfold geocode_full_query at 1. by rewrite H.
Qed.

Lemma geocode_full_query_has_state_witness :
  has_state_code (geocode_full_query "98101" "WA") = true /\
  geocode_full_query (geocode_full_query "98101" "WA") "WA"
  = geocode_full_query "98101" "WA".
Proof. apply (geocode_full_query_has_state "98101" "WA"). reflexivity. Defined.

(** ** The two caches *)

(** X2.  [geocode_location] is memoised on (query, state): whatever the
    first call returned, found or not, the same call made again returns it
    from the cache, whatever the service would answer now, and leaves the
    calculator as it is.  A call sends one request on a miss and none on a
    hit, and never touches the distance cache. *)
Theorem geocode_location_memoised
    (geocode_service : nat -> string -> GeocodeData)
    (query force_state : string) (self : Calculator) :
  let r := geocode_location geocode_service query force_state self in
  (forall geocode_service',
     geocode_location geocode_service' query force_state r.2 = r) /\
  distance_cache r.2 = distance_cache self /\
  match geocode_cache self !! geocode_cache_key query force_state with
  | Some cached => r = (cached, self)
  | None =>
      requests r.2
      = requests self
        ++ [GeocodeRequest query force_state
              (geocode_full_query query force_state)
              (geocode_service (length (requests self))
                 (geocode_full_query query force_state))]
  end.
Proof.
  intros r. subst r.
  destruct (geocode_cache self !! geocode_cache_key query force_state)
    as [cached|] eqn:Hc.
  - rewrite (geocode_location_hit _ _ _ _ _ Hc). simpl.
    split; [|done]. intros gs'. by apply geocode_location_hit.
  - rewrite (geocode_location_miss _ _ _ _ Hc). simpl.
    split; [|done]. intros gs'. apply geocode_location_hit. simpl.
    apply lookup_insert_eq.
Qed.

(** X3.  [distance_and_time] is memoised on the two points at six
    decimals: the pair returned by a call, the zero pair of a failed lookup
    included, is returned again without a request by any later call whose
    points have the same cache key, even if their coordinates differ
    further down.  A call sends one request on a miss and none on a hit,
    and never touches the geocode cache. *)
Theorem distance_and_time_memoised
    (matrix_service : nat -> Q * Q -> Q * Q -> MatrixData)
    (origin destination : Geocoded.t) (self : Calculator) :
  let r := distance_and_time matrix_service origin destination self in
  (forall matrix_service' origin' destination',
     distance_cache_key origin' destination'
     = distance_cache_key origin destination ->
     distance_and_time matrix_service' origin' destination' r.2 = r) /\
  geocode_cache r.2 = geocode_cache self /\
  match distance_cache self !! distance_cache_key origin destination with
  | Some cached => r = (cached, self)
  | None =>
      let data :=
        matrix_service (length (requests self)) (coordinates origin)
          (coordinates destination) in
      requests r.2
      = requests self
        ++ [MatrixRequest (coordinates origin) (coordinates destination) data] /\
      r.1 = (if matrix_ok data
             then ((distance_value (matrix_element data) / 1609.34)%Q,
                   (duration_value (matrix_element data) / 3600)%Q)
             else (0%Q, 0%Q))
  end.
Proof.
  intros r. subst r.
  destruct (distance_cache self !! distance_cache_key origin destination)
    as [cached|] eqn:Hc.
  - rewrite (distance_and_time_hit _ _ _ _ _ Hc). simpl.
    split; [|done]. intros ms' o' d' Hk. apply distance_and_time_hit.
    by rewrite Hk.
  - rewrite (distance_and_time_miss _ _ _ _ Hc). simpl.
    split; [|done]. intros ms' o' d' Hk. apply distance_and_time_hit.
    rewrite Hk. simpl. apply lookup_insert_eq.
Qed.

(** ** Locations lie in the box *)

Lemma geocode_outcome_in_box query data g :
  geocode_outcome query data = Some g -> in_box g.
Proof.
  unfold geocode_outcome.
  destruct (geocode_results data) as [|res rest]; [done|].
  destruct (String.eqb _ _); [|done].
  destruct (in_bounds _ _) eqn:Hb; [|done].
  intros [= <-]. by apply in_bounds_spec.
Qed.

Lemma new_calculator_in_box : cache_in_box new_calculator.
Proof. intros key g H. simpl in H. by rewrite lookup_empty in H. Qed.

(** X4.  When every location in the geocode cache lies in the box
    45..49.5 by -125..-116, as in a new calculator, a call of
    [geocode_location] returns a location only inside the box, found now
    or cached, and the cache keeps that property. *)
Theorem geocode_location_in_box
    (geocode_service : nat -> string -> GeocodeData)
    (query force_state : string) (self : Calculator) :
  cache_in_box self ->
  cache_in_box (geocode_location geocode_service query force_state self).2 /\
  forall g,
    (geocode_location geocode_service query force_state self).1 = Some g ->
    in_box g.
Proof.
  intros Hbox.
  destruct (geocode_cache self !! geocode_cache_key query force_state)
    as [cached|] eqn:Hc.
  - rewrite (geocode_location_hit _ _ _ _ _ Hc). simpl. split; [done|].
    intros g ->. by eapply Hbox.
  - rewrite (geocode_location_miss _ _ _ _ Hc). simpl. split.
    + intros key g. simpl. rewrite lookup_insert.
      case_decide; [|by apply Hbox].
      intros [= Hg]. by eapply geocode_outcome_in_box.
    + intros g Hg. by eapply geocode_outcome_in_box.
Qed.

Lemma geocode_location_in_box_witness :
  cache_in_box
    (geocode_location (found_at 47.3 (-120.4)) "Wenatchee" "WA" new_calculator).2 /\
  forall g,
    (geocode_location (found_at 47.3 (-120.4)) "Wenatchee" "WA" new_calculator).1
    = Some g ->
    in_box g.
Proof.
  apply (geocode_location_in_box (found_at 47.3 (-120.4)) "Wenatchee" "WA"
           new_calculator new_calculator_in_box).
Defined.

Section InBox.

Variable geocode_service : nat -> string -> GeocodeData.

Lemma geocode_in_box_cases query force_state self :
  cache_in_box self ->
  cache_in_box (geocode_location geocode_service query force_state self).2 /\
  match (geocode_location geocode_service query force_state self).1 with
  | Some g => in_box g
  | None => True
  end.
Proof.
  intros Hbox.
  destruct (geocode_cache self !! geocode_cache_key query force_state)
    as [cached|] eqn:Hc.
  - rewrite (geocode_location_hit _ _ _ _ _ Hc). simpl. split; [done|].
    destruct cached as [g|]; [by eapply Hbox|done].
  - rewrite (geocode_location_miss _ _ _ _ Hc). simpl. split.
    + intros key g. simpl. rewrite lookup_insert.
      case_decide; [|by apply Hbox].
      intros [= Hg]. by eapply geocode_outcome_in_box.
    + destruct (geocode_outcome _ _) as [g|] eqn:Hg; [|done].
      by eapply geocode_outcome_in_box.
Qed.

Lemma process_team_row_in_box row teams self :
  cache_in_box self -> Forall (fun t => in_box (Team.geocoded t)) teams ->
  cache_in_box (process_team_row geocode_service row teams self).2 /\
  Forall (fun t => in_box (Team.geocoded t))
    (process_team_row geocode_service row teams self).1.
Proof.
  intros Hbox Hteams. unfold process_team_row.
  destruct (nonempty (strip (str_or (TeamRow.Team row) ""))); simpl; [|done].
  set (city := clean_city_field _ _).
  set (state := strip (str_or (TeamRow.State row) "WA")).
  set (zipc := strip (str_or (TeamRow.Zip row) "")).
  assert (forall self1 : Calculator, cache_in_box self1 ->
    cache_in_box
      (let '(geocoded, self2) :=
         if nonempty city then geocode_location geocode_service city state self1
         else (None, self1) in
       match geocoded with
       | Some g =>
           (teams ++ [Team.mk (strip (str_or (TeamRow.Team row) "")) city state zipc g],
            self2)
       | None => (teams, self2)
       end).2 /\
    Forall (fun t => in_box (Team.geocoded t))
      (let '(geocoded, self2) :=
         if nonempty city then geocode_location geocode_service city state self1
         else (None, self1) in
       match geocoded with
       | Some g =>
           (teams ++ [Team.mk (strip (str_or (TeamRow.Team row) "")) city state zipc g],
            self2)
       | None => (teams, self2)
       end).1) as Hcity.
  { intros self1 H1. destruct (nonempty city); [|done].
    destruct (geocode_in_box_cases city state self1 H1) as [H2 Hg].
    destruct (geocode_location geocode_service city state self1) as [[g|] self2];
      simpl in *; [|done].
    split; [done|]. apply Forall_app. split; [done|]. by constructor. }
  destruct (nonempty zipc).
  - destruct (geocode_in_box_cases zipc state self Hbox) as [H1 Hg].
    destruct (geocode_location geocode_service zipc state self) as [[g|] self1];
      simpl in *.
    + split; [done|]. apply Forall_app. split; [done|]. by constructor.
    + apply (Hcity self1 H1).
  - apply (Hcity self Hbox).
Qed.

Lemma process_teams_from_in_box rows : forall teams self,
  cache_in_box self -> Forall (fun t => in_box (Team.geocoded t)) teams ->
  cache_in_box (process_teams_from geocode_service rows teams self).2 /\
  Forall (fun t => in_box (Team.geocoded t))
    (process_teams_from geocode_service rows teams self).1.
Proof.
  induction rows as [|row rows IH]; intros teams self Hbox Hteams; [done|].
  simpl.
  destruct (process_team_row_in_box row teams self Hbox Hteams) as [H1 H2].
  destruct (process_team_row geocode_service row teams self) as [teams1 self1].
  by apply IH.
Qed.

Lemma resolve_venue_in_box c v lk venues self :
  cache_in_box self -> Forall (fun x => in_box (Venue.geocoded x.2)) venues ->
  cache_in_box (resolve_venue geocode_service c v lk venues self).2 /\
  Forall (fun x => in_box (Venue.geocoded x.2))
    (resolve_venue geocode_service c v lk venues self).1.2.
Proof.
  intros Hbox Hvs. unfold resolve_venue.
  destruct (dict_mem venues lk); [done|].
  destruct (geocode_in_box_cases (v +:+ ", " +:+ c) "WA" self Hbox) as [H1 Hg].
  destruct (geocode_location geocode_service (v +:+ ", " +:+ c) "WA" self)
    as [[g|] self1]; simpl in *; [|done].
  split; [done|]. by apply dict_set_Forall.
Qed.

Lemma races_in_box rows : forall venues events self res self',
  cache_in_box self -> Forall (fun x => in_box (Venue.geocoded x.2)) venues ->
  process_races_from geocode_service rows venues events self = (Ok res, self') ->
  cache_in_box self' /\ Forall (fun x => in_box (Venue.geocoded x.2)) res.1.
Proof.
  induction rows as [|row rows IH]; intros venues events self res self' Hbox Hvs Hrun.
  - simpl in Hrun. by injection Hrun as <- <-.
  - destruct (has_required_fields row) eqn:Hreq.
    + destruct (parse_mm_dd (row_date row)) as [[m d]|e] eqn:Hp.
      * destruct (races_step geocode_service row rows venues events self m d Hreq Hp)
          as [ev Hstep].
        rewrite Hstep in Hrun.
        destruct (resolve_venue_in_box (row_city row) (row_venue row)
                    (row_location_key row) venues self Hbox Hvs) as [H1 H2].
        by eapply IH.
      * rewrite (races_from_raise _ _ _ _ _ _ e Hreq Hp) in Hrun. discriminate.
    + rewrite races_from_skip in Hrun by done. by eapply IH.
Qed.

End InBox.

(** X5.  From a calculator whose cached locations lie in the box, every
    team [process_teams] keeps is located inside the box, and the cache
    keeps the property for the steps that follow. *)
Theorem process_teams_in_box
    (geocode_service : nat -> string -> GeocodeData)
    (rows : list TeamRow.t) (self : Calculator) :
  cache_in_box self ->
  cache_in_box (process_teams geocode_service rows self).2 /\
  Forall (fun t => in_box (Team.geocoded t))
    (process_teams geocode_service rows self).1.
Proof.
  intros Hbox. unfold process_teams.
  by apply process_teams_from_in_box.
Qed.

Lemma process_teams_in_box_witness :
  cache_in_box
    (process_teams (found_at 47.6 (-122.3))
       [team_row "Cyclones" "Seattle" "WA" "98101"] new_calculator).2 /\
  Forall (fun t => in_box (Team.geocoded t))
    (process_teams (found_at 47.6 (-122.3))
       [team_row "Cyclones" "Seattle" "WA" "98101"] new_calculator).1.
Proof.
  apply (process_teams_in_box (found_at 47.6 (-122.3))
           [team_row "Cyclones" "Seattle" "WA" "98101"] new_calculator
           new_calculator_in_box).
Defined.

(** X6.  From a calculator whose cached locations lie in the box, every
    venue [process_races] returns is located inside the box. *)
Theorem process_races_in_box
    (geocode_service : nat -> string -> GeocodeData)
    (rows : list RaceRow.t) (self : Calculator)
    (vs : list Venue.t) (evs : list Event.t) :
  cache_in_box self ->
  (process_races geocode_service rows self).1 = Ok (vs, evs) ->
  cache_in_box (process_races geocode_service rows self).2 /\
  Forall (fun v => in_box (Venue.geocoded v)) vs.
Proof.
  intros Hbox. unfold process_races.
  destruct (process_races_from geocode_service rows [] [] self)
    as [[[venues events]|e] self'] eqn:Hrun; simpl; [|discriminate].
  intros [= <- <-].
  destruct (races_in_box geocode_service rows [] [] self (venues, events) self'
              Hbox ltac:(constructor) Hrun) as [H1 H2].
  split; [done|]. simpl in H2. by apply Forall_fmap.
Qed.

Lemma process_races_in_box_witness :
  let run :=
    process_races (found_at 47.3 (-120.4)) two_races_at_squilchuck new_calculator in
  cache_in_box run.2 /\
  Forall (fun v => in_box (Venue.geocoded v)) (venues_of run.1).
Proof.
  intros run.
  apply (process_races_in_box (found_at 47.3 (-120.4)) two_races_at_squilchuck
           new_calculator (venues_of run.1) (events_of run.1)
           new_calculator_in_box).
  vm_compute. reflexivity.
Defined.

(** ** Requests of a run *)

Lemma sent_between_app self self' new :
  requests self' = requests self ++ new -> sent_between self self' = new.
Proof. intros R. unfold sent_between. by rewrite R, drop_app_length. Qed.

Lemma gset_difference_subseteq (X Y : gset string) : X ∖ Y ⊆ X.
Proof. intros x Hx. apply elem_of_difference in Hx. tauto. Qed.

Lemma size_list_to_set_le (l : list string) :
  size (list_to_set l : gset string) <= length l.
Proof.
  induction l as [|x l IH].
  - by rewrite list_to_set_nil, size_empty.
  - rewrite list_to_set_cons, size_union_alt, size_singleton. simpl.
    pose proof (subseteq_size (list_to_set l ∖ {[x]} : gset string)
                  (list_to_set l)) as Hs.
    assert ((list_to_set l ∖ {[x]} : gset string) ⊆ list_to_set l) as Hsub
      by apply gset_difference_subseteq.
    specialize (Hs Hsub). lia.
Qed.

Lemma new_keys_le {V : Type} keys (cache : gmap string V) :
  new_keys keys cache <= length keys.
Proof.
  unfold new_keys.
  pose proof (size_list_to_set_le keys) as H1.
  pose proof (subseteq_size (list_to_set keys ∖ dom cache : gset string)
                (list_to_set keys)) as H2.
  assert ((list_to_set keys ∖ dom cache : gset string) ⊆ list_to_set keys)
    as Hsub by apply gset_difference_subseteq.
  specialize (H2 Hsub). lia.
Qed.

Lemma matrix_run_refl self : matrix_run [] self self.
Proof.
  split; [done|]. split; [by rewrite list_to_set_nil, (right_id_L ∅ (∪))|].
  exists []. rewrite app_nil_r. simpl. split; [done|]. split; [constructor|lia].
Qed.

Lemma matrix_run_trans k1 k2 s s1 s2 :
  matrix_run k1 s s1 -> matrix_run k2 s1 s2 -> matrix_run (k1 ++ k2) s s2.
Proof.
  intros (G1 & D1 & new1 & R1 & F1 & S1) (G2 & D2 & new2 & R2 & F2 & S2).
  split; [congruence|]. split.
  - by rewrite D2, D1, list_to_set_app_L, (assoc_L (∪)).
  - exists (new1 ++ new2). rewrite R2, R1, <- app_assoc. split; [done|].
    split; [by apply Forall_app|]. rewrite length_app. lia.
Qed.

Lemma matrix_run_count keys self self' :
  matrix_run keys self self' ->
  Forall (fun r => is_matrix_request r = true) (sent_between self self') /\
  length (sent_between self self') = new_keys keys (distance_cache self).
Proof.
  intros (_ & D & new & R & F & S).
  rewrite (sent_between_app _ _ _ R). split; [done|].
  unfold new_keys.
  rewrite <- (size_dom (distance_cache self')) in S.
  rewrite <- (size_dom (distance_cache self)) in S.
  rewrite D, size_union_alt in S. lia.
Qed.

Lemma geocode_run_refl qs self : geocode_run qs self self.
Proof.
  split; [done|]. split; [apply union_subseteq_l|].
  exists []. rewrite app_nil_r. simpl. split; [done|]. split; [constructor|lia].
Qed.

Lemma asks_for_mono qs qs' r :
  (forall q, q ∈ qs -> q ∈ qs') -> asks_for qs r -> asks_for qs' r.
Proof. intros Hsub. destruct r; simpl; [|done]. intros [H1 H2]. auto. Qed.

Lemma geocode_run_mono qs qs' s s' :
  (forall q, q ∈ qs -> q ∈ qs') -> geocode_run qs s s' -> geocode_run qs' s s'.
Proof.
  intros Hsub (G & D & new & R & F & S).
  split; [done|]. split.
  - intros k Hk. apply D in Hk. apply elem_of_union in Hk as [Hk|Hk].
    + apply elem_of_union. by left.
    + apply elem_of_union. right. apply elem_of_list_to_set.
      apply elem_of_list_to_set in Hk. unfold query_keys in *.
      apply list_elem_of_fmap in Hk as (q & -> & Hq).
      apply list_elem_of_fmap. exists q. split; [done|]. by apply Hsub.
  - exists new. split; [done|]. split; [|done].
    eapply Forall_impl; [exact F|]. intros r. by apply asks_for_mono.
Qed.

Lemma geocode_run_trans q1 q2 s s1 s2 :
  geocode_run q1 s s1 -> geocode_run q2 s1 s2 -> geocode_run (q1 ++ q2) s s2.
Proof.
  intros H1 H2.
  apply (geocode_run_mono q1 (q1 ++ q2)) in H1;
    [|intros q Hq; apply elem_of_app; by left].
  apply (geocode_run_mono q2 (q1 ++ q2)) in H2;
    [|intros q Hq; apply elem_of_app; by right].
  destruct H1 as (G1 & D1 & new1 & R1 & F1 & S1).
  destruct H2 as (G2 & D2 & new2 & R2 & F2 & S2).
  split; [congruence|]. split.
  - intros k Hk. apply D2, elem_of_union in Hk as [Hk|Hk].
    + by apply D1.
    + apply elem_of_union. by right.
  - exists (new1 ++ new2). rewrite R2, R1, <- app_assoc. split; [done|].
    split; [by apply Forall_app|]. rewrite length_app. lia.
Qed.

Lemma geocode_run_count qs self self' :
  geocode_run qs self self' ->
  Forall (asks_for qs) (sent_between self self') /\
  length (sent_between self self') <= new_keys (query_keys qs) (geocode_cache self).
Proof.
  intros (_ & D & new & R & F & S).
  rewrite (sent_between_app _ _ _ R). split; [done|].
  unfold new_keys.
  rewrite <- (size_dom (geocode_cache self')) in S.
  rewrite <- (size_dom (geocode_cache self)) in S.
  apply subseteq_size in D. rewrite size_union_alt in D. lia.
Qed.

Section Runs.

Variable geocode_service : nat -> string -> GeocodeData.
Variable matrix_service : nat -> Q * Q -> Q * Q -> MatrixData.

Lemma distance_and_time_run origin destination self :
  matrix_run [distance_cache_key origin destination] self
    (distance_and_time matrix_service origin destination self).2.
Proof.
  destruct (distance_cache self !! distance_cache_key origin destination)
    as [cached|] eqn:Hc.
  - rewrite (distance_and_time_hit _ _ _ _ _ Hc). simpl.
    split; [done|]. split.
    + apply (elem_of_dom_2 (D := gset string)) in Hc.
      rewrite list_to_set_singleton_L. apply set_eq. intros k.
      rewrite elem_of_union, elem_of_singleton.
      split; [tauto|]. by intros [?| ->].
    + exists []. rewrite app_nil_r. simpl.
      split; [done|]. split; [constructor|lia].
  - rewrite (distance_and_time_miss _ _ _ _ Hc).
    unfold matrix_run, cache_distance, sent. simpl.
    split; [done|]. split.
    + by rewrite dom_insert_L, (right_id_L ∅ (∪)), (comm_L (∪)).
    + eexists [_]. split; [done|]. split; [by repeat constructor|].
      rewrite map_size_insert_None by done. simpl. lia.
Qed.

Lemma team_distances_from_run t vs : forall d s,
  matrix_run
    (map (fun v => distance_cache_key (Team.geocoded t) (Venue.geocoded v)) vs)
    s (team_distances_from matrix_service t vs d s).2.
Proof.
  induction vs as [|v vs IH]; intros d s; simpl.
  - apply matrix_run_refl.
  - pose proof (distance_and_time_run (Team.geocoded t) (Venue.geocoded v) s) as H1.
    destruct (distance_and_time matrix_service (Team.geocoded t)
                (Venue.geocoded v) s) as [[m h] s1].
    simpl in H1.
    apply (matrix_run_trans [_] _ _ _ _ H1 (IH _ s1)).
Qed.

Lemma distances_from_run teams vs : forall d s,
  matrix_run (pair_keys teams vs) s (distances_from matrix_service teams vs d s).2.
Proof.
  induction teams as [|t teams IH]; intros d s; simpl.
  - apply matrix_run_refl.
  - pose proof (team_distances_from_run t vs
                  (dict_set d (Team.name t) empty_team_distances) s) as H1.
    destruct (team_distances_from matrix_service t vs
                (dict_set d (Team.name t) empty_team_distances) s) as [d1 s1].
    simpl in H1.
    apply (matrix_run_trans _ _ _ _ _ H1 (IH d1 s1)).
Qed.

Lemma length_pair_keys teams vs :
  length (pair_keys teams vs) = length teams * length vs.
Proof.
  unfold pair_keys. induction teams as [|t teams IH]; simpl; [done|].
  rewrite length_app, length_map, IH. lia.
Qed.

Lemma geocode_location_run query force_state self :
  geocode_run [(query, force_state)] self
    (geocode_location geocode_service query force_state self).2.
Proof.
  destruct (geocode_cache self !! geocode_cache_key query force_state)
    as [cached|] eqn:Hc.
  - rewrite (geocode_location_hit _ _ _ _ _ Hc). apply geocode_run_refl.
  - rewrite (geocode_location_miss _ _ _ _ Hc).
    unfold geocode_run, cache_geocode, sent. simpl.
    split; [done|]. split.
    + rewrite dom_insert_L. unfold query_keys. simpl.
      by rewrite (right_id_L ∅ (∪)), (comm_L (∪)).
    + eexists [_]. split; [done|]. split.
      * constructor; [|constructor]. simpl. split; [|done].
        by apply list_elem_of_singleton.
      * rewrite map_size_insert_None by done. simpl. lia.
Qed.

Lemma process_team_row_run row teams self :
  geocode_run (team_row_queries row) self
    (process_team_row geocode_service row teams self).2.
Proof.
  unfold process_team_row, team_row_queries, row_team.
  destruct (nonempty (strip (str_or (TeamRow.Team row) ""))); simpl;
    [|apply geocode_run_refl].
  set (city := clean_city_field _ _).
  set (state := strip (str_or (TeamRow.State row) "WA")).
  set (zipc := strip (str_or (TeamRow.Zip row) "")).
  set (team := strip (str_or (TeamRow.Team row) "")).
  assert (forall self1 : Calculator,
    geocode_run (if nonempty city then [(city, state)] else []) self1
      (let '(geocoded, self2) :=
         if nonempty city then geocode_location geocode_service city state self1
         else (None, self1) in
       match geocoded with
       | Some g => (teams ++ [Team.mk team city state zipc g], self2)
       | None => (teams, self2)
       end).2) as Hcity.
  { intros self1. destruct (nonempty city); [|apply geocode_run_refl].
    pose proof (geocode_location_run city state self1) as H1.
    by destruct (geocode_location geocode_service city state self1) as [[g|] self2]. }
  destruct (nonempty zipc).
  - pose proof (geocode_location_run zipc state self) as H1.
    destruct (geocode_location geocode_service zipc state self) as [[g|] self1];
      simpl in *.
    + eapply geocode_run_mono; [|exact H1].
      intros q Hq. apply list_elem_of_singleton in Hq as ->.
      apply elem_of_cons. by left.
    + apply (geocode_run_trans [_] _ _ _ _ H1 (Hcity self1)).
  - apply (Hcity self).
Qed.

Lemma process_teams_from_run rows : forall teams self,
  geocode_run (team_queries rows) self
    (process_teams_from geocode_service rows teams self).2.
Proof.
  induction rows as [|row rows IH]; intros teams self; simpl.
  - apply geocode_run_refl.
  - pose proof (process_team_row_run row teams self) as H1.
    destruct (process_team_row geocode_service row teams self) as [teams1 self1].
    apply (geocode_run_trans _ _ _ _ _ H1 (IH teams1 self1)).
Qed.

Lemma length_team_queries rows : length (team_queries rows) <= 2 * length rows.
Proof.
  induction rows as [|row rows IH]; simpl; [lia|].
  rewrite length_app.
  assert (length (team_row_queries row) <= 2); [|lia].
  unfold team_row_queries.
  destruct (nonempty (row_team row)); [|simpl; lia].
  rewrite length_app.
  destruct (nonempty (strip _)), (nonempty (clean_city_field _ _)); simpl; lia.
Qed.

Lemma resolve_venue_run c v lk venues self :
  geocode_run [(v +:+ ", " +:+ c, "WA")] self
    (resolve_venue geocode_service c v lk venues self).2.
Proof.
  unfold resolve_venue.
  destruct (dict_mem venues lk); [apply geocode_run_refl|].
  pose proof (geocode_location_run (v +:+ ", " +:+ c) "WA" self) as H1.
  by destruct (geocode_location geocode_service (v +:+ ", " +:+ c) "WA" self)
    as [[g|] self1].
Qed.

Lemma race_queries_cons row rows :
  race_queries (row :: rows)
  = (if has_required_fields row
     then [(row_venue row +:+ ", " +:+ row_city row, "WA")] else [])
    ++ race_queries rows.
Proof.
  unfold race_queries. rewrite filter_cons.
  destruct (has_required_fields row) eqn:E.
  - by rewrite decide_True.
  - by rewrite decide_False.
Qed.

Lemma races_run rows : forall venues events self,
  geocode_run (race_queries rows) self
    (process_races_from geocode_service rows venues events self).2.
Proof.
  induction rows as [|row rows IH]; intros venues events self.
  - apply geocode_run_refl.
  - rewrite race_queries_cons.
    destruct (has_required_fields row) eqn:Hreq.
    + destruct (parse_mm_dd (row_date row)) as [[m d]|e] eqn:Hp.
      * destruct (races_step geocode_service row rows venues events self m d Hreq Hp)
          as [ev ->].
        eapply geocode_run_trans; [apply resolve_venue_run|apply IH].
      * rewrite (races_from_raise _ _ _ _ _ _ e Hreq Hp). apply geocode_run_refl.
    + rewrite races_from_skip by done. apply IH.
Qed.

Lemma length_race_queries rows : length (race_queries rows) <= length rows.
Proof.
  unfold race_queries. rewrite length_map. apply length_filter.
Qed.

End Runs.

(** X7.  [compute_team_venue_distances] sends matrix requests only and
    leaves the geocode cache alone.  It sends exactly one request for each
    distinct cache key of a (team, venue) pair that the distance cache
    did not hold, so at most one per pair. *)
Theorem compute_team_venue_distances_requests
    (matrix_service : nat -> Q * Q -> Q * Q -> MatrixData)
    (teams : list Team.t) (vs : list Venue.t) (self : Calculator) :
  let r := compute_team_venue_distances matrix_service teams vs self in
  geocode_cache r.2 = geocode_cache self /\
  requests r.2 = requests self ++ sent_between self r.2 /\
  Forall (fun q => is_matrix_request q = true) (sent_between self r.2) /\
  length (sent_between self r.2)
  = new_keys (pair_keys teams vs) (distance_cache self) /\
  length (sent_between self r.2) <= length teams * length vs.
Proof.
  intros r.
  pose proof (distances_from_run matrix_service teams vs [] self) as Hrun.
  fold (compute_team_venue_distances matrix_service teams vs self) in Hrun.
  fold r in Hrun.
  destruct (matrix_run_count _ _ _ Hrun) as [HF HL].
  destruct Hrun as (G & _ & new & R & _ & _).
  split; [done|]. split; [by rewrite (sent_between_app _ _ _ R)|].
  split; [done|]. split; [done|].
  rewrite HL, <- length_pair_keys. apply new_keys_le.
Qed.

(** X8.  [process_races] sends geocoding requests only, each for the
    query "venue, city" of a row that has its four fields, with state WA,
    and leaves the distance cache alone.  It sends at most one request for
    each distinct such query the geocode cache did not hold, so at most
    one per row; this holds also when the run ends in an exception. *)
Theorem process_races_requests
    (geocode_service : nat -> string -> GeocodeData)
    (rows : list RaceRow.t) (self : Calculator) :
  let r := process_races geocode_service rows self in
  distance_cache r.2 = distance_cache self /\
  requests r.2 = requests self ++ sent_between self r.2 /\
  Forall (asks_for (race_queries rows)) (sent_between self r.2) /\
  length (sent_between self r.2)
  <= new_keys (query_keys (race_queries rows)) (geocode_cache self) /\
  length (sent_between self r.2) <= length rows.
Proof.
  intros r.
  pose proof (races_run geocode_service rows [] [] self) as Hrun.
  assert ((process_races_from geocode_service rows [] [] self).2 = r.2) as E.
  { unfold r, process_races.
    by destruct (process_races_from geocode_service rows [] [] self)
      as [[[venues events]|e] self']. }
  rewrite E in Hrun.
  destruct (geocode_run_count _ _ _ Hrun) as [HF HL].
  destruct Hrun as (G & _ & new & R & _ & _).
  split; [done|]. split; [by rewrite (sent_between_app _ _ _ R)|].
  split; [done|]. split; [done|].
  etrans; [exact HL|]. etrans; [apply new_keys_le|].
  unfold query_keys. rewrite length_map. apply length_race_queries.
Qed.

(** X9.  [process_teams] sends geocoding requests only, each for the zip
    code or the cleaned city of a row that names a team, with the state of
    the row, and leaves the distance cache alone.  It sends at most one
    request for each distinct (query, state) pair the geocode cache did
    not hold, so at most two per row. *)
Theorem process_teams_requests
    (geocode_service : nat -> string -> GeocodeData)
    (rows : list TeamRow.t) (self : Calculator) :
  let r := process_teams geocode_service rows self in
  distance_cache r.2 = distance_cache self /\
  requests r.2 = requests self ++ sent_between self r.2 /\
  Forall (asks_for (team_queries rows)) (sent_between self r.2) /\
  length (sent_between self r.2)
  <= new_keys (query_keys (team_queries rows)) (geocode_cache self) /\
  length (sent_between self r.2) <= 2 * length rows.
Proof.
  intros r.
  pose proof (process_teams_from_run geocode_service rows [] self) as Hrun.
  fold (process_teams geocode_service rows self) in Hrun. fold r in Hrun.
  destruct (geocode_run_count _ _ _ Hrun) as [HF HL].
  destruct Hrun as (G & _ & new & R & _ & _).
  split; [done|]. split; [by rewrite (sent_between_app _ _ _ R)|].
  split; [done|]. split; [done|].
  etrans; [exact HL|]. etrans; [apply new_keys_le|].
  unfold query_keys. rewrite length_map. apply length_team_queries.
Qed.

(** ** Venues and events of the races file *)

Section Events.

Variable geocode_service : nat -> string -> GeocodeData.

Lemma races_step_event row rows venues events self m d :
  has_required_fields row = true ->
  parse_mm_dd (row_date row) = Ok (m, d) ->
  exists ev,
    event_from row ev /\
    process_races_from geocode_service (row :: rows) venues events self
    = process_races_from geocode_service rows
        (resolve_venue geocode_service (row_city row) (row_venue row)
           (row_location_key row) venues self).1.2
        (if (resolve_venue geocode_service (row_city row) (row_venue row)
               (row_location_key row) venues self).1.1
         then events ++ [ev] else events)
        (resolve_venue geocode_service (row_city row) (row_venue row)
           (row_location_key row) venues self).2.
Proof.
  intros Hreq Hp.
  exists (Event.mk
            (strip (str_or (RaceRow.Year row) "") +:+ "-" +:+ format_02d m +:+
             "-" +:+ format_02d d +:+ "_" +:+ row_city row +:+ "_" +:+
             underscore_spaces false (row_venue row))
            (strip (str_or (RaceRow.Year row) "")) m d (infer_season m)
            (row_date row) (row_location_key row)).
  split; [by repeat split|].
  revert Hreq Hp.
  unfold has_required_fields, row_date, row_location_key, row_venue, row_city.
  intros Hreq Hp. simpl. rewrite Hreq, Hp. simpl.
  by destruct (resolve_venue geocode_service _ _ _ venues self)
    as [[[|] venues'] self'].
Qed.

Lemma resolve_venue_cases c v lk venues self :
  ((resolve_venue geocode_service c v lk venues self).1.1 = true /\
   (forall k, k ∈ (resolve_venue geocode_service c v lk venues self).1.2.*1
              <-> k ∈ venues.*1 \/ k = lk) /\
   Forall (fun x => x ∈ venues \/ exists g, x = (lk, Venue.mk lk c v g))
     (resolve_venue geocode_service c v lk venues self).1.2)
  \/ ((resolve_venue geocode_service c v lk venues self).1.1 = false /\
      (resolve_venue geocode_service c v lk venues self).1.2 = venues).
Proof.
  unfold resolve_venue. destruct (dict_mem venues lk) eqn:Hm.
  - left. simpl. split; [done|]. split.
    + intros k. split; [by left|]. intros [?| ->]; [done|].
      by apply dict_mem_spec.
    + apply Forall_forall. intros x Hx. by left.
  - destruct (geocode_location geocode_service (v +:+ ", " +:+ c) "WA" self)
      as [[g|] self1]; simpl.
    + left. split; [done|]. split.
      * intros k. apply dict_set_elem_of_keys.
      * apply dict_set_Forall; [|right; by exists g].
        apply Forall_forall. intros x Hx. by left.
    + by right.
Qed.

Lemma races_events rows : forall venues events self res self',
  process_races_from geocode_service rows venues events self = (Ok res, self') ->
  exists kept new_events,
    kept `sublist_of` filter (fun row => has_required_fields row = true) rows /\
    Forall2 event_from kept new_events /\
    res.2 = events ++ new_events /\
    (forall k, k ∈ res.1.*1
               <-> k ∈ venues.*1 \/ k ∈ map Event.location_key new_events) /\
    Forall (fun x => x ∈ venues \/ exists row, row ∈ rows /\ venue_from row x.2)
      res.1.
Proof.
  induction rows as [|row rows IH]; intros venues events self res self' Hrun.
  - simpl in Hrun. injection Hrun as <- <-. exists [], [].
    split; [done|]. split; [constructor|]. split; [by rewrite app_nil_r|].
    split.
    + intros k. simpl. split; [by left|]. intros [?|H]; [done|]. inversion H.
    + apply Forall_forall. intros x Hx. by left.
  - rewrite filter_cons. destruct (has_required_fields row) eqn:Hreq.
    + rewrite decide_True by done.
      destruct (parse_mm_dd (row_date row)) as [[m d]|e] eqn:Hp.
      * destruct (races_step_event row rows venues events self m d Hreq Hp)
          as (ev & Hev & Hstep).
        rewrite Hstep in Hrun. clear Hstep.
        destruct (resolve_venue_cases (row_city row) (row_venue row)
                    (row_location_key row) venues self)
          as [(Hf & Hkeys & Hvs)|(Hf & Hsame)];
          rewrite Hf in Hrun.
        -- destruct (IH _ _ _ _ _ Hrun) as (kept & new & Hsub & H2 & Hres & Hk & Hv).
           exists (row :: kept), (ev :: new).
           split; [by apply sublist_skip|]. split; [by constructor|].
           split; [by rewrite Hres, <- app_assoc|]. split.
           ++ intros k. rewrite Hk, Hkeys. simpl. rewrite elem_of_cons.
              destruct Hev as (_ & _ & _ & _ & -> & _). tauto.
           ++ eapply Forall_impl; [exact Hv|]. intros x [Hx|(r & Hr & Hfrom)].
              ** rewrite Forall_forall in Hvs.
                 destruct (Hvs x Hx) as [?|[g ->]]; [by left|].
                 right. exists row. split; [apply elem_of_cons; by left|].
                 by repeat split.
              ** right. exists r. split; [apply elem_of_cons; by right|done].
        -- rewrite Hsame in Hrun.
           destruct (IH _ _ _ _ _ Hrun) as (kept & new & Hsub & H2 & Hres & Hk & Hv).
           exists kept, new. split; [by apply sublist_cons|].
           split; [done|]. split; [done|]. split; [done|].
           eapply Forall_impl; [exact Hv|]. intros x [Hx|(r & Hr & Hfrom)].
           ++ by left.
           ++ right. exists r. split; [apply elem_of_cons; by right|done].
      * rewrite (races_from_raise _ _ _ _ _ _ e Hreq Hp) in Hrun. discriminate.
    + rewrite decide_False by congruence.
      rewrite races_from_skip in Hrun by done.
      destruct (IH _ _ _ _ _ Hrun) as (kept & new & Hsub & H2 & Hres & Hk & Hv).
      exists kept, new. split; [done|]. split; [done|]. split; [done|].
      split; [done|].
      eapply Forall_impl; [exact Hv|]. intros x [Hx|(r & Hr & Hfrom)].
      * by left.
      * right. exists r. split; [apply elem_of_cons; by right|done].
Qed.

Lemma keyed_location_keys (venues : list (string * Venue.t)) :
  keyed_by_location venues -> map Venue.location_key venues.*2 = venues.*1.
Proof.
  intros [_ H]. induction H as [|[k v] venues Hk H IH]; [done|].
  simpl in *. f_equal; [exact Hk|exact IH].
Qed.

Lemma process_races_inv rows self vs evs :
  (process_races geocode_service rows self).1 = Ok (vs, evs) ->
  exists venues self',
    process_races_from geocode_service rows [] [] self = (Ok (venues, evs), self') /\
    vs = venues.*2.
Proof.
  unfold process_races.
  destruct (process_races_from geocode_service rows [] [] self)
    as [[[venues events]|e] self'] eqn:Hrun; simpl; [|discriminate].
  intros [= <- <-]. by exists venues, self'.
Qed.

Hypothesis always_accepted : forall n address,
  accepted (geocode_service n address) = true.

Lemma geocode_location_succeeds query force_state self :
  never_failed self ->
  is_Some (geocode_location geocode_service query force_state self).1 /\
  never_failed (geocode_location geocode_service query force_state self).2.
Proof.
  intros Hnf.
  destruct (geocode_cache self !! geocode_cache_key query force_state)
    as [cached|] eqn:Hc.
  - rewrite (geocode_location_hit _ _ _ _ _ Hc). simpl. split; [|done].
    destruct cached as [g|]; [done|]. by apply Hnf in Hc.
  - rewrite (geocode_location_miss _ _ _ _ Hc). simpl.
    pose proof (proj1 (accepted_outcome query _)
                  (always_accepted (length (requests self))
                     (geocode_full_query query force_state))) as [g Hg].
    rewrite Hg. split; [done|].
    intros key. unfold cache_geocode. simpl. rewrite lookup_insert.
    case_decide; [done|apply Hnf].
Qed.

Lemma resolve_venue_succeeds c v lk venues self :
  never_failed self ->
  (resolve_venue geocode_service c v lk venues self).1.1 = true /\
  never_failed (resolve_venue geocode_service c v lk venues self).2.
Proof.
  intros Hnf. unfold resolve_venue. destruct (dict_mem venues lk); [done|].
  destruct (geocode_location_succeeds (v +:+ ", " +:+ c) "WA" self Hnf)
    as [[g Hg] Hnf'].
  destruct (geocode_location geocode_service (v +:+ ", " +:+ c) "WA" self)
    as [geo self1]. simpl in *. by subst geo.
Qed.

Lemma races_all_kept rows : forall venues events self res self',
  never_failed self ->
  process_races_from geocode_service rows venues events self = (Ok res, self') ->
  exists new_events,
    Forall2 event_from (filter (fun row => has_required_fields row = true) rows)
      new_events /\
    res.2 = events ++ new_events.
Proof.
  induction rows as [|row rows IH]; intros venues events self res self' Hnf Hrun.
  - simpl in Hrun. injection Hrun as <- <-. exists [].
    split; [constructor|by rewrite app_nil_r].
  - rewrite filter_cons. destruct (has_required_fields row) eqn:Hreq.
    + rewrite decide_True by done.
      destruct (parse_mm_dd (row_date row)) as [[m d]|e] eqn:Hp.
      * destruct (races_step_event row rows venues events self m d Hreq Hp)
          as (ev & Hev & Hstep).
        rewrite Hstep in Hrun. clear Hstep.
        destruct (resolve_venue_succeeds (row_city row) (row_venue row)
                    (row_location_key row) venues self Hnf) as [Hf Hnf'].
        rewrite Hf in Hrun.
        destruct (IH _ _ _ _ _ Hnf' Hrun) as (new & H2 & Hres).
        exists (ev :: new). split; [by constructor|].
        by rewrite Hres, <- app_assoc.
      * rewrite (races_from_raise _ _ _ _ _ _ e Hreq Hp) in Hrun. discriminate.
    + rewrite decide_False by congruence.
      rewrite races_from_skip in Hrun by done.
      by apply (IH _ _ _ _ _ Hnf Hrun).
Qed.

End Events.

(** X10.  The venues and the events [process_races] returns refer to each
    other: the location keys of the venues are distinct, they are exactly
    the location keys the events carry, so there is no venue without an
    event and no event without its venue, and each venue has the city,
    the canonical name and the location key of some row with its four
    fields. *)
Theorem process_races_venues_and_events
    (geocode_service : nat -> string -> GeocodeData)
    (rows : list RaceRow.t) (self : Calculator)
    (vs : list Venue.t) (evs : list Event.t) :
  (process_races geocode_service rows self).1 = Ok (vs, evs) ->
  NoDup (map Venue.location_key vs) /\
  (forall k, k ∈ map Venue.location_key vs <-> k ∈ map Event.location_key evs) /\
  (vs = [] <-> evs = []) /\
  Forall (fun v => exists row, row ∈ rows /\ venue_from row v) vs.
Proof.
  intros Hrun.
  destruct (process_races_inv _ _ _ _ _ Hrun) as (venues & self' & Hfrom & ->).
  assert (keyed_by_location venues) as Hkeyed.
  { apply (races_keyed geocode_service rows [] [] self (venues, evs) self');
      [|done]. split; constructor. }
  destruct (races_events _ _ _ _ _ _ _ Hfrom)
    as (kept & new & _ & _ & Hres & Hk & Hv).
  simpl in Hres, Hk, Hv. subst new.
  rewrite (keyed_location_keys _ Hkeyed).
  assert (forall k, k ∈ venues.*1 <-> k ∈ map Event.location_key evs) as Hk'.
  { intros k. rewrite Hk. split; [|by right]. intros [H|H]; [inversion H|done]. }
  split; [apply Hkeyed|]. split; [done|]. split.
  - split.
    + intros Hnil. destruct evs as [|e evs]; [done|]. exfalso.
      assert (Event.location_key e ∈ venues.*1) as Hin.
      { apply Hk'. simpl. apply elem_of_cons. by left. }
      destruct venues; [inversion Hin|discriminate].
    + intros ->. destruct venues as [|[k v] venues]; [done|]. exfalso.
      assert (k ∈ map Event.location_key []) as Hin.
      { apply Hk'. simpl. apply elem_of_cons. by left. }
      inversion Hin.
  - apply Forall_fmap. eapply Forall_impl; [exact Hv|].
    intros x [H|H]; [inversion H|done].
Qed.

Lemma process_races_venues_and_events_witness :
  let run :=
    process_races (found_at 47.3 (-120.4)) two_races_at_squilchuck new_calculator in
  NoDup (map Venue.location_key (venues_of run.1)) /\
  (forall k, k ∈ map Venue.location_key (venues_of run.1)
             <-> k ∈ map Event.location_key (events_of run.1)) /\
  (venues_of run.1 = [] <-> events_of run.1 = []) /\
  Forall (fun v => exists row, row ∈ two_races_at_squilchuck /\ venue_from row v)
    (venues_of run.1).
Proof.
  intros run.
  apply (process_races_venues_and_events (found_at 47.3 (-120.4))
           two_races_at_squilchuck new_calculator).
  vm_compute. reflexivity.
Defined.

(** X11.  The events [process_races] returns are made of rows that have
    their four fields, one event for each row kept, in the order of the
    file: month and day are the two integers of the date, the season is
    the season of the month, the location key is "city, venue" with the
    canonical venue name, and the identifier is year-MM-DD_city_venue with
    two-digit month and day and each run of whitespace of the venue
    replaced by one underscore. *)
Theorem process_races_events_from_rows
    (geocode_service : nat -> string -> GeocodeData)
    (rows : list RaceRow.t) (self : Calculator)
    (vs : list Venue.t) (evs : list Event.t) :
  (process_races geocode_service rows self).1 = Ok (vs, evs) ->
  exists kept,
    kept `sublist_of` rows /\
    Forall (fun row => has_required_fields row = true) kept /\
    Forall2 event_from kept evs.
Proof.
  intros Hrun.
  destruct (process_races_inv _ _ _ _ _ Hrun) as (venues & self' & Hfrom & ->).
  destruct (races_events _ _ _ _ _ _ _ Hfrom)
    as (kept & new & Hsub & H2 & Hres & _ & _).
  simpl in Hres. subst new. exists kept. split.
  - etrans; [exact Hsub|]. apply sublist_filter.
  - split; [|done]. apply Forall_forall. intros row Hin.
    pose proof (elem_of_sublist _ _ _ Hin Hsub) as Hin'.
    by apply list_elem_of_filter in Hin' as [? _].
Qed.

Lemma process_races_events_from_rows_witness :
  let run :=
    process_races (found_at 47.3 (-120.4)) two_races_at_squilchuck new_calculator in
  exists kept,
    kept `sublist_of` two_races_at_squilchuck /\
    Forall (fun row => has_required_fields row = true) kept /\
    Forall2 event_from kept (events_of run.1).
Proof.
  intros run.
  apply (process_races_events_from_rows (found_at 47.3 (-120.4))
           two_races_at_squilchuck new_calculator (venues_of run.1)).
  vm_compute. reflexivity.
Defined.

(** X12.  No row is lost but to a failed geocoding: when the geocoder
    answers every request with a result inside the box and the cache holds
    no failed query, [process_races] returns one event for every row that
    has its four fields, in the order of the file. *)
Theorem process_races_keeps_every_row
    (geocode_service : nat -> string -> GeocodeData)
    (rows : list RaceRow.t) (self : Calculator)
    (vs : list Venue.t) (evs : list Event.t) :
  (forall n address, accepted (geocode_service n address) = true) ->
  never_failed self ->
  (process_races geocode_service rows self).1 = Ok (vs, evs) ->
  Forall2 event_from (filter (fun row => has_required_fields row = true) rows) evs /\
  length evs = length (filter (fun row => has_required_fields row = true) rows).
Proof.
  intros Hacc Hnf Hrun.
  destruct (process_races_inv _ _ _ _ _ Hrun) as (venues & self' & Hfrom & ->).
  destruct (races_all_kept _ Hacc _ _ _ _ _ _ Hnf Hfrom) as (new & H2 & Hres).
  simpl in Hres. subst new. split; [done|].
  symmetry. by eapply Forall2_length.
Qed.

Lemma process_races_keeps_every_row_witness :
  let run :=
    process_races (found_at 47.3 (-120.4)) two_races_at_squilchuck new_calculator in
  Forall2 event_from
    (filter (fun row => has_required_fields row = true) two_races_at_squilchuck)
    (events_of run.1) /\
  length (events_of run.1)
  = length (filter (fun row => has_required_fields row = true)
              two_races_at_squilchuck).
Proof.
  intros run.
  apply (process_races_keeps_every_row (found_at 47.3 (-120.4))
           two_races_at_squilchuck new_calculator (venues_of run.1)).
  - intros n address. reflexivity.
  - intros key. simpl. by rewrite lookup_empty.
  - vm_compute. reflexivity.
Defined.

(** ** Event counts *)

Lemma sum_dict_update_S (counts : list (string * nat)) k :
  sum_list (dict_update counts k 0 S).*2 = S (sum_list counts.*2).
Proof.
  unfold dict_update, dict_get_or.
  induction counts as [|[k' n] counts IH]; [done|].
  cbn [dict_set dict_get]. case_decide; rewrite !fmap_cons; simpl; [done|].
  rewrite IH. lia.
Qed.

Lemma sum_count_venues events : forall counts : list (string * nat),
  sum_list
    (fold_left (fun counts e => dict_update counts (Event.location_key e) 0 S)
       events counts).*2
  = sum_list counts.*2 + length events.
Proof.
  induction events as [|e events IH]; intros counts; simpl; [lia|].
  rewrite IH, sum_dict_update_S. lia.
Qed.

Lemma events_at_seasons events v :
  events_at events v
  = season_events_at events Spring v + season_events_at events Fall v
    + season_events_at events Other v.
Proof.
  unfold events_at, season_events_at.
  induction events as [|e events IH]; [done|].
  rewrite !filter_cons.
  destruct (Event.season e) eqn:Es; repeat case_decide; simpl;
    try (exfalso; intuition congruence); lia.
Qed.

(** X13.  The two counters [derive_aggregates] returns count the events:
    a venue has an entry exactly when an event is held there (in that
    season), and the entry is the number of those events.  No key is
    repeated, the counts add up to the number of events, and for each
    venue the three seasons add up to its overall count. *)
Theorem derive_aggregates_event_counts
    (distances : list (string * TeamDistances)) (events : list Event.t) :
  let agg := (derive_aggregates distances events).1 in
  (forall v,
     dict_get (venue_event_counts agg) v
     = match events_at events v with 0 => None | n => Some n end) /\
  (forall s v,
     lookup2 (venue_event_counts_by_season agg) (s, v)
     = match season_events_at events s v with 0 => None | n => Some n end) /\
  NoDup (venue_event_counts agg).*1 /\
  keys_distinct2 (venue_event_counts_by_season agg) /\
  sum_list (venue_event_counts agg).*2 = length events /\
  (forall v,
     events_at events v
     = season_events_at events Spring v + season_events_at events Fall v
       + season_events_at events Other v).
Proof.
  intros agg. subst agg. simpl.
  split; [apply count_venues_get|].
  split; [apply count_venues_by_season_get|].
  split; [apply count_venues_NoDup|].
  split; [apply count_venues_by_season_distinct|].
  split; [apply (sum_count_venues events [])|].
  apply events_at_seasons.
Qed.

(** ** Totals of a team *)







Section TeamTotals.

Variable tdata : TeamDistances.





End TeamTotals.

Lemma dict_get_map_values {V W : Type} (f : V -> W) (d : list (string * V)) k :
  dict_get (map (fun '(k, v) => (k, f v)) d) k = f <$> dict_get d k.
Proof.
  induction d as [|[k' v] d IH]; [done|].
  simpl. case_decide; [done|exact IH].
Qed.




(** ** The whole run *)

Lemma process_races_state geocode_service rows self :
  (process_races geocode_service rows self).2
  = (process_races_from geocode_service rows [] [] self).2.
Proof.
  unfold process_races.
  by destruct (process_races_from geocode_service rows [] [] self)
    as [[[venues events]|e] self'].
Qed.

Lemma process_races_keys geocode_service rows self vs evs :
  (process_races geocode_service rows self).1 = Ok (vs, evs) ->
  NoDup (map Venue.location_key vs) /\
  forall k, k ∈ map Venue.location_key vs <-> k ∈ map Event.location_key evs.
Proof.
  intros Hrun.
  destruct (process_races_inv _ _ _ _ _ Hrun) as (venues & self' & Hfrom & ->).
  assert (keyed_by_location venues) as Hkeyed.
  { apply (races_keyed geocode_service rows [] [] self (venues, evs) self');
      [|done]. split; constructor. }
  destruct (races_events _ _ _ _ _ _ _ Hfrom)
    as (kept & new & _ & _ & Hres & Hk & _).
  simpl in Hres, Hk. subst new.
  rewrite (keyed_location_keys _ Hkeyed). split; [apply Hkeyed|].
  intros k. rewrite Hk. split; [|by right]. intros [H|H]; [inversion H|done].
Qed.

Lemma events_at_pos events k :
  k ∈ map Event.location_key events -> events_at events k <> 0.
Proof.
  intros Hin. apply list_elem_of_fmap in Hin as (e & -> & He).
  unfold events_at.
  assert (e ∈ filter (fun e0 => Event.location_key e0 = Event.location_key e) events)
    as Hf by (by apply list_elem_of_filter).
  destruct (filter _ events); [inversion Hf|done].
Qed.

Lemma matrix_entry_team_totals events d n k :
  matrix_entry (map (fun '(team, tdata) => (team, team_totals events tdata)) d) n k
  = matrix_entry d n k.
Proof.
  unfold matrix_entry.
  rewrite (dict_get_map_values (team_totals events) d n).
  destruct (dict_get d n) as [tdata|]; simpl; [|done].
  by rewrite team_totals_keeps_venues.
Qed.

Lemma geocode_run_length qs s s' :
  geocode_run qs s s' -> length (requests s') <= length (requests s) + length qs.
Proof.
  intros Hrun. destruct (geocode_run_count _ _ _ Hrun) as [_ HL].
  destruct Hrun as (_ & _ & new & R & _ & _).
  rewrite (sent_between_app _ _ _ R) in HL. rewrite R, length_app.
  pose proof (new_keys_le (query_keys qs) (geocode_cache s)) as Hle.
  unfold query_keys in *. rewrite length_map in Hle. lia.
Qed.

Lemma matrix_run_length keys s s' :
  matrix_run keys s s' -> length (requests s') <= length (requests s) + length keys.
Proof.
  intros Hrun. destruct (matrix_run_count _ _ _ Hrun) as [_ HL].
  destruct Hrun as (_ & _ & new & R & _ & _).
  rewrite (sent_between_app _ _ _ R) in HL. rewrite R, length_app.
  pose proof (new_keys_le keys (distance_cache s)). lia.
Qed.

Lemma races_venues_in_box geocode_service rows self :
  cache_in_box self ->
  forall vs evs,
    (process_races geocode_service rows self).1 = Ok (vs, evs) ->
    Forall (fun v => in_box (Venue.geocoded v)) vs.
Proof.
  intros Hbox vs evs Hrun.
  destruct (process_races_inv _ _ _ _ _ Hrun) as (venues & self' & Hfrom & ->).
  destruct (races_in_box geocode_service rows [] [] self (venues, evs) self'
              Hbox ltac:(constructor) Hfrom) as [_ H].
  by apply Forall_fmap.
Qed.

(** X15.  A document [main] writes is complete and consistent.  It has at
    least one team, venue and event, and its metadata count them; every
    team and venue is located inside the box; the venues have distinct
    location keys, which are exactly those the events carry; the matrix
    has an entry for every team and venue; every venue has an event count
    and totals of miles and hours; and the run sent at most two requests
    for each row of the teams file, one for each row of the races file and
    one for each pair of a team and a venue. *)
Theorem main_document
    (geocode_service : nat -> string -> GeocodeData)
    (matrix_service : nat -> Q * Q -> Q * Q -> MatrixData)
    (team_rows : list TeamRow.t) (race_rows : list RaceRow.t)
    (doc : Document.t) (calc : Calculator) :
  main geocode_service matrix_service team_rows race_rows = (Ok (Some doc), calc) ->
  let agg := Document.aggregates doc in
  (Document.teams doc <> [] /\ Document.venues doc <> [] /\
   Document.events doc <> []) /\
  Document.metadata doc
  = {| total_teams := length (Document.teams doc);
       total_venues := length (Document.venues doc);
       total_events := length (Document.events doc) |} /\
  Forall (fun t => in_box (Team.geocoded t)) (Document.teams doc) /\
  Forall (fun v => in_box (Venue.geocoded v)) (Document.venues doc) /\
  NoDup (map Venue.location_key (Document.venues doc)) /\
  (forall k, k ∈ map Venue.location_key (Document.venues doc)
             <-> k ∈ map Event.location_key (Document.events doc)) /\
  (forall t v, t ∈ Document.teams doc -> v ∈ Document.venues doc ->
     is_Some (matrix_entry (Document.distances doc) (Team.name t)
                (Venue.location_key v))) /\
  (forall v, v ∈ Document.venues doc ->
     is_Some (dict_get (venue_event_counts agg) (Venue.location_key v)) /\
     is_Some (dict_get (venue_total_miles agg) (Venue.location_key v)) /\
     is_Some (dict_get (venue_total_hours agg) (Venue.location_key v))) /\
  length (requests calc)
  <= 2 * length team_rows + length race_rows
     + length (Document.teams doc) * length (Document.venues doc).
Proof.
  unfold main. simpl.
  pose proof (process_teams_from_in_box geocode_service team_rows [] new_calculator
                new_calculator_in_box ltac:(constructor)) as [Hbox1 Hteams].
  pose proof (process_teams_from_run geocode_service team_rows [] new_calculator)
    as Hrun1.
  fold (process_teams geocode_service team_rows new_calculator)
    in Hbox1, Hteams, Hrun1.
  destruct (process_teams geocode_service team_rows new_calculator)
    as [teams c1].
  simpl in Hbox1, Hteams, Hrun1.
  destruct teams as [|t0 teams]; [discriminate|].
  pose proof (races_run geocode_service race_rows [] [] c1) as Hrun2.
  rewrite <- process_races_state in Hrun2.
  pose proof (process_races_keys geocode_service race_rows c1) as Hkeys.
  pose proof (races_venues_in_box geocode_service race_rows c1 Hbox1) as Hvenues.
  destruct (process_races geocode_service race_rows c1)
    as [[[vs evs]|e] c2]; [|discriminate].
  simpl in Hrun2. specialize (Hkeys vs evs eq_refl) as [Hnd Hkeys].
  specialize (Hvenues vs evs eq_refl).
  destruct vs as [|v0 vs]; [discriminate|].
  destruct evs as [|e0 evs]; [discriminate|].
  pose proof (distances_from_entries matrix_service (t0 :: teams) (v0 :: vs) [] c2)
    as (_ & _ & Hentries & _).
  pose proof (distances_from_keys matrix_service (t0 :: teams) (v0 :: vs) [] c2
                ltac:(constructor) ltac:(constructor)) as (_ & _ & Hnames).
  pose proof (distances_from_run matrix_service (t0 :: teams) (v0 :: vs) [] c2)
    as Hrun3.
  apply matrix_run_length in Hrun3. rewrite length_pair_keys in Hrun3.
  fold (compute_team_venue_distances matrix_service (t0 :: teams) (v0 :: vs) c2)
    in Hentries, Hnames, Hrun3.
  destruct (compute_team_venue_distances matrix_service (t0 :: teams)
              (v0 :: vs) c2) as [d c3].
  simpl in Hentries, Hnames, Hrun3.
  intros [= <- <-]. simpl.
  split; [done|]. split; [done|]. split; [done|]. split; [done|].
  split; [done|]. split; [done|]. split; [|split].
  - intros t v Ht Hv. rewrite matrix_entry_team_totals. by apply Hentries.
  - intros v Hv.
    assert (events_at (e0 :: evs) (Venue.location_key v) <> 0) as Hpos.
    { apply events_at_pos, Hkeys. by apply list_elem_of_fmap_2. }
    assert (d <> []) as Hd.
    { assert (Team.name t0 ∈ d.*1) as Hin.
      { apply Hnames. right. simpl. apply elem_of_cons. by left. }
      destruct d; [inversion Hin|done]. }
    split; [|split].
    + rewrite count_venues_get.
      by destruct (events_at (e0 :: evs) (Venue.location_key v)).
    + rewrite (proj1 (venue_totals_weighted miles 1 d (e0 :: evs)
                        (Venue.location_key v))).
      unfold weighted_total.
      destruct (events_at (e0 :: evs) (Venue.location_key v)); [done|].
      by destruct d.
    + rewrite (proj1 (venue_totals_weighted hours 2 d (e0 :: evs)
                        (Venue.location_key v))).
      unfold weighted_total.
      destruct (events_at (e0 :: evs) (Venue.location_key v)); [done|].
      by destruct d.
  - apply geocode_run_length in Hrun1, Hrun2.
    pose proof (length_team_queries team_rows).
    pose proof (length_race_queries race_rows).
    simpl in *. lia.
Qed.

Lemma main_document_witness :
  let doc := sample_document in
  let calc := sample_run.2 in
  let agg := Document.aggregates doc in
  (Document.teams doc <> [] /\ Document.venues doc <> [] /\
   Document.events doc <> []) /\
  Document.metadata doc
  = {| total_teams := length (Document.teams doc);
       total_venues := length (Document.venues doc);
       total_events := length (Document.events doc) |} /\
  Forall (fun t => in_box (Team.geocoded t)) (Document.teams doc) /\
  Forall (fun v => in_box (Venue.geocoded v)) (Document.venues doc) /\
  NoDup (map Venue.location_key (Document.venues doc)) /\
  (forall k, k ∈ map Venue.location_key (Document.venues doc)
             <-> k ∈ map Event.location_key (Document.events doc)) /\
  (forall t v, t ∈ Document.teams doc -> v ∈ Document.venues doc ->
     is_Some (matrix_entry (Document.distances doc) (Team.name t)
                (Venue.location_key v))) /\
  (forall v, v ∈ Document.venues doc ->
     is_Some (dict_get (venue_event_counts agg) (Venue.location_key v)) /\
     is_Some (dict_get (venue_total_miles agg) (Venue.location_key v)) /\
     is_Some (dict_get (venue_total_hours agg) (Venue.location_key v))) /\
  length (requests calc)
  <= 2 * length one_team_file + length two_races_at_squilchuck
     + length (Document.teams doc) * length (Document.venues doc).
Proof.
  intros doc calc.
  apply (main_document (found_at 47.6 (-122.3)) routes one_team_file
           two_races_at_squilchuck doc calc).
  vm_compute. reflexivity.
Defined.

Lemma process_races_abort geocode_service rows self :
  (exists row,
     row ∈ rows /\ has_required_fields row = true /\
     forall m d, parse_mm_dd (row_date row) <> Ok (m, d)) ->
  (process_races geocode_service rows self).1 = Raise ValueError.
Proof.
  intros (row & Hin & Hreq & Hbad).
  pose proof (races_from_abort geocode_service rows [] [] self row Hin Hreq Hbad)
    as Habort.
  unfold process_races.
  destruct (process_races_from geocode_service rows [] [] self)
    as [[[venues events]|e] self']; simpl in *; [discriminate|].
  by destruct e.
Qed.

(** X16.  The early exits of [main].  When no team was geocoded, [main]
    returns without a document and without reading the races file, so a
    malformed date there goes unnoticed.  When a team was geocoded and a
    row of the races file with its four fields has a date that does not
    parse, [main] does not return.  When [main] returns without a
    document, no team was geocoded or the races file gave no venue and no
    event; when it returns a document, a team was geocoded, the races file
    gave an event and the document holds these teams, venues and events. *)
Theorem main_early_exits
    (geocode_service : nat -> string -> GeocodeData)
    (matrix_service : nat -> Q * Q -> Q * Q -> MatrixData)
    (team_rows : list TeamRow.t) (race_rows : list RaceRow.t) :
  let teams := (process_teams geocode_service team_rows new_calculator).1 in
  let calc := (process_teams geocode_service team_rows new_calculator).2 in
  let r := (main geocode_service matrix_service team_rows race_rows).1 in
  (teams = [] -> r = Ok None) /\
  (teams <> [] ->
   (exists row,
      row ∈ race_rows /\ has_required_fields row = true /\
      forall m d, parse_mm_dd (row_date row) <> Ok (m, d)) ->
   forall out, r <> Ok out) /\
  (r = Ok None ->
   teams = [] \/ (process_races geocode_service race_rows calc).1 = Ok ([], [])) /\
  (forall doc,
     r = Ok (Some doc) ->
     teams <> [] /\ Document.events doc <> [] /\
     Document.teams doc = teams /\
     (process_races geocode_service race_rows calc).1
     = Ok (Document.venues doc, Document.events doc)).
Proof.
  intros teams calc r. subst teams calc r. unfold main. simpl.
  destruct (process_teams geocode_service team_rows new_calculator)
    as [teams c1]. simpl.
  destruct teams as [|t0 teams]; simpl.
  { split; [done|]. split; [done|]. split; [by left|]. by intros doc [=]. }
  pose proof (process_races_abort geocode_service race_rows c1) as Hraise.
  pose proof (process_races_keys geocode_service race_rows c1) as Hkeys.
  destruct (process_races geocode_service race_rows c1)
    as [[[vs evs]|[]] c2]; simpl in *.
  - specialize (Hkeys vs evs eq_refl) as [_ Hkeys].
    assert ((exists row,
               row ∈ race_rows /\ has_required_fields row = true /\
               forall m d, parse_mm_dd (row_date row) <> Ok (m, d)) -> False)
      as Hgood by (intros H; by apply Hraise in H).
    destruct vs as [|v0 vs], evs as [|e0 evs]; simpl.
    + split; [done|]. split; [by intros _ H|]. split; [by right|].
      by intros doc [=].
    + exfalso. assert (Event.location_key e0 ∈ map Venue.location_key []) as H.
      { apply Hkeys. simpl. apply elem_of_cons. by left. }
      inversion H.
    + exfalso.
      assert (Venue.location_key v0 ∈ map Event.location_key []) as H.
      { apply Hkeys. simpl. apply elem_of_cons. by left. }
      inversion H.
    + destruct (compute_team_venue_distances matrix_service (t0 :: teams)
                  (v0 :: vs) c2) as [d c3]. simpl.
      split; [done|]. split; [by intros _ H|]. split; [discriminate|].
      by intros doc [= <-].
  - split; [done|]. split; [by intros _ _ out|]. split; [discriminate|].
    by intros doc [=].
Qed.

(** ** Strings *)

Lemma rstrip_cons c s :
  rstrip (String c s)
  = match rstrip s with
    | EmptyString => if isspace c then EmptyString else String c EmptyString
    | r => String c r
    end.
Proof. reflexivity. Qed.

Lemma rstrip_idem s : rstrip (rstrip s) = rstrip s.
Proof.
  induction s as [|c s IH]; [done|].
  rewrite rstrip_cons. destruct (rstrip s) as [|d r] eqn:E.
  - destruct (isspace c) eqn:Ec; [done|].
    rewrite rstrip_cons. simpl. by rewrite Ec.
  - rewrite rstrip_cons, IH. reflexivity.
Qed.

Lemma lstrip_head s : head_nonspace (lstrip s) = true.
Proof.
  induction s as [|c s IH]; [done|].
  simpl. destruct (isspace c) eqn:Ec; [exact IH|]. simpl. by rewrite Ec.
Qed.

Lemma rstrip_head s : head_nonspace s = true -> head_nonspace (rstrip s) = true.
Proof.
  destruct s as [|c s]; [done|]. intros Hc.
  rewrite rstrip_cons. simpl in Hc. apply negb_true_iff in Hc.
  rewrite Hc. destruct (rstrip s); simpl; by rewrite Hc.
Qed.

Lemma lstrip_fixed s : head_nonspace s = true -> lstrip s = s.
Proof.
  destruct s as [|c s]; [done|]. simpl. intros Hc.
  apply negb_true_iff in Hc. by rewrite Hc.
Qed.

Lemma rstrip_ends s : ends_nonspace (rstrip s) = true.
Proof.
  induction s as [|c s IH]; [done|].
  rewrite rstrip_cons. destruct (rstrip s) as [|d r].
  - destruct (isspace c) eqn:Ec; [done|]. simpl. by rewrite Ec.
  - exact IH.
Qed.

Lemma rstrip_fixed s : ends_nonspace s = true -> rstrip s = s.
Proof.
  induction s as [|c s IH]; [done|]. intros H.
  rewrite rstrip_cons. destruct s as [|d s].
  - simpl in *. apply negb_true_iff in H. by rewrite H.
  - rewrite (IH H). reflexivity.
Qed.

Lemma strip_head s : head_nonspace (strip s) = true.
Proof. apply rstrip_head, lstrip_head. Qed.

Lemma strip_fixed s :
  head_nonspace s = true -> ends_nonspace s = true -> strip s = s.
Proof.
  intros Hh He. unfold strip. rewrite (lstrip_fixed s Hh). by apply rstrip_fixed.
Qed.

Lemma strip_idem s : strip (strip s) = strip s.
Proof. apply strip_fixed; [apply strip_head|apply rstrip_ends]. Qed.

Lemma no_space_run_cons a s :
  no_space_run (String a s) = no_pair a s && no_space_run s.
Proof. reflexivity. Qed.

Lemma no_pair_nonspace a s : isspace a = false -> no_pair a s = true.
Proof. intros Ha. destruct s; simpl; [done|]. by rewrite Ha. Qed.

Lemma collapse_spaces_cons b c s :
  collapse_spaces b (String c s)
  = if isspace c then
      if b then collapse_spaces true s
      else match s with
           | String c2 _ =>
               if isspace c2 then String " " (collapse_spaces true s)
               else String c (collapse_spaces false s)
           | EmptyString => String c EmptyString
           end
    else String c (collapse_spaces false s).
Proof. reflexivity. Qed.

Lemma collapse_spaces_runs s : forall b,
  no_space_run (collapse_spaces b s) = true /\
  (b = true -> head_nonspace (collapse_spaces b s) = true).
Proof.
  induction s as [|c s IH]; intros b; [done|].
  rewrite collapse_spaces_cons. destruct (isspace c) eqn:Ec.
  - destruct b; [apply IH|].
    split; [|discriminate].
    destruct s as [|c2 s]; [done|].
    destruct (isspace c2) eqn:Ec2.
    + destruct (IH true) as [H1 H2]. specialize (H2 eq_refl).
      rewrite no_space_run_cons, H1, andb_true_r.
      destruct (collapse_spaces true (String c2 s)) as [|d r]; [done|].
      simpl in H2. apply negb_true_iff in H2. simpl. by rewrite H2.
    + destruct (IH false) as [H1 _].
      rewrite no_space_run_cons, H1, andb_true_r.
      rewrite collapse_spaces_cons, Ec2. simpl. by rewrite Ec2, andb_false_r.
  - destruct (IH false) as [H1 _]. split.
    + by rewrite no_space_run_cons, H1, (no_pair_nonspace _ _ Ec).
    + intros _. simpl. by rewrite Ec.
Qed.

Lemma collapse_spaces_head s b :
  head_nonspace s = true -> head_nonspace (collapse_spaces b s) = true.
Proof.
  destruct s as [|c s]; [done|]. intros Hc. simpl in Hc.
  apply negb_true_iff in Hc. rewrite collapse_spaces_cons, Hc. simpl.
  by rewrite Hc.
Qed.

Lemma ends_nonspace_cons c s :
  s <> EmptyString -> ends_nonspace (String c s) = ends_nonspace s.
Proof. by destruct s. Qed.

Lemma collapse_spaces_nonempty s : forall b,
  ends_nonspace s = true -> s <> EmptyString ->
  collapse_spaces b s <> EmptyString.
Proof.
  induction s as [|c s IH]; intros b He Hne; [done|].
  rewrite collapse_spaces_cons.
  destruct s as [|c2 s].
  - simpl in He. apply negb_true_iff in He. by rewrite He.
  - destruct (isspace c); [|done].
    destruct b; [by apply IH|]. by destruct (isspace c2).
Qed.

Lemma collapse_spaces_ends s : forall b,
  ends_nonspace s = true -> ends_nonspace (collapse_spaces b s) = true.
Proof.
  induction s as [|c s IH]; intros b He; [done|].
  rewrite collapse_spaces_cons.
  destruct s as [|c2 s].
  - simpl in He. apply negb_true_iff in He. rewrite He. simpl. by rewrite He.
  - assert (ends_nonspace (String c2 s) = true) as He' by exact He.
    assert (forall b', collapse_spaces b' (String c2 s) <> EmptyString) as Hne
      by (intros b'; by apply collapse_spaces_nonempty).
    destruct (isspace c).
    + destruct b; [by apply IH|].
      destruct (isspace c2);
        rewrite ends_nonspace_cons by apply Hne; by apply IH.
    + rewrite ends_nonspace_cons by apply Hne. by apply IH.
Qed.

Lemma collapse_spaces_clean s :
  no_space_run s = true -> collapse_spaces false s = s.
Proof.
  induction s as [|c s IH]; [done|].
  rewrite no_space_run_cons. intros H. apply andb_true_iff in H as [Hp Hr].
  rewrite collapse_spaces_cons, (IH Hr).
  destruct (isspace c) eqn:Ec; [|done].
  destruct s as [|c2 s]; [done|].
  simpl in Hp. rewrite Ec in Hp. simpl in Hp. apply negb_true_iff in Hp.
  by rewrite Hp.
Qed.

Lemma remove_ignorecase_absent pat s :
  contains (lower pat) (lower s) = false -> remove_ignorecase pat 0 s = s.
Proof.
  induction s as [|c s IH]; [done|].
  cbn [lower contains remove_ignorecase]. intros H.
  apply orb_false_iff in H as [Hp Hc].
  unfold prefix_ignorecase. cbn [lower]. rewrite Hp, (IH Hc). reflexivity.
Qed.

(** X17.  [clean_city_field] never empties a city: a city that is not
    empty stays not empty.  What it returns is the city as given, or a
    string without white space at either end and without two adjacent
    white-space characters.  A city that is already of that form and does
    not contain the team name, letter case ignored, comes back unchanged. *)
Theorem clean_city_field_result (team_name city : string) :
  let r := clean_city_field team_name city in
  (city <> "" -> r <> "") /\
  (r = city \/ (strip r = r /\ no_space_run r = true)) /\
  (team_name = "" \/ contains (lower team_name) (lower city) = false ->
   strip city = city -> no_space_run city = true -> r = city).
Proof.
  intros r. subst r. unfold clean_city_field.
  destruct (String.eqb city "") eqn:Ecity.
  { split; [done|]. split; [by left|done]. }
  set (c := match team_name with
            | EmptyString => city
            | String _ _ => remove_ignorecase team_name 0 city
            end).
  split; [|split].
  - intros Hne. destruct (String.eqb (collapse_spaces false (strip c)) "") eqn:E;
      [done|]. by apply String.eqb_neq.
  - destruct (String.eqb (collapse_spaces false (strip c)) "") eqn:E;
      [by left|]. right. split.
    + apply strip_fixed.
      * apply collapse_spaces_head, strip_head.
      * apply collapse_spaces_ends, rstrip_ends.
    + apply collapse_spaces_runs.
  - intros Hteam Hstrip Hrun.
    assert (c = city) as ->.
    { subst c. destruct team_name as [|a t]; [done|].
      destruct Hteam as [?|Hc]; [done|]. by apply remove_ignorecase_absent. }
    rewrite Hstrip, (collapse_spaces_clean _ Hrun). by rewrite Ecity.
Qed.

(** ** Venue names are canonical *)

Lemma first_override_elem city overrides v :
  first_override city overrides = Some v -> v ∈ overrides.*2.
Proof.
  induction overrides as [|[k v'] rest IH]; [done|].
  simpl. destruct (contains _ _).
  - intros [= ->]. apply elem_of_cons. by left.
  - intros H. apply elem_of_cons. right. by apply IH.
Qed.

Lemma canonical_names_fixed :
  Forall (fun v => forall city, standardize_venue_name city v = v)
    (LOCATION_STANDARDIZATION.*2 ++ CITY_LOCAL_VENUE_OVERRIDES.*2).
Proof. repeat constructor. Qed.

Lemma standardize_venue_name_cases city venue :
  standardize_venue_name city venue
    ∈ LOCATION_STANDARDIZATION.*2 ++ CITY_LOCAL_VENUE_OVERRIDES.*2 \/
  (standardize_venue_name city venue = strip venue /\
   String.eqb (strip venue) "(local venue)" = false /\
   dict_get LOCATION_STANDARDIZATION (strip venue) = None).
Proof.
  unfold standardize_venue_name.
  destruct (String.eqb (strip venue) "(local venue)") eqn:E.
  - left. destruct (first_override city CITY_LOCAL_VENUE_OVERRIDES) as [v|] eqn:Ho.
    + apply elem_of_app. right. by eapply first_override_elem.
    + apply String.eqb_eq in E. rewrite E.
      apply elem_of_app. left.
      assert (dict_get LOCATION_STANDARDIZATION "(local venue)"
              = Some "Riverside State Park") as G by reflexivity.
      unfold dict_get_or. rewrite G.
      apply dict_get_Some_elem in G.
      apply (list_elem_of_fmap_2 snd) in G. exact G.
  - unfold dict_get_or.
    destruct (dict_get LOCATION_STANDARDIZATION (strip venue)) as [v|] eqn:G.
    + left. apply elem_of_app. left.
      apply dict_get_Some_elem in G.
      apply (list_elem_of_fmap_2 snd) in G. exact G.
    + by right.
Qed.

(** X18.  [standardize_venue_name] returns canonical names: a name it
    returned is returned unchanged when given again, for any city.  White
    space around the venue changes nothing, and the city matters only for
    the placeholder "(local venue)". *)
Theorem standardize_venue_name_canonical (city venue : string) :
  (forall city',
     standardize_venue_name city' (standardize_venue_name city venue)
     = standardize_venue_name city venue) /\
  standardize_venue_name city (strip venue) = standardize_venue_name city venue /\
  (strip venue <> "(local venue)" ->
   forall city', standardize_venue_name city' venue
                 = standardize_venue_name city venue).
Proof.
  split; [|split].
  - intros city'.
    destruct (standardize_venue_name_cases city venue) as [Hin|(-> & E & G)].
    + pose proof canonical_names_fixed as Hfix.
      rewrite Forall_forall in Hfix. by apply Hfix.
    + unfold standardize_venue_name. rewrite strip_idem, E.
      unfold dict_get_or. by rewrite G.
  - unfold standardize_venue_name. by rewrite strip_idem.
  - intros Hne city'. unfold standardize_venue_name.
    apply String.eqb_neq in Hne. by rewrite Hne.
Qed.

(** ** Teams of the teams file *)

Section TeamRows.

Variable geocode_service : nat -> string -> GeocodeData.

Lemma nonempty_true s : nonempty s = true -> s <> "".
Proof. unfold nonempty. intros H ->. discriminate. Qed.

Lemma process_team_row_team row teams self :
  (process_team_row geocode_service row teams self).1 = teams \/
  exists t,
    (process_team_row geocode_service row teams self).1 = teams ++ [t] /\
    team_from row t.
Proof.
  unfold process_team_row, team_from. fold (row_team row).
  destruct (nonempty (row_team row)) eqn:Hne; simpl; [|by left].
  apply nonempty_true in Hne.
  set (city := clean_city_field _ _).
  set (state := strip (str_or (TeamRow.State row) "WA")).
  set (zipc := strip (str_or (TeamRow.Zip row) "")).
  destruct (nonempty zipc) eqn:Hz.
  - apply nonempty_true in Hz.
    destruct (geocode_location geocode_service zipc state self) as [[g|] self1];
      simpl.
    + right. eexists. split; [reflexivity|]. simpl. by auto 10.
    + destruct (nonempty city) eqn:Hc; simpl; [|by left].
      destruct (geocode_location geocode_service city state self1)
        as [[g|] self2]; simpl; [|by left].
      right. eexists. split; [reflexivity|]. simpl. by auto 10.
  - simpl. destruct (nonempty city) eqn:Hc; simpl; [|by left].
    apply nonempty_true in Hc.
    destruct (geocode_location geocode_service city state self)
      as [[g|] self2]; simpl; [|by left].
    right. eexists. split; [reflexivity|]. simpl. by auto 10.
Qed.

Lemma process_teams_from_teams rows : forall teams self,
  exists kept new,
    kept `sublist_of` rows /\ Forall2 team_from kept new /\
    (process_teams_from geocode_service rows teams self).1 = teams ++ new.
Proof.
  induction rows as [|row rows IH]; intros teams self; simpl.
  - exists [], []. split; [done|]. split; [constructor|by rewrite app_nil_r].
  - destruct (process_team_row_team row teams self) as [Hrow|(t & Hrow & Ht)];
      destruct (process_team_row geocode_service row teams self)
        as [teams1 self1]; simpl in Hrow; subst teams1.
    + destruct (IH teams self1) as (kept & new & Hsub & H2 & ->).
      exists kept, new. split; [by apply sublist_cons|done].
    + destruct (IH (teams ++ [t]) self1) as (kept & new & Hsub & H2 & ->).
      exists (row :: kept), (t :: new). split; [by apply sublist_skip|].
      split; [by constructor|]. by rewrite <- app_assoc.
Qed.

End TeamRows.

(** X19.  The teams [process_teams] returns are made of rows of the file,
    one team for each row kept, in the order of the file: the name is the
    trimmed Team column and is not empty, the city is the trimmed City
    column cleaned of the team name, the state is the trimmed State
    column, WA when it is empty, the zip code is the trimmed Zip column,
    and a row kept has a zip code or a city. *)
Theorem process_teams_from_rows
    (geocode_service : nat -> string -> GeocodeData)
    (rows : list TeamRow.t) (self : Calculator) :
  exists kept,
    kept `sublist_of` rows /\
    Forall2 team_from kept (process_teams geocode_service rows self).1 /\
    length (process_teams geocode_service rows self).1 <= length rows.
Proof.
  unfold process_teams.
  destruct (process_teams_from_teams geocode_service rows [] self)
    as (kept & new & Hsub & H2 & ->).
  exists kept. simpl. split; [done|]. split; [done|].
  rewrite <- (Forall2_length _ _ _ H2). by apply sublist_length.
Qed.
